(** * Tournament.ts: a shallow embedding of the tournament controller

    The development follows [src/Tournament.ts]: the static helpers of the
    class [Tournament] ([newPlayer], [eliminationResult], [standardResult],
    [eraseResult], [eliminationRemovePlayer]) and the methods of the three
    subclasses [Swiss], [RoundRobin] and [Elimination].

    Modelling conventions.
    - A JavaScript number is a [Z].  The controller only adds, subtracts,
      multiplies and compares numbers, which is exact on integers of the safe
      range; points are therefore counted in integer units.  The development
      thus covers tournaments whose [pointsForWin] and [pointsForDraw], like
      the reported wins and draws, are integers.  With fractional points the
      doubles of the source round: a subtraction need not undo an addition
      and a running total need not equal the sum of its entries (see
      [fractional_points_round_trip]).  The properties that rest on such
      identities are stated for integer points only.
    - [null] is [None]; a slot or a routing edge is an [option string].
    - Objects are mutated in place and shared by reference.  A reference to a
      player or to a match is the index of the object in [players] or
      [matches]; [undefined] is [None].  Every field access reads the current
      state through the reference, so aliasing behaves as in the source.
    - A call either returns or throws; in both cases the tournament keeps
      the mutations performed so far.  Reading or writing a property of
      [undefined] throws [TypeError].
    - [Pairings.ts], [Tiebreakers.ts], [Player.ts] and [Match.ts] are not
      among the sources: the pairing and sorting functions are parameters,
      and the records carry the fields that [Tournament.ts] reads or writes.
      The fields [id], [name] and [startTime] of a tournament and the
      [tiebreakers] of a player are left out: no method modelled here reads
      them, and only [Tiebreakers.compute] writes [tiebreakers]. *)

From Stdlib Require SpecFloat.
From stdpp Require Import base decidable option numbers list strings pretty.

Open Scope Z_scope.

(** ** Data model *)

Module Outcome.
Inductive t := win | loss | draw | bye.
#[global] Instance eq_dec : EqDecision t.
Proof. solve_decision. Defined.
End Outcome.

(** One entry of [player.results]. *)
Module Result.
Record t := mk {
  matchId : string;            (* field [match] of the source *)
  round : Z;
  opponent : option string;
  outcome : Outcome.t;
  matchPoints : Z;
  gamePoints : Z;
  games : Z
}.
#[global] Instance eq_dec : EqDecision t.
Proof. solve_decision. Defined.
End Result.

Module Player.
Record t := mk {
  id : string;
  alias : string;
  seed : Z;
  initialByes : Z;
  matchCount : Z;
  matchPoints : Z;
  gameCount : Z;
  gamePoints : Z;
  active : bool;
  pairingBye : bool;
  results : list Result.t
}.
#[global] Instance eq_dec : EqDecision t.
Proof. solve_decision. Defined.

Definition set_active (b : bool) (p : t) : t :=
  mk (id p) (alias p) (seed p) (initialByes p) (matchCount p) (matchPoints p)
     (gameCount p) (gamePoints p) b (pairingBye p) (results p).
Definition set_pairingBye (b : bool) (p : t) : t :=
  mk (id p) (alias p) (seed p) (initialByes p) (matchCount p) (matchPoints p)
     (gameCount p) (gamePoints p) (active p) b (results p).
Definition set_matchCount (n : Z) (p : t) : t :=
  mk (id p) (alias p) (seed p) (initialByes p) n (matchPoints p)
     (gameCount p) (gamePoints p) (active p) (pairingBye p) (results p).
Definition set_matchPoints (n : Z) (p : t) : t :=
  mk (id p) (alias p) (seed p) (initialByes p) (matchCount p) n
     (gameCount p) (gamePoints p) (active p) (pairingBye p) (results p).
Definition set_gameCount (n : Z) (p : t) : t :=
  mk (id p) (alias p) (seed p) (initialByes p) (matchCount p) (matchPoints p)
     n (gamePoints p) (active p) (pairingBye p) (results p).
Definition set_gamePoints (n : Z) (p : t) : t :=
  mk (id p) (alias p) (seed p) (initialByes p) (matchCount p) (matchPoints p)
     (gameCount p) n (active p) (pairingBye p) (results p).
Definition set_results (l : list Result.t) (p : t) : t :=
  mk (id p) (alias p) (seed p) (initialByes p) (matchCount p) (matchPoints p)
     (gameCount p) (gamePoints p) (active p) (pairingBye p) l.
End Player.

(** [match.result]. *)
Module Score.
Record t := mk { playerOneWins : Z; playerTwoWins : Z; draws : Z }.
#[global] Instance eq_dec : EqDecision t.
Proof. solve_decision. Defined.
Definition zero : t := mk 0 0 0.
Definition set_playerOneWins (n : Z) (s : t) : t := mk n (playerTwoWins s) (draws s).
Definition set_playerTwoWins (n : Z) (s : t) : t := mk (playerOneWins s) n (draws s).
Definition set_draws (n : Z) (s : t) : t := mk (playerOneWins s) (playerTwoWins s) n.
End Score.

Module Match.
Record t := mk {
  id : string;
  round : Z;
  matchNumber : Z;             (* field [match] of the source *)
  playerOne : option string;
  playerTwo : option string;
  active : bool;
  result : Score.t;
  winnersPath : option string;
  losersPath : option string
}.
#[global] Instance eq_dec : EqDecision t.
Proof. solve_decision. Defined.

Definition set_playerOne (s : option string) (m : t) : t :=
  mk (id m) (round m) (matchNumber m) s (playerTwo m) (active m) (result m)
     (winnersPath m) (losersPath m).
Definition set_playerTwo (s : option string) (m : t) : t :=
  mk (id m) (round m) (matchNumber m) (playerOne m) s (active m) (result m)
     (winnersPath m) (losersPath m).
Definition set_active (b : bool) (m : t) : t :=
  mk (id m) (round m) (matchNumber m) (playerOne m) (playerTwo m) b (result m)
     (winnersPath m) (losersPath m).
Definition set_result (r : Score.t) (m : t) : t :=
  mk (id m) (round m) (matchNumber m) (playerOne m) (playerTwo m) (active m) r
     (winnersPath m) (losersPath m).
Definition set_winnersPath (s : option string) (m : t) : t :=
  mk (id m) (round m) (matchNumber m) (playerOne m) (playerTwo m) (active m)
     (result m) s (losersPath m).
Definition set_losersPath (s : option string) (m : t) : t :=
  mk (id m) (round m) (matchNumber m) (playerOne m) (playerTwo m) (active m)
     (result m) (winnersPath m) s.
End Match.

Module Format.
Inductive t := single_elimination | double_elimination | swiss | round_robin
             | double_round_robin.
#[global] Instance eq_dec : EqDecision t.
Proof. solve_decision. Defined.
End Format.

Module Sorting.
Inductive t := none | ascending | descending.
#[global] Instance eq_dec : EqDecision t.
Proof. solve_decision. Defined.
End Sorting.

Module Playoffs.
Inductive t := none | single_elimination | double_elimination.
#[global] Instance eq_dec : EqDecision t.
Proof. solve_decision. Defined.
End Playoffs.

Module CutType.
Inductive t := none | rank | points.
#[global] Instance eq_dec : EqDecision t.
Proof. solve_decision. Defined.
End CutType.

Module Status.
Inductive t := registration | active | playoffs | aborted | finished.
#[global] Instance eq_dec : EqDecision t.
Proof. solve_decision. Defined.

(** The string a status is at run time. *)
Definition repr (s : t) : string :=
  match s with
  | registration => "registration"
  | active => "active"
  | playoffs => "playoffs"
  | aborted => "aborted"
  | finished => "finished"
  end.
End Status.

(** The fields of [Tournament] and of its subclasses in one record; [bestOf],
    [rounds], [playoffs], [cut] and [double] are the subclass fields. *)
Module Tournament.
Record t := mk {
  format : Format.t;
  sorting : Sorting.t;
  consolation : bool;
  playerLimit : Z;
  pointsForWin : Z;
  pointsForDraw : Z;
  currentRound : Z;
  players : list Player.t;
  matches : list Match.t;
  status : Status.t;
  rounds : Z;
  playoffs : Playoffs.t;
  bestOf : Z;
  cutType : CutType.t;
  cutLimit : Z;
  double : bool
}.
#[global] Instance eq_dec : EqDecision t.
Proof. solve_decision. Defined.

Definition set_players (l : list Player.t) (x : t) : t :=
  mk (format x) (sorting x) (consolation x) (playerLimit x) (pointsForWin x)
     (pointsForDraw x) (currentRound x) l (matches x) (status x) (rounds x)
     (playoffs x) (bestOf x) (cutType x) (cutLimit x) (double x).
Definition set_matches (l : list Match.t) (x : t) : t :=
  mk (format x) (sorting x) (consolation x) (playerLimit x) (pointsForWin x)
     (pointsForDraw x) (currentRound x) (players x) l (status x) (rounds x)
     (playoffs x) (bestOf x) (cutType x) (cutLimit x) (double x).
Definition set_status (s : Status.t) (x : t) : t :=
  mk (format x) (sorting x) (consolation x) (playerLimit x) (pointsForWin x)
     (pointsForDraw x) (currentRound x) (players x) (matches x) s (rounds x)
     (playoffs x) (bestOf x) (cutType x) (cutLimit x) (double x).
Definition set_currentRound (n : Z) (x : t) : t :=
  mk (format x) (sorting x) (consolation x) (playerLimit x) (pointsForWin x)
     (pointsForDraw x) n (players x) (matches x) (status x) (rounds x)
     (playoffs x) (bestOf x) (cutType x) (cutLimit x) (double x).
Definition set_rounds (n : Z) (x : t) : t :=
  mk (format x) (sorting x) (consolation x) (playerLimit x) (pointsForWin x)
     (pointsForDraw x) (currentRound x) (players x) (matches x) (status x) n
     (playoffs x) (bestOf x) (cutType x) (cutLimit x) (double x).
End Tournament.

(** ** Thrown values *)

(** The source throws message strings; a thrown value is kept here as the
    throw site together with the values interpolated into the message.
    [TooFewPlayers kind stated enrolled] is the text
    "<kind> tournaments require at least <stated> players, and there are
    currently <enrolled> players enrolled". *)
Inductive Thrown :=
| PlayerMaximumReached (limit : Z)
| StatusForbidsAdding (status : string)
| DuplicatePlayer (id : string)
| NoLateAdding (format : Format.t)
| EliminationNeedsWinner
| NoMatchFound (id : string)
| EraseOnlyReported
| EraseByeOrAssignedLoss
| TooFewPlayers (kind : string) (stated : Z) (enrolled : Z)
| ActiveMatchesRemaining (count : Z)
| NotActive (status : Status.t)
| CantFindMatch (id : string)
| EraseStillActive
| CantFindPlayer (id : string)
| AlreadyRemoved (alias : string)
| TournamentOver (status : Status.t)
| TypeError.

#[global] Instance Thrown_eq_dec : EqDecision Thrown.
Proof. solve_decision. Defined.

(** ** Computations that mutate the tournament and may throw *)

Module Eff.
Inductive completion (A : Type) := Return (a : A) | Throw (e : Thrown).
Arguments Return {A} a.
Arguments Throw {A} e.

Definition t (A : Type) : Type := Tournament.t → completion A * Tournament.t.

Definition ret {A} (a : A) : t A := λ s, (Return a, s).
Definition throw {A} (e : Thrown) : t A := λ s, (Throw e, s).
Definition bind {A B} (c : t A) (k : A → t B) : t B :=
  λ s, match c s with
       | (Return a, s') => k a s'
       | (Throw e, s') => (Throw e, s')
       end.
Definition get : t Tournament.t := λ s, (Return s, s).
Definition modify (f : Tournament.t → Tournament.t) : t unit := λ s, (Return tt, f s).

(** [when c body] is [if (c) { body }]. *)
Definition when (c : bool) (body : t unit) : t unit := if c then body else ret tt.

(** [forEach l body] runs [body] on the elements of [l] in order. *)
Fixpoint forEach {A} (l : list A) (body : A → t unit) : t unit :=
  match l with
  | [] => ret tt
  | x :: l' => bind (body x) (λ _, forEach l' body)
  end.
End Eff.

Notation "'let*' x ':=' c 'in' k" := (Eff.bind c (λ x, k))
  (at level 10, x name, c at level 100, k at level 200).
Notation "c1 ';;' c2" := (Eff.bind c1 (λ _, c2))
  (at level 100, c2 at level 200, right associativity).

(** The state a call leaves behind and whether it returned. *)
Definition state_after {A} (r : Eff.completion A * Tournament.t) : Tournament.t := r.2.
Definition returned {A} (r : Eff.completion A * Tournament.t) : Prop :=
  ∃ a, r.1 = Eff.Return a.
Definition threw {A} (r : Eff.completion A * Tournament.t) : Prop :=
  ∃ e, r.1 = Eff.Throw e.

(** ** References and JavaScript array helpers *)

(** A reference to an element of [players] or [matches]; [None] is
    [undefined]. *)
Definition ref := option nat.

(** [arr.findIndex(P)], with [None] for [-1]; [arr.find(P)] is the reference
    to the same element. *)
Definition findIndex {A} (P : A → Prop) `{∀ x, Decision (P x)} (l : list A) : ref :=
  fst <$> list_find P l.

(** The references to the elements kept by [arr.filter(P)], in order. *)
Fixpoint filterRefs {A} (P : A → Prop) `{∀ x, Decision (P x)} (l : list A) (i : nat)
  : list nat :=
  match l with
  | [] => []
  | x :: l' => if decide (P x) then i :: filterRefs P l' (S i) else filterRefs P l' (S i)
  end.

(** [arr.splice(index, 1)] where [index] comes from [findIndex]: a start of
    [-1] counts from the end and removes the last element. *)
Definition splice1 {A} (index : ref) (l : list A) : list A :=
  match index with
  | Some i => delete i l
  | None => removelast l
  end.

(** [arr.slice(start)] for an integer [start]. *)
Definition sliceFrom {A} (start : Z) (l : list A) : list A :=
  if decide (start < 0)
  then drop (Z.to_nat (Z.max (Z.of_nat (length l) + start) 0)) l
  else drop (Z.to_nat start) l.

(** [Math.ceil(bestOf / 2)]. *)
Definition ceilHalf (bestOf : Z) : Z := (bestOf + 1) `div` 2.

(** [matches.reduce((max, m) => Math.max(max, m.round), 0)]. *)
Definition lastRound (ms : list Match.t) : Z :=
  foldl (λ currentMax currentMatch, Z.max currentMax (Match.round currentMatch)) 0 ms.

Definition findPlayer (slot : option string) : Eff.t ref :=
  λ s, (Eff.Return (findIndex (λ p, Some (Player.id p) = slot) (Tournament.players s)), s).

Definition findMatch (id : option string) : Eff.t ref :=
  λ s, (Eff.Return (findIndex (λ m, Some (Match.id m) = id) (Tournament.matches s)), s).

(** Reading through a reference; [undefined.field] throws. *)
Definition playerAt (r : ref) : Eff.t Player.t :=
  λ s, match r ≫= (λ i, Tournament.players s !! i) with
       | Some p => (Eff.Return p, s)
       | None => (Eff.Throw TypeError, s)
       end.

Definition matchAt (r : ref) : Eff.t Match.t :=
  λ s, match r ≫= (λ i, Tournament.matches s !! i) with
       | Some m => (Eff.Return m, s)
       | None => (Eff.Throw TypeError, s)
       end.

(** Writing through a reference; [undefined.field = v] throws. *)
Definition setPlayer (r : ref) (f : Player.t → Player.t) : Eff.t unit :=
  λ s, match r with
       | Some i => (Eff.Return tt,
                    Tournament.set_players (alter f i (Tournament.players s)) s)
       | None => (Eff.Throw TypeError, s)
       end.

Definition setMatch (r : ref) (f : Match.t → Match.t) : Eff.t unit :=
  λ s, match r with
       | Some i => (Eff.Return tt,
                    Tournament.set_matches (alter f i (Tournament.matches s)) s)
       | None => (Eff.Throw TypeError, s)
       end.

(** [player.results.push(e)] followed by the four scoreboard updates that
    read the entry just pushed:
    [matchCount++; matchPoints += e.matchPoints; gameCount += e.games;
     gamePoints += e.gamePoints]. *)
Definition credit (e : Result.t) (p : Player.t) : Player.t :=
  Player.set_gamePoints (Player.gamePoints p + Result.gamePoints e)
    (Player.set_gameCount (Player.gameCount p + Result.games e)
      (Player.set_matchPoints (Player.matchPoints p + Result.matchPoints e)
        (Player.set_matchCount (Player.matchCount p + 1)
          (Player.set_results (Player.results p ++ [e]) p)))).

Definition recordResult (r : ref) (e : Result.t) : Eff.t unit := setPlayer r (credit e).

(** ** class Tournament: static helpers *)

(** Modelled from the spec: the constructor of [Player] ([Player.ts] is not
    among the sources).  Section 3 of the specification gives a player its
    identity, a running scoreboard, the [active] and [pairingBye] flags and
    the [results] history; a new player starts with an empty history, a zero
    scoreboard, eligible for pairing and without a pairing bye. *)
Definition Player_new (alias id : string) (seed initialByes : Z) : Player.t :=
  Player.mk id alias seed initialByes 0 0 0 0 true false [].

(** [Tournament.newPlayer(tournament, options)].  Every caller passes an
    object literal with an [id] key, so [options.hasOwnProperty('id')] is
    true.  The loop [while (players.some(p => p.id === options.id))] that
    draws a fresh random id is reached only when the third guard did not
    throw, that is when no enrolled player has this id: its body never
    runs. *)
Definition newPlayer (alias id : string) (seed initialByes : Z) : Eff.t ref :=
  let* tournament := Eff.get in
  if decide (Tournament.playerLimit tournament > 0 ∧
             Z.of_nat (length (Tournament.players tournament))
               = Tournament.playerLimit tournament)
  then Eff.throw (PlayerMaximumReached (Tournament.playerLimit tournament))
  else if existsb (λ str, String.eqb str (Status.repr (Tournament.status tournament)))
            ["Playoffs"; "Aborted"; "Finished"]
  then Eff.throw (StatusForbidsAdding (Status.repr (Tournament.status tournament)))
  else if decide (Exists (λ player, Player.id player = id) (Tournament.players tournament))
  then Eff.throw (DuplicatePlayer id)
  else if decide (Tournament.status tournament ≠ Status.registration ∧
                  Tournament.format tournament ≠ Format.swiss)
  then Eff.throw (NoLateAdding (Tournament.format tournament))
  else
    Eff.modify (λ t, Tournament.set_players
                       (Tournament.players t ++ [Player_new alias id seed initialByes]) t);;
    Eff.ret (Some (length (Tournament.players tournament))).

(** [Tournament.eraseResult(tournament, match)]. *)
Definition eraseOne (player : ref) (matchId : string) : Eff.t unit :=
  let* p := playerAt player in
  let playerResult := list_find (λ result, Result.matchId result = matchId) (Player.results p) in
  setPlayer player (λ p, Player.set_matchCount (Player.matchCount p - 1) p);;
  match playerResult with
  | None => Eff.throw TypeError
  | Some (_, e) =>
    setPlayer player (λ p, Player.set_matchPoints (Player.matchPoints p - Result.matchPoints e) p);;
    setPlayer player (λ p, Player.set_gamePoints (Player.gamePoints p - Result.gamePoints e) p);;
    setPlayer player (λ p, Player.set_gameCount (Player.gameCount p - Result.games e) p);;
    setPlayer player (λ p, Player.set_results
      (splice1 (findIndex (λ res, Result.matchId res = Result.matchId e) (Player.results p))
               (Player.results p)) p)
  end.

Definition eraseResult (match_ : ref) : Eff.t unit :=
  let* m := matchAt match_ in
  if Match.active m then Eff.throw EraseOnlyReported
  else if decide (Match.playerOne m = None ∨ Match.playerTwo m = None)
  then Eff.throw EraseByeOrAssignedLoss
  else
    setMatch match_ (Match.set_active true);;
    setMatch match_ (Match.set_result Score.zero);;
    let* m := matchAt match_ in
    let* playerOne := findPlayer (Match.playerOne m) in
    let* m := matchAt match_ in
    let* playerTwo := findPlayer (Match.playerTwo m) in
    let* m := matchAt match_ in
    eraseOne playerOne (Match.id m);;
    let* m := matchAt match_ in
    eraseOne playerTwo (Match.id m).

(** Taking a former participant out of the match that [path] names: the slot
    holding the participant is cleared, and the match deactivated when the
    slot was [playerTwo]. *)
Definition pullFrom (next : ref) (former : ref) : Eff.t unit :=
  let* n := matchAt next in
  let* f := playerAt former in
  if decide (Match.playerOne n = Some (Player.id f))
  then setMatch next (Match.set_playerOne None)
  else
    let* n := matchAt next in
    if decide (Match.playerTwo n = Some (Player.id f))
    then setMatch next (Match.set_playerTwo None);;
         setMatch next (Match.set_active false)
    else Eff.ret tt.

(** The block "Reset match and pull players back", written out three times
    in the source: in [eliminationResult] and in the [eraseResult] methods of
    [Swiss] and [RoundRobin].  It returns the variables [winnersMatch] and
    [losersMatch]. *)
Definition pullBack (match_ playerOne playerTwo : ref) : Eff.t (ref * ref) :=
  let* m := matchAt match_ in
  let '(formerWinner, formerLoser) :=
    if decide (Score.playerOneWins (Match.result m) > Score.playerTwoWins (Match.result m))
    then (playerOne, playerTwo) else (playerTwo, playerOne) in
  setPlayer formerWinner (Player.set_active true);;
  setPlayer formerLoser (Player.set_active true);;
  let* m := matchAt match_ in
  let* winnersMatch := findMatch (Match.winnersPath m) in
  pullFrom winnersMatch formerWinner;;
  let* m := matchAt match_ in
  match Match.losersPath m with
  | Some _ =>
    let* losersMatch := findMatch (Match.losersPath m) in
    pullFrom losersMatch formerLoser;;
    Eff.ret (winnersMatch, losersMatch)
  | None =>
    setPlayer formerLoser (Player.set_active true);;
    Eff.ret (winnersMatch, None)
  end.

(** Moving a participant into the match [next]: [playerOne] if it is empty,
    else [playerTwo] if it is empty, which also activates the match. *)
Definition advanceTo (next : ref) (who : ref) : Eff.t unit :=
  let* n := matchAt next in
  if decide (Match.playerOne n = None)
  then let* w := playerAt who in
       setMatch next (Match.set_playerOne (Some (Player.id w)))
  else
    let* n := matchAt next in
    if decide (Match.playerTwo n = None)
    then let* w := playerAt who in
         setMatch next (Match.set_playerTwo (Some (Player.id w)));;
         setMatch next (Match.set_active true)
    else Eff.ret tt.

(** The block "Move players to next matches (or end event)" that ends
    [eliminationResult]; [winnersMatch] and [losersMatch] are the variables
    that the pull-back may have set. *)
Definition movePlayers (match_ winnersMatch losersMatch winner loser : ref) : Eff.t unit :=
  let* m := matchAt match_ in
  match Match.winnersPath m with
  | None => Eff.modify (Tournament.set_status Status.finished)
  | Some _ =>
    let* winnersMatch :=
      (match winnersMatch with
       | None => findMatch (Match.winnersPath m)
       | Some _ => Eff.ret winnersMatch
       end) in
    advanceTo winnersMatch winner;;
    let* m := matchAt match_ in
    match Match.losersPath m with
    | None => setPlayer loser (Player.set_active false)
    | Some _ =>
      let* losersMatch :=
        (match losersMatch with
         | None => findMatch (Match.losersPath m)
         | Some _ => Eff.ret losersMatch
         end) in
      advanceTo losersMatch loser
    end
  end.

(** [Tournament.eliminationResult(tournament, {match, result: [w1, w2]})]. *)
Definition eliminationResult (matchId : string) (w1 w2 : Z) : Eff.t unit :=
  if decide (w1 = w2) then Eff.throw EliminationNeedsWinner
  else
    let* match_ := findMatch (Some matchId) in
    match match_ with
    | None => Eff.throw (NoMatchFound matchId)
    | Some _ =>
      let* m := matchAt match_ in
      let* playerOne := findPlayer (Match.playerOne m) in
      let* m := matchAt match_ in
      let* playerTwo := findPlayer (Match.playerTwo m) in
      let* m := matchAt match_ in
      let* paths :=
        (if Match.active m then Eff.ret (None, None)
         else let* paths := pullBack match_ playerOne playerTwo in
              eraseResult match_;;
              Eff.ret paths) in
      (* Set result *)
      setMatch match_ (λ m, Match.set_result (Score.set_playerOneWins w1 (Match.result m)) m);;
      let* m := matchAt match_ in
      let* tournament := Eff.get in
      recordResult playerOne
        (Result.mk (Match.id m) (Match.round m) (Match.playerTwo m)
           (if decide (w1 > w2) then Outcome.win else Outcome.loss)
           (if decide (w1 > w2) then Tournament.pointsForWin tournament else 0)
           (w1 * Tournament.pointsForWin tournament)
           (0 + w1 + w2));;
      setMatch match_ (λ m, Match.set_result (Score.set_playerTwoWins w2 (Match.result m)) m);;
      let* m := matchAt match_ in
      let* tournament := Eff.get in
      recordResult playerTwo
        (Result.mk (Match.id m) (Match.round m) (Match.playerOne m)
           (if decide (w2 > w1) then Outcome.win else Outcome.loss)
           (if decide (w2 > w1) then Tournament.pointsForWin tournament else 0)
           (w2 * Tournament.pointsForWin tournament)
           (0 + w1 + w2));;
      setMatch match_ (Match.set_active false);;
      (* Move players to next matches (or end event) *)
      if decide (w1 > w2)
      then movePlayers match_ paths.1 paths.2 playerOne playerTwo
      else movePlayers match_ paths.1 paths.2 playerTwo playerOne
    end.

(** [Tournament.standardResult(tournament, {match, result: [w1, w2, draws]})]. *)
Definition standardResult (matchId : string) (w1 w2 draws : Z) : Eff.t unit :=
  let* match_ := findMatch (Some matchId) in
  match match_ with
  | None => Eff.throw (NoMatchFound matchId)
  | Some _ =>
    let* m := matchAt match_ in
    Eff.when (negb (Match.active m)) (eraseResult match_);;
    let* m := matchAt match_ in
    let* playerOne := findPlayer (Match.playerOne m) in
    let* m := matchAt match_ in
    let* playerTwo := findPlayer (Match.playerTwo m) in
    setPlayer playerOne (Player.set_active true);;
    setPlayer playerTwo (Player.set_active true);;
    (* Set result *)
    setMatch match_ (λ m, Match.set_result (Score.set_playerOneWins w1 (Match.result m)) m);;
    let* m := matchAt match_ in
    let* tournament := Eff.get in
    recordResult playerOne
      (Result.mk (Match.id m) (Match.round m) (Match.playerTwo m)
         (if decide (w1 > w2) then Outcome.win
          else if decide (w2 > w1) then Outcome.loss else Outcome.draw)
         (if decide (w1 > w2) then Tournament.pointsForWin tournament
          else if decide (w2 > w1) then 0 else Tournament.pointsForDraw tournament)
         (w1 * Tournament.pointsForWin tournament + draws * Tournament.pointsForDraw tournament)
         (0 + w1 + w2 + draws));;
    setMatch match_ (λ m, Match.set_result (Score.set_playerTwoWins w2 (Match.result m)) m);;
    let* m := matchAt match_ in
    let* tournament := Eff.get in
    recordResult playerTwo
      (Result.mk (Match.id m) (Match.round m) (Match.playerOne m)
         (if decide (w2 > w1) then Outcome.win
          else if decide (w1 > w2) then Outcome.loss else Outcome.draw)
         (if decide (w2 > w1) then Tournament.pointsForWin tournament
          else if decide (w1 > w2) then 0 else Tournament.pointsForDraw tournament)
         (w2 * Tournament.pointsForWin tournament + draws * Tournament.pointsForDraw tournament)
         (0 + w1 + w2 + draws));;
    setMatch match_ (λ m, Match.set_result (Score.set_draws draws (Match.result m)) m);;
    setMatch match_ (Match.set_active false)
  end.

(** [m.round === currentRound && (m.playerOne === id || m.playerTwo === id)]. *)
Definition playsInRound (round : Z) (id : string) (m : Match.t) : Prop :=
  Match.round m = round ∧ (Match.playerOne m = Some id ∨ Match.playerTwo m = Some id).

#[global] Instance playsInRound_dec round id m : Decision (playsInRound round id m).
Proof. unfold playsInRound. apply _. Defined.

(** [Tournament.eliminationRemovePlayer(tournament, player)]. *)
Definition eliminationRemovePlayer (player : ref) : Eff.t unit :=
  let* p := playerAt player in
  let* tournament := Eff.get in
  let match_ := findIndex (playsInRound (Tournament.currentRound tournament) (Player.id p))
                          (Tournament.matches tournament) in
  match match_ with
  | None => Eff.ret tt
  | Some _ =>
    let* m := matchAt match_ in
    Eff.when (Match.active m)
      (let* tournament := Eff.get in
       let half := ceilHalf (Tournament.bestOf tournament) in
       if decide (Match.playerOne m = Some (Player.id p))
       then eliminationResult (Match.id m) 0 half
       else eliminationResult (Match.id m) half 0);;
    (* fix routing in loser's bracket *)
    let* m := matchAt match_ in
    match Match.losersPath m with
    | None => Eff.ret tt
    | Some _ =>
      let* nextMatch := findMatch (Match.losersPath m) in
      let* n := matchAt nextMatch in
      if decide (Match.playerTwo n = None) then
        setMatch nextMatch (Match.set_playerOne None);;
        let* n := matchAt nextMatch in
        let moveToMatchID := Match.winnersPath n in
        let* tournament := Eff.get in
        let moveFromMatch :=
          findIndex (λ m, (Match.winnersPath m = Some (Match.id n) ∨
                           Match.losersPath m = Some (Match.id n)) ∧
                          Match.playerOne m ≠ Some (Player.id p) ∧
                          Match.playerTwo m ≠ Some (Player.id p))
                    (Tournament.matches tournament) in
        let* f := matchAt moveFromMatch in
        if decide (Match.winnersPath f = Some (Match.id n))
        then setMatch moveFromMatch (Match.set_winnersPath moveToMatchID)
        else setMatch moveFromMatch (Match.set_losersPath moveToMatchID)
      else
        setMatch nextMatch (Match.set_active false);;
        let* n := matchAt nextMatch in
        let* winnersMatch := findMatch (Match.winnersPath n) in
        let* w := matchAt winnersMatch in
        if decide (Match.playerOne w = None) then
          let* n := matchAt nextMatch in
          if decide (Match.playerOne n ≠ Some (Player.id p))
          then setMatch winnersMatch (Match.set_playerOne (Match.playerOne n))
          else setMatch winnersMatch (Match.set_playerOne (Match.playerTwo n))
        else
          let* w := matchAt winnersMatch in
          if decide (Match.playerTwo w = None) then
            let* n := matchAt nextMatch in
            (if decide (Match.playerOne n ≠ Some (Player.id p))
             then setMatch winnersMatch (Match.set_playerTwo (Match.playerOne n))
             else setMatch winnersMatch (Match.set_playerTwo (Match.playerTwo n)));;
            setMatch winnersMatch (Match.set_active true)
          else Eff.ret tt
    end
  end.

(** ** The subclasses *)

Module MissingResults.
Inductive t := byes | losses.
End MissingResults.

(** The entry a bye contributes to [player.results]. *)
Definition byeEntry (tournament : Tournament.t) (matchId : string) (round : Z) : Result.t :=
  Result.mk matchId round None Outcome.bye
    (Tournament.pointsForWin tournament)
    (ceilHalf (Tournament.bestOf tournament) * Tournament.pointsForWin tournament)
    (ceilHalf (Tournament.bestOf tournament)).

(** The body of [byes.forEach(bye => ...)] in [Swiss.startEvent] and
    [Swiss.nextRound]. *)
Definition swissBye (bye : nat) : Eff.t unit :=
  let* b := matchAt (Some bye) in
  let* player := findPlayer (Match.playerOne b) in
  let* tournament := Eff.get in
  recordResult player (byeEntry tournament (Match.id b) (Match.round b));;
  setPlayer player (Player.set_pairingBye true);;
  let* tournament := Eff.get in
  setMatch (Some bye) (λ m, Match.set_result
    (Score.set_playerOneWins (ceilHalf (Tournament.bestOf tournament)) (Match.result m)) m).

Definition isSwissBye (currentRound : Z) (m : Match.t) : Prop :=
  Match.round m = currentRound ∧ Match.playerTwo m = None.

#[global] Instance isSwissBye_dec r m : Decision (isSwissBye r m).
Proof. unfold isSwissBye. apply _. Defined.

Definition swissByes : Eff.t unit :=
  let* tournament := Eff.get in
  let byes := filterRefs (isSwissBye (Tournament.currentRound tournament))
                         (Tournament.matches tournament) 0 in
  Eff.forEach byes swissBye.

(** The body of the bye loop of [RoundRobin.startEvent] and
    [RoundRobin.nextRound]. *)
Definition roundRobinBye (bye : nat) : Eff.t unit :=
  let* b := matchAt (Some bye) in
  let id := if decide (Match.playerTwo b = None) then Match.playerOne b else Match.playerTwo b in
  let* player := findPlayer id in
  let* tournament := Eff.get in
  recordResult player (byeEntry tournament (Match.id b) (Match.round b));;
  setPlayer player (Player.set_pairingBye true);;
  let* tournament := Eff.get in
  let* b := matchAt (Some bye) in
  if decide (Match.playerTwo b = None)
  then setMatch (Some bye) (λ m, Match.set_result
         (Score.set_playerOneWins (ceilHalf (Tournament.bestOf tournament)) (Match.result m)) m)
  else setMatch (Some bye) (λ m, Match.set_result
         (Score.set_playerTwoWins (ceilHalf (Tournament.bestOf tournament)) (Match.result m)) m).

Definition isRoundRobinBye (currentRound : Z) (m : Match.t) : Prop :=
  Match.round m = currentRound ∧ (Match.playerOne m = None ∨ Match.playerTwo m = None).

#[global] Instance isRoundRobinBye_dec r m : Decision (isRoundRobinBye r m).
Proof. unfold isRoundRobinBye. apply _. Defined.

(** [matches.reduce((sum, match) => match.active === true ? sum + 1 : sum, 0)]. *)
Definition activeCount (ms : list Match.t) : Z :=
  foldl (λ sum m, if Match.active m then sum + 1 else sum) 0 ms.

Section Subclasses.

(** The modules [Pairings.ts] and [Tiebreakers.ts] are not among the
    sources.  A pairing function receives the tournament and leaves it with
    the new matches; [Tiebreakers_sort] receives the references of the
    players to sort and returns them in standings order. *)
Variable Pairings_swiss : Tournament.t → Tournament.t.
Variable Pairings_roundRobin : Tournament.t → Tournament.t.
Variable Pairings_singleElimination : Tournament.t → Tournament.t.
Variable Pairings_doubleElimination : Tournament.t → Tournament.t.
Variable Tiebreakers_sort : Tournament.t → list nat → list nat.

(** The block "Check if it's time to start playoffs" of both [nextRound]
    methods, after [status = 'playoffs']: the cut, the round increment and
    the bracket. *)
Definition startPlayoffs : Eff.t unit :=
  Eff.modify (Tournament.set_status Status.playoffs);;
  let* tournament := Eff.get in
  (if decide (Tournament.cutType tournament = CutType.points) then
     Eff.when (bool_decide (Tournament.cutLimit tournament ≠ 0))
       (let cutPlayers :=
          filterRefs (λ player, Player.matchPoints player < Tournament.cutLimit tournament)
                     (Tournament.players tournament) 0 in
        Eff.forEach cutPlayers (λ player, setPlayer (Some player) (Player.set_active false)))
   else if decide (Tournament.cutType tournament = CutType.rank) then
     Eff.when (bool_decide (Tournament.cutLimit tournament ≠ 0))
       (let sortedPlayers :=
          Tiebreakers_sort tournament
            (filterRefs (λ player, Player.active player = true)
                        (Tournament.players tournament) 0) in
        let cutPlayers := sliceFrom (Tournament.cutLimit tournament) sortedPlayers in
        Eff.forEach cutPlayers (λ player, setPlayer (Some player) (Player.set_active false)))
   else Eff.ret tt);;
  Eff.modify (λ t, Tournament.set_currentRound (Tournament.currentRound t + 1) t);;
  let* tournament := Eff.get in
  if decide (Tournament.playoffs tournament = Playoffs.single_elimination)
  then Eff.modify Pairings_singleElimination
  else Eff.modify Pairings_doubleElimination.

(** *** class Swiss *)

Definition Swiss_startEvent : Eff.t unit :=
  let* this := Eff.get in
  if decide (Z.of_nat (length (Tournament.players this)) < 8)
  then Eff.throw (TooFewPlayers "Swiss" 8 (Z.of_nat (length (Tournament.players this))))
  else
    Eff.modify (Tournament.set_status Status.active);;
    let* this := Eff.get in
    Eff.when (bool_decide (Tournament.rounds this = 0))
      (Eff.modify (Tournament.set_rounds
         (Z.log2_up (Z.of_nat (length (Tournament.players this))))));;
    Eff.modify (λ t, Tournament.set_currentRound (Tournament.currentRound t + 1) t);;
    Eff.modify Pairings_swiss;;
    swissByes.

Definition Swiss_nextRound : Eff.t unit :=
  let* this := Eff.get in
  if decide (Exists (λ m, Match.active m = true) (Tournament.matches this))
  then Eff.throw (ActiveMatchesRemaining (activeCount (Tournament.matches this)))
  else if decide (Tournament.status this ≠ Status.active)
  then Eff.throw (NotActive (Tournament.status this))
  else if decide (Tournament.currentRound this = Tournament.rounds this) then
    if decide (Tournament.playoffs this = Playoffs.none)
    then Eff.modify (Tournament.set_status Status.finished)
    else startPlayoffs
  else
    Eff.modify (λ t, Tournament.set_currentRound (Tournament.currentRound t + 1) t);;
    Eff.modify Pairings_swiss;;
    swissByes.

(** [result(res)] of [Swiss] and of [RoundRobin]; [draws] is [res.result[2]],
    absent when [None]. *)
Definition Swiss_result (matchId : string) (w1 w2 : Z) (draws : option Z) : Eff.t unit :=
  let result2 := default 0 draws in
  let* this := Eff.get in
  if decide (Tournament.status this = Status.playoffs)
  then eliminationResult matchId w1 w2
  else standardResult matchId w1 w2 result2.

(** [eraseResult(match)] of [Swiss] and of [RoundRobin]. *)
Definition Swiss_eraseResult (matchId : string) : Eff.t unit :=
  let* matchToErase := findMatch (Some matchId) in
  match matchToErase with
  | None => Eff.throw (CantFindMatch matchId)
  | Some _ =>
    let* m := matchAt matchToErase in
    if Match.active m then Eff.throw EraseStillActive
    else
      let* this := Eff.get in
      Eff.when (bool_decide (Tournament.status this = Status.playoffs))
        (let* m := matchAt matchToErase in
         let* playerOne := findPlayer (Match.playerOne m) in
         let* m := matchAt matchToErase in
         let* playerTwo := findPlayer (Match.playerTwo m) in
         pullBack matchToErase playerOne playerTwo;;
         Eff.ret tt);;
      eraseResult matchToErase
  end.

(** The catch-up entry of round [i + 1] for a late player; [matchID] is the
    random id drawn for the round (the [Match] built with it is dropped). *)
Definition lateEntry (missingResults : MissingResults.t) (player : ref)
    (matchID : string) (i : Z) : Eff.t unit :=
  let* this := Eff.get in
  match missingResults with
  | MissingResults.byes =>
    recordResult player (byeEntry this matchID (i + 1));;
    setPlayer player (Player.set_pairingBye true)
  | MissingResults.losses =>
    recordResult player
      (Result.mk matchID (i + 1) None Outcome.loss 0 0
                 (ceilHalf (Tournament.bestOf this)))
  end.

(** [Swiss.addPlayer(opt)].  [id] is [opt.id] or the random default;
    [matchIDs i] is the id kept for round [i + 1] once the loop
    [while (this.matches.some(match => match.id === matchID))] has drawn one
    that no match carries. *)
Definition Swiss_addPlayer (alias id : string) (seed initialByes : Z)
    (missingResults : MissingResults.t) (matchIDs : Z → string) : Eff.t ref :=
  let* player := newPlayer alias id seed initialByes in
  let* this := Eff.get in
  Eff.when (bool_decide (Tournament.status this = Status.active))
    (Eff.forEach (seqZ 0 (Tournament.currentRound this))
       (λ i, lateEntry missingResults player (matchIDs i) i));;
  Eff.ret player.

(** The guards shared by the three [removePlayer] methods; returns the
    reference [player]. *)
Definition removalGuards (id : string) : Eff.t ref :=
  let* player := findPlayer (Some id) in
  match player with
  | None => Eff.throw (CantFindPlayer id)
  | Some _ =>
    let* p := playerAt player in
    let* this := Eff.get in
    if negb (Player.active p) then Eff.throw (AlreadyRemoved (Player.alias p))
    else if decide (Tournament.status this = Status.finished ∨
                    Tournament.status this = Status.aborted)
    then Eff.throw (TournamentOver (Tournament.status this))
    else Eff.ret player
  end.

(** [this.players.splice(this.players.findIndex(p => p.id === player.id), 1)]. *)
Definition discard (player : ref) : Eff.t unit :=
  let* p := playerAt player in
  Eff.modify (λ t, Tournament.set_players
    (splice1 (findIndex (λ q, Player.id q = Player.id p) (Tournament.players t))
             (Tournament.players t)) t).

(** The forfeit of the player's match of the current round, in the last
    branch of [Swiss.removePlayer] and [RoundRobin.removePlayer]. *)
Definition forfeit (player : ref) : Eff.t unit :=
  let* p := playerAt player in
  let* this := Eff.get in
  let match_ := findIndex (playsInRound (Tournament.currentRound this) (Player.id p))
                          (Tournament.matches this) in
  match match_ with
  | None => Eff.ret tt
  | Some _ =>
    let* m := matchAt match_ in
    Eff.when (Match.active m)
      (let half := ceilHalf (Tournament.bestOf this) in
       if decide (Match.playerOne m = Some (Player.id p))
       then standardResult (Match.id m) 0 half 0
       else standardResult (Match.id m) half 0 0)
  end.

(** [removePlayer] returns the player object, here its value when the call
    returns. *)
Definition Swiss_removePlayer (id : string) : Eff.t Player.t :=
  let* player := removalGuards id in
  let* this := Eff.get in
  if decide (Tournament.status this = Status.registration) then
    let* p := playerAt player in
    discard player;;
    Eff.ret p
  else if decide (Tournament.status this = Status.playoffs) then
    eliminationRemovePlayer player;;
    playerAt player
  else
    forfeit player;;
    setPlayer player (Player.set_active false);;
    playerAt player.

(** *** class RoundRobin *)

Definition roundRobinByes (skipEmpty : bool) : Eff.t unit :=
  let* this := Eff.get in
  let byes := filterRefs (isRoundRobinBye (Tournament.currentRound this))
                         (Tournament.matches this) 0 in
  Eff.forEach byes (λ bye,
    let* b := matchAt (Some bye) in
    if skipEmpty && bool_decide (Match.playerOne b = None ∧ Match.playerTwo b = None)
    then Eff.ret tt
    else roundRobinBye bye).

Definition RoundRobin_startEvent : Eff.t unit :=
  let* this := Eff.get in
  if decide (Z.of_nat (length (Tournament.players this)) < 4)
  then Eff.throw (TooFewPlayers "Round-Robin" 4 (Z.of_nat (length (Tournament.players this))))
  else
    Eff.modify (Tournament.set_status Status.active);;
    Eff.modify (λ t, Tournament.set_currentRound (Tournament.currentRound t + 1) t);;
    Eff.modify Pairings_roundRobin;;
    roundRobinByes false.

Definition RoundRobin_nextRound : Eff.t unit :=
  let* this := Eff.get in
  if decide (Exists (λ m, Match.active m = true) (Tournament.matches this))
  then Eff.throw (ActiveMatchesRemaining (activeCount (Tournament.matches this)))
  else if decide (Tournament.status this ≠ Status.active)
  then Eff.throw (NotActive (Tournament.status this))
  else if decide (Tournament.currentRound this = lastRound (Tournament.matches this)) then
    if decide (Tournament.playoffs this = Playoffs.none)
    then Eff.modify (Tournament.set_status Status.finished)
    else startPlayoffs
  else
    Eff.modify (λ t, Tournament.set_currentRound (Tournament.currentRound t + 1) t);;
    let* this := Eff.get in
    let nextRound :=
      filterRefs (λ m, Match.round m = Tournament.currentRound this ∧
                       Match.playerOne m ≠ None ∧ Match.playerTwo m ≠ None)
                 (Tournament.matches this) 0 in
    Eff.forEach nextRound (λ m, setMatch (Some m) (Match.set_active true));;
    roundRobinByes true.

Definition RoundRobin_result := Swiss_result.
Definition RoundRobin_eraseResult := Swiss_eraseResult.

Definition RoundRobin_addPlayer (alias id : string) (seed : Z) : Eff.t ref :=
  newPlayer alias id seed 0.

(** The loop over the future rounds in [RoundRobin.removePlayer]:
    [for (let i = currentRound + 1; i < lastRound; i++)]. *)
Definition clearFutureSlot (player : ref) (i : Z) : Eff.t unit :=
  let* p := playerAt player in
  let* this := Eff.get in
  let futureMatch := findIndex (playsInRound i (Player.id p)) (Tournament.matches this) in
  let* f := matchAt futureMatch in
  if decide (Match.playerOne f = Some (Player.id p))
  then setMatch futureMatch (Match.set_playerOne None)
  else setMatch futureMatch (Match.set_playerTwo None).

Definition RoundRobin_removePlayer (id : string) : Eff.t Player.t :=
  let* player := removalGuards id in
  let* this := Eff.get in
  if decide (Tournament.status this = Status.registration) then
    let* p := playerAt player in
    discard player;;
    Eff.ret p
  else if decide (Tournament.status this = Status.playoffs) then
    eliminationRemovePlayer player;;
    playerAt player
  else
    forfeit player;;
    let* this := Eff.get in
    Eff.forEach
      (seqZ (Tournament.currentRound this + 1)
            (lastRound (Tournament.matches this) - (Tournament.currentRound this + 1)))
      (clearFutureSlot player);;
    setPlayer player (Player.set_active false);;
    playerAt player.

(** *** class Elimination *)

Definition Elimination_startEvent : Eff.t unit :=
  let* this := Eff.get in
  if decide (Z.of_nat (length (Tournament.players this)) < 4)
  then Eff.throw (TooFewPlayers "Elimination" 8 (Z.of_nat (length (Tournament.players this))))
  else
    Eff.modify (Tournament.set_status Status.active);;
    Eff.modify (λ t, Tournament.set_currentRound (Tournament.currentRound t + 1) t);;
    let* this := Eff.get in
    if Tournament.double this
    then Eff.modify Pairings_doubleElimination
    else Eff.modify Pairings_singleElimination.

Definition Elimination_result (matchId : string) (w1 w2 : Z) : Eff.t unit :=
  eliminationResult matchId w1 w2.

Definition Elimination_addPlayer (alias id : string) (seed : Z) : Eff.t ref :=
  newPlayer alias id seed 0.

Definition Elimination_removePlayer (id : string) : Eff.t Player.t :=
  let* player := removalGuards id in
  let* this := Eff.get in
  if decide (Tournament.status this = Status.registration) then
    let* p := playerAt player in
    discard player;;
    Eff.ret p
  else
    eliminationRemovePlayer player;;
    playerAt player.

End Subclasses.

(** ** Concrete tournaments *)

Module Examples.
Definition enrolled (id : string) : Player.t := Player_new id id 0 0.

(** The entry and the scoreboard of a player after one match of round 1
    decided 1-0, with [pointsForWin = 1]. *)
Definition winner (id matchId opponent : string) (active : bool) : Player.t :=
  Player.mk id id 0 0 1 1 1 1 active false
    [Result.mk matchId 1 (Some opponent) Outcome.win 1 1 1].
Definition loser (id matchId opponent : string) (active : bool) : Player.t :=
  Player.mk id id 0 0 1 0 1 0 active false
    [Result.mk matchId 1 (Some opponent) Outcome.loss 0 0 1].

Definition scheduled (id : string) (round : Z) (one two : option string) (active : bool)
  : Match.t :=
  Match.mk id round 0 one two active Score.zero None None.

(** A double round robin of four players in its first round, with
    [pointsForWin = 2] and [pointsForDraw = 1]: the twelve matches of the
    six rounds are scheduled up front by the circle method, the second half
    with sides swapped; those of rounds 2 to 6 are not yet active. *)
Definition doubleRoundRobin4 : Tournament.t :=
  Tournament.mk Format.double_round_robin Sorting.none false 0 2 1 1
    [enrolled "A"; enrolled "B"; enrolled "C"; enrolled "D"]
    [scheduled "r1m1" 1 (Some "A") (Some "D") true;
     scheduled "r1m2" 1 (Some "B") (Some "C") true;
     scheduled "r2m1" 2 (Some "A") (Some "C") false;
     scheduled "r2m2" 2 (Some "D") (Some "B") false;
     scheduled "r3m1" 3 (Some "A") (Some "B") false;
     scheduled "r3m2" 3 (Some "C") (Some "D") false;
     scheduled "r4m1" 4 (Some "D") (Some "A") false;
     scheduled "r4m2" 4 (Some "C") (Some "B") false;
     scheduled "r5m1" 5 (Some "C") (Some "A") false;
     scheduled "r5m2" 5 (Some "B") (Some "D") false;
     scheduled "r6m1" 6 (Some "B") (Some "A") false;
     scheduled "r6m2" 6 (Some "D") (Some "C") false]
    Status.active 0 Playoffs.none 1 CutType.none 0 true.

(** A Swiss event of nine players with one round and a cut to the top four:
    round 1 had four matches and a bye for "P9"; the playoffs have started,
    the five players below the cut are inactive, and the bracket "s1", "s2",
    "f" is waiting for its first result. *)
Definition swissPlayoffs : Tournament.t :=
  Tournament.mk Format.swiss Sorting.none false 0 1 0 2
    [winner "P1" "m1" "P2" true; loser "P2" "m1" "P1" false;
     winner "P3" "m2" "P4" true; loser "P4" "m2" "P3" false;
     winner "P5" "m3" "P6" true; loser "P6" "m3" "P5" false;
     winner "P7" "m4" "P8" true; loser "P8" "m4" "P7" false;
     Player.mk "P9" "P9" 0 0 1 1 1 1 false true
       [Result.mk "bye" 1 None Outcome.bye 1 1 1]]
    [Match.mk "m1" 1 1 (Some "P1") (Some "P2") false (Score.mk 1 0 0) None None;
     Match.mk "m2" 1 2 (Some "P3") (Some "P4") false (Score.mk 1 0 0) None None;
     Match.mk "m3" 1 3 (Some "P5") (Some "P6") false (Score.mk 1 0 0) None None;
     Match.mk "m4" 1 4 (Some "P7") (Some "P8") false (Score.mk 1 0 0) None None;
     Match.mk "bye" 1 0 (Some "P9") None false (Score.mk 1 0 0) None None;
     Match.mk "s1" 2 1 (Some "P1") (Some "P7") true Score.zero (Some "f") None;
     Match.mk "s2" 2 2 (Some "P3") (Some "P5") true Score.zero (Some "f") None;
     Match.mk "f" 3 1 None None false Score.zero None None]
    Status.playoffs 1 Playoffs.single_elimination 1 CutType.rank 4 false.

(** A single elimination of four players whose semi-finals "s1" and "s2"
    have been played: "A" and "B" meet in the final "f", "C" and "D" are
    out. *)
Definition eliminationFinal : Tournament.t :=
  Tournament.mk Format.single_elimination Sorting.none false 0 1 0 2
    [winner "A" "s1" "D" true; winner "B" "s2" "C" true;
     loser "C" "s2" "B" false; loser "D" "s1" "A" false]
    [Match.mk "s1" 1 1 (Some "A") (Some "D") false (Score.mk 1 0 0) (Some "f") None;
     Match.mk "s2" 1 2 (Some "B") (Some "C") false (Score.mk 1 0 0) (Some "f") None;
     Match.mk "f" 2 1 (Some "A") (Some "B") true Score.zero None None]
    Status.active 0 Playoffs.none 1 CutType.none 0 false.

(** A single elimination still in registration with [n] players. *)
Definition eliminationRegistration (ids : list string) : Tournament.t :=
  Tournament.mk Format.single_elimination Sorting.none false 0 1 0 0
    (enrolled <$> ids) [] Status.registration 0 Playoffs.none 1 CutType.none 0 false.
(** A stand-in for [Pairings.swiss], used to run the model: the active
    players are paired in the order of [players], an odd player out gets the
    bye; the matches "r<round>m<number>" are appended. *)
Fixpoint inOrder (round number : Z) (ids : list string) : list Match.t :=
  match ids with
  | one :: two :: rest =>
    Match.mk ("r" +:+ pretty round +:+ "m" +:+ pretty number) round number
             (Some one) (Some two) true Score.zero None None
    :: inOrder round (number + 1) rest
  | [one] =>
    [Match.mk ("r" +:+ pretty round +:+ "m" +:+ pretty number) round number
              (Some one) None false Score.zero None None]
  | [] => []
  end.

Definition pairInOrder (t : Tournament.t) : Tournament.t :=
  Tournament.set_matches
    (Tournament.matches t
       ++ inOrder (Tournament.currentRound t) 1
            (Player.id <$> filter (λ p, Player.active p = true) (Tournament.players t)))
    t.

(** A Swiss event with nine players enrolled, before it starts. *)
Definition swissRegistration : Tournament.t :=
  Tournament.mk Format.swiss Sorting.none false 0 1 0 0
    (enrolled <$> ["P1"; "P2"; "P3"; "P4"; "P5"; "P6"; "P7"; "P8"; "P9"])
    [] Status.registration 0 Playoffs.none 1 CutType.none 0 false.

(** The same event once its first round, paired by [pairInOrder], has been
    played: the first player of each match won 1-0. *)
Definition swissRoundPlayed : Tournament.t :=
  foldl (λ t matchId, state_after (standardResult matchId 1 0 0 t))
    (state_after (Swiss_startEvent pairInOrder swissRegistration))
    ["r1m1"; "r1m2"; "r1m3"; "r1m4"].
End Examples.
Import Examples.

(** ** Observations on states *)

(** The match object that [matches.find(m => m.id === id)] returns, and the
    player object that a slot names. *)
Definition theMatch (t : Tournament.t) (id : string) : option Match.t :=
  findIndex (λ m, Some (Match.id m) = Some id) (Tournament.matches t)
    ≫= λ i, Tournament.matches t !! i.

Definition thePlayer (t : Tournament.t) (slot : option string) : option Player.t :=
  findIndex (λ p, Some (Player.id p) = slot) (Tournament.players t)
    ≫= λ i, Tournament.players t !! i.

(** The part of a match that results never touch, and the part of a
    tournament outside the scoreboards, the flags and the recorded scores. *)
Definition wiring (m : Match.t) :=
  (Match.id m, Match.round m, Match.playerOne m, Match.playerTwo m,
   Match.winnersPath m, Match.losersPath m).

Definition frameOf (t : Tournament.t) :=
  (Player.id <$> Tournament.players t, wiring <$> Tournament.matches t,
   Tournament.set_players [] (Tournament.set_matches [] t)).

(** ** Weakest preconditions *)

(** [wp c Q s]: from [s] the computation [c] returns, with a value and a
    state that satisfy [Q].  [wlp c Q s]: if [c] returns from [s], its value
    and state satisfy [Q]. *)
Definition wp {A} (c : Eff.t A) (Q : A → Tournament.t → Prop) (s : Tournament.t) : Prop :=
  match c s with
  | (Eff.Return a, s') => Q a s'
  | (Eff.Throw _, _) => False
  end.

Definition wlp {A} (c : Eff.t A) (Q : A → Tournament.t → Prop) (s : Tournament.t) : Prop :=
  match c s with
  | (Eff.Return a, s') => Q a s'
  | (Eff.Throw _, _) => True
  end.

(** [preserves proj c]: whether it returns or throws, [c] leaves [proj]
    of the tournament as it found it. *)
Definition preserves {X} (proj : Tournament.t → X) {A} (c : Eff.t A) : Prop :=
  ∀ s, proj (c s).2 = proj s.

(** ** Predicates of the claims *)

(** An element with property [P] sits at index [j]. *)
Definition holdsAt {A} (P : A → Prop) (j : nat) (l : list A) : Prop :=
  ∃ x, l !! j = Some x ∧ P x.

(** Both participants of the match are active. *)
Definition bothActive (t : Tournament.t) (matchId : string) : Prop :=
  ∃ m one two, theMatch t matchId = Some m ∧
    thePlayer t (Match.playerOne m) = Some one ∧
    thePlayer t (Match.playerTwo m) = Some two ∧
    Player.active one = true ∧ Player.active two = true.


(** The scoreboard of a player agrees with the history: [matchPoints] and
    [gamePoints] are the sums over [results], [matchCount] its length. *)
Definition sumZ (l : list Z) : Z := foldr Z.add 0 l.

Definition scoreboardSound (p : Player.t) : Prop :=
  Player.matchPoints p = sumZ (Result.matchPoints <$> Player.results p) ∧
  Player.gamePoints p = sumZ (Result.gamePoints <$> Player.results p) ∧
  Player.matchCount p = Z.of_nat (length (Player.results p)).

#[global] Instance scoreboardSound_dec p : Decision (scoreboardSound p).
Proof. unfold scoreboardSound. apply _. Defined.

Definition scoreboardsSound (t : Tournament.t) : Prop :=
  Forall scoreboardSound (Tournament.players t).

(** The identity of a match and its two edges. *)
Definition routing (m : Match.t) := (Match.id m, Match.winnersPath m, Match.losersPath m).

(** A match that takes a first elimination result: it is known and active,
    both slots name enrolled players, and the matches that its paths name
    exist.  The loser's path is looked at only when the match has a winner's
    path. *)
Definition routed (t : Tournament.t) (m : Match.t) : Prop :=
  match Match.winnersPath m with
  | None => True
  | Some w =>
    is_Some (findIndex (λ n, Some (Match.id n) = Some w) (Tournament.matches t)) ∧
    match Match.losersPath m with
    | None => True
    | Some l => is_Some (findIndex (λ n, Some (Match.id n) = Some l) (Tournament.matches t))
    end
  end.

Definition reportable (t : Tournament.t) (matchId : string) : Prop :=
  ∃ i m one two,
    findIndex (λ m, Some (Match.id m) = Some matchId) (Tournament.matches t) = Some i ∧
    Tournament.matches t !! i = Some m ∧
    Match.active m = true ∧
    findIndex (λ p, Some (Player.id p) = Match.playerOne m) (Tournament.players t) = Some one ∧
    findIndex (λ p, Some (Player.id p) = Match.playerTwo m) (Tournament.players t) = Some two ∧
    routed t m.

(** What one bye does to its player and to its match. *)
Definition award (t : Tournament.t) (bye : Match.t) (p : Player.t) : Player.t :=
  Player.set_pairingBye true (credit (byeEntry t (Match.id bye) (Match.round bye)) p).

Definition walkover (t : Tournament.t) (m : Match.t) : Match.t :=
  Match.set_result
    (Score.set_playerOneWins (ceilHalf (Tournament.bestOf t)) (Match.result m)) m.

(** The players after the byes [byes] have been awarded in order. *)
Definition awardList (t : Tournament.t) (byes : list Match.t) (ps : list Player.t)
  : list Player.t :=
  foldl (λ ps bye,
           match findIndex (λ p, Some (Player.id p) = Match.playerOne bye) ps with
           | Some j => alter (award t bye) j ps
           | None => ps
           end) ps byes.

(** The byes of the current round of [paired] are materialised in [after]:
    the match of every bye records the walkover; its player, the one
    [playerOne] names, has received one entry for each of the byes of the
    round that name it (a Swiss pairing gives at most one), the scoreboard
    has grown by as many wins, and [pairingBye] is set. *)
Definition materialised (paired after : Tournament.t) : Prop :=
  ∀ i bye,
    Tournament.matches paired !! i = Some bye →
    isSwissBye (Tournament.currentRound paired) bye →
    let half := ceilHalf (Tournament.bestOf paired) in
    let win := Tournament.pointsForWin paired in
    let mine :=
      filter (λ b, Match.playerOne b = Match.playerOne bye)
        (filter (isSwissBye (Tournament.currentRound paired)) (Tournament.matches paired)) in
    let n := Z.of_nat (length mine) in
    Tournament.matches after !! i
    = Some (Match.set_result (Score.set_playerOneWins half (Match.result bye)) bye) ∧
    bye ∈ mine ∧
    ∃ before now,
      thePlayer paired (Match.playerOne bye) = Some before ∧
      thePlayer after (Match.playerOne bye) = Some now ∧
      Player.results now
      = Player.results before
        ++ ((λ b, Result.mk (Match.id b) (Match.round b) None Outcome.bye win (half * win) half)
              <$> mine) ∧
      Player.pairingBye now = true ∧
      Player.matchCount now = Player.matchCount before + n ∧
      Player.matchPoints now = Player.matchPoints before + n * win ∧
      Player.gameCount now = Player.gameCount before + n * half ∧
      Player.gamePoints now = Player.gamePoints before + n * (half * win).

(** The byes of the current round name enrolled players. *)
Definition byesEnrolled (paired : Tournament.t) : Prop :=
  Forall (λ bye, isSwissBye (Tournament.currentRound paired) bye →
                 is_Some (thePlayer paired (Match.playerOne bye)))
    (Tournament.matches paired).

#[global] Instance byesEnrolled_dec paired : Decision (byesEnrolled paired).
Proof. unfold byesEnrolled. apply _. Defined.

(** The tournament as [Swiss.startEvent] and [Swiss.nextRound] have it right
    after [Pairings.swiss], before the byes are processed. *)
Definition Swiss_startPaired (pair : Tournament.t → Tournament.t) (t : Tournament.t)
  : Tournament.t :=
  let started := Tournament.set_status Status.active t in
  let sized :=
    if bool_decide (Tournament.rounds started = 0)
    then Tournament.set_rounds
           (Z.log2_up (Z.of_nat (length (Tournament.players started)))) started
    else started in
  pair (Tournament.set_currentRound (Tournament.currentRound sized + 1) sized).

Definition Swiss_nextPaired (pair : Tournament.t → Tournament.t) (t : Tournament.t)
  : Tournament.t :=
  pair (Tournament.set_currentRound (Tournament.currentRound t + 1) t).

(** What [Tournament.eraseResult] does to a player whose entry [e] sits at
    index [k] of [results]. *)
Definition uncredit (e : Result.t) (k : nat) (p : Player.t) : Player.t :=
  Player.set_results (delete k (Player.results p))
    (Player.set_gameCount (Player.gameCount p - Result.games e)
      (Player.set_gamePoints (Player.gamePoints p - Result.gamePoints e)
        (Player.set_matchPoints (Player.matchPoints p - Result.matchPoints e)
          (Player.set_matchCount (Player.matchCount p - 1) p)))).

(** A match awaiting its first result: known, active, with a zero score, its
    slots naming enrolled players who are active and whose histories have no
    entry for it. *)
Definition awaitingResult (t : Tournament.t) (matchId : string) : Prop :=
  ∃ m one two,
    theMatch t matchId = Some m ∧
    Match.active m = true ∧ Match.result m = Score.zero ∧
    thePlayer t (Match.playerOne m) = Some one ∧
    thePlayer t (Match.playerTwo m) = Some two ∧
    Player.active one = true ∧ Player.active two = true ∧
    Forall (λ r, Result.matchId r ≠ matchId) (Player.results one) ∧
    Forall (λ r, Result.matchId r ≠ matchId) (Player.results two).

(** The entries that [standardResult] pushes for the two players of [m]. *)
Definition entryOne (t : Tournament.t) (m : Match.t) (w1 w2 draws : Z) : Result.t :=
  Result.mk (Match.id m) (Match.round m) (Match.playerTwo m)
    (if decide (w1 > w2) then Outcome.win
     else if decide (w2 > w1) then Outcome.loss else Outcome.draw)
    (if decide (w1 > w2) then Tournament.pointsForWin t
     else if decide (w2 > w1) then 0 else Tournament.pointsForDraw t)
    (w1 * Tournament.pointsForWin t + draws * Tournament.pointsForDraw t)
    (0 + w1 + w2 + draws).

Definition entryTwo (t : Tournament.t) (m : Match.t) (w1 w2 draws : Z) : Result.t :=
  Result.mk (Match.id m) (Match.round m) (Match.playerOne m)
    (if decide (w2 > w1) then Outcome.win
     else if decide (w1 > w2) then Outcome.loss else Outcome.draw)
    (if decide (w2 > w1) then Tournament.pointsForWin t
     else if decide (w1 > w2) then 0 else Tournament.pointsForDraw t)
    (w2 * Tournament.pointsForWin t + draws * Tournament.pointsForDraw t)
    (0 + w1 + w2 + draws).

(** The tournament after a first standard result on the match at [i], whose
    players sit at [one] and [two]. *)
Definition reported (t : Tournament.t) (i one two : nat) (m : Match.t) (w1 w2 draws : Z)
  : Tournament.t :=
  Tournament.set_players
    (alter (credit (entryTwo t m w1 w2 draws)) two
       (alter (credit (entryOne t m w1 w2 draws)) one
          (alter (Player.set_active true) two
             (alter (Player.set_active true) one (Tournament.players t)))))
    (Tournament.set_matches
       (alter (λ m, Match.set_active false (Match.set_result (Score.mk w1 w2 draws) m)) i
          (Tournament.matches t))
       t).

(** What [advanceTo] does to the match that takes the player [x] in, and
    what [pullFrom] does to a match that may hold [x]. *)
Definition advance (x : string) (n : Match.t) : Match.t :=
  if decide (Match.playerOne n = None) then Match.set_playerOne (Some x) n
  else if decide (Match.playerTwo n = None)
       then Match.set_active true (Match.set_playerTwo (Some x) n)
       else n.




(** The entries that [eliminationResult] pushes for the two players of [m]. *)
Definition decisionOne (t : Tournament.t) (m : Match.t) (w1 w2 : Z) : Result.t :=
  Result.mk (Match.id m) (Match.round m) (Match.playerTwo m)
    (if decide (w1 > w2) then Outcome.win else Outcome.loss)
    (if decide (w1 > w2) then Tournament.pointsForWin t else 0)
    (w1 * Tournament.pointsForWin t)
    (0 + w1 + w2).

Definition decisionTwo (t : Tournament.t) (m : Match.t) (w1 w2 : Z) : Result.t :=
  Result.mk (Match.id m) (Match.round m) (Match.playerOne m)
    (if decide (w2 > w1) then Outcome.win else Outcome.loss)
    (if decide (w2 > w1) then Tournament.pointsForWin t else 0)
    (w2 * Tournament.pointsForWin t)
    (0 + w1 + w2).

(** The tournament after a first elimination result on the match at [i],
    whose players [x1] and [x2] sit at [one] and [two]; the winner moves to
    the match at [iw], the loser to the match at [il] or, without a loser's
    path, out of the event. *)
Definition decided (t : Tournament.t) (i one two iw : nat) (il : option nat)
    (m : Match.t) (x1 x2 : string) (w1 w2 : Z) : Tournament.t :=
  let xw := if decide (w1 > w2) then x1 else x2 in
  let xl := if decide (w1 > w2) then x2 else x1 in
  let loser := if decide (w1 > w2) then two else one in
  Tournament.set_players
    ((match il with
      | None => alter (Player.set_active false) loser
      | Some _ => id
      end)
       (alter (credit (decisionTwo t m w1 w2)) two
          (alter (credit (decisionOne t m w1 w2)) one (Tournament.players t))))
    (Tournament.set_matches
       ((match il with
         | None => id
         | Some il => alter (advance xl) il
         end)
          (alter (advance xw) iw
             (alter (λ m, Match.set_active false
                            (Match.set_result
                               (Score.mk w1 w2 (Score.draws (Match.result m))) m)) i
                (Tournament.matches t))))
       t).

(** The three conditions under which [newPlayer] turns a player away. *)
Definition limitReached (t : Tournament.t) : Prop :=
  Tournament.playerLimit t > 0 ∧
  Z.of_nat (length (Tournament.players t)) = Tournament.playerLimit t.

Definition enrolledId (t : Tournament.t) (id : string) : Prop :=
  Exists (λ player, Player.id player = id) (Tournament.players t).

Definition lateForFormat (t : Tournament.t) : Prop :=
  Tournament.status t ≠ Status.registration ∧ Tournament.format t ≠ Format.swiss.

(** The tournament that [nextRound] hands to the bracket pairing when the
    cut is by points: the playoffs have begun, the players below the limit
    are out, the round is counted. *)
Definition pointsCut (t : Tournament.t) : Tournament.t :=
  Tournament.set_currentRound (Tournament.currentRound t + 1)
    (Tournament.set_players
       ((λ p, if decide (Tournament.cutLimit t ≠ 0 ∧
                         Player.matchPoints p < Tournament.cutLimit t)
              then Player.set_active false p else p) <$> Tournament.players t)
       (Tournament.set_status Status.playoffs t)).

(** The entry that a late player receives for the missed round [i + 1], and
    what receiving it does to the player. *)
Definition lateResult (t : Tournament.t) (missingResults : MissingResults.t)
    (matchIDs : Z → string) (i : Z) : Result.t :=
  match missingResults with
  | MissingResults.byes => byeEntry t (matchIDs i) (i + 1)
  | MissingResults.losses =>
    Result.mk (matchIDs i) (i + 1) None Outcome.loss 0 0 (ceilHalf (Tournament.bestOf t))
  end.

Definition lateCredit (t : Tournament.t) (missingResults : MissingResults.t)
    (matchIDs : Z → string) (p : Player.t) (i : Z) : Player.t :=
  match missingResults with
  | MissingResults.byes =>
    Player.set_pairingBye true (credit (lateResult t missingResults matchIDs i) p)
  | MissingResults.losses => credit (lateResult t missingResults matchIDs i) p
  end.

(** The late player once the rounds played so far are made up for. *)
Definition caughtUp (t : Tournament.t) (missingResults : MissingResults.t)
    (matchIDs : Z → string) (p : Player.t) : Player.t :=
  foldl (lateCredit t missingResults matchIDs) p (seqZ 0 (Tournament.currentRound t)).

(** The tournament once the player [id] is out: the first player carrying
    the id is no longer active. *)
Definition withdrawn (id : string) (t : Tournament.t) : Tournament.t :=
  match findIndex (λ p, Some (Player.id p) = Some id) (Tournament.players t) with
  | Some j =>
    Tournament.set_players (alter (Player.set_active false) j (Tournament.players t)) t
  | None => t
  end.

(** The ids of the enrolled players, in order. *)
Definition playerIds (t : Tournament.t) : list string := Player.id <$> Tournament.players t.

(** The matches as scheduled, each with its [active] flag, the round and
    the status. *)
Definition timetable (t : Tournament.t) :=
  ((λ m, (wiring m, Match.active m)) <$> Tournament.matches t,
   Tournament.currentRound t, Tournament.status t).

(** A match of round [round] that has both its players. *)
Definition playable (round : Z) (m : Match.t) : Prop :=
  Match.round m = round ∧ Match.playerOne m ≠ None ∧ Match.playerTwo m ≠ None.

#[global] Instance playable_dec round m : Decision (playable round m).
Proof. unfold playable. apply _. Defined.

(** The tournament that [nextRound] hands to the bracket pairing when the
    cut is by rank and keeps the players at the references [kept]. *)
Definition rankCut (kept : list nat) (t : Tournament.t) : Tournament.t :=
  Tournament.set_currentRound (Tournament.currentRound t + 1)
    (Tournament.set_players
       (imap (λ j p, if decide (j ∈ kept) then p else Player.set_active false p)
          (Tournament.players t))
       (Tournament.set_status Status.playoffs t)).

(** The round robin once its next round is opened: the round is counted and
    the matches of the new round that have both players are active. *)
Definition opened (t : Tournament.t) : Tournament.t :=
  Tournament.set_matches
    ((λ m, if decide (playable (Tournament.currentRound t + 1) m)
           then Match.set_active true m else m) <$> Tournament.matches t)
    (Tournament.set_currentRound (Tournament.currentRound t + 1) t).

(** The score that a round-robin bye records: the wins go to the side that
    is present. *)
Definition byeScore (t : Tournament.t) (m : Match.t) : Match.t :=
  if decide (Match.playerTwo m = None)
  then Match.set_result
         (Score.set_playerOneWins (ceilHalf (Tournament.bestOf t)) (Match.result m)) m
  else Match.set_result
         (Score.set_playerTwoWins (ceilHalf (Tournament.bestOf t)) (Match.result m)) m.

(** ** Points in doubles

    The source keeps points in binary64.  [Binary64] gives its addition and
    subtraction (round to nearest, ties to even) on the finite doubles, to
    show where the integer model of points stops. *)
Module Binary64.
Definition t : Type := SpecFloat.spec_float.
Definition add : t → t → t := SpecFloat.SFadd 53 1024.
Definition sub : t → t → t := SpecFloat.SFsub 53 1024.
(** The doubles [0.1], [0.2], [0.5] and [1]. *)
Definition tenth : t := SpecFloat.S754_finite false 7205759403792794 (-56).
Definition fifth : t := SpecFloat.S754_finite false 7205759403792794 (-55).
Definition half : t := SpecFloat.S754_finite false 4503599627370496 (-53).
Definition one : t := SpecFloat.S754_finite false 4503599627370496 (-52).
End Binary64.

(** [player.matchPoints += playerResult.matchPoints] of [standardResult]
    followed by [player.matchPoints -= playerResult.matchPoints] of
    [Tournament.eraseResult], on the doubles of the source. *)
Definition creditedThenErased (matchPoints entry : Binary64.t) : Binary64.t :=
  Binary64.sub (Binary64.add matchPoints entry) entry.

(** The public methods of the three classes, with their arguments. *)
Inductive Operation :=
| SwissStart | SwissNextRound
| SwissResult (matchId : string) (w1 w2 : Z) (draws : option Z)
| SwissErase (matchId : string)
| SwissAdd (alias id : string) (seed initialByes : Z) (missingResults : MissingResults.t)
           (matchIDs : Z → string)
| SwissRemove (id : string)
| RoundRobinStart | RoundRobinNextRound
| RoundRobinResult (matchId : string) (w1 w2 : Z) (draws : option Z)
| RoundRobinErase (matchId : string)
| RoundRobinAdd (alias id : string) (seed : Z)
| RoundRobinRemove (id : string)
| EliminationStart
| EliminationResult (matchId : string) (w1 w2 : Z)
| EliminationAdd (alias id : string) (seed : Z)
| EliminationRemove (id : string).

Section Run.
Variable Pairings_swiss : Tournament.t → Tournament.t.
Variable Pairings_roundRobin : Tournament.t → Tournament.t.
Variable Pairings_singleElimination : Tournament.t → Tournament.t.
Variable Pairings_doubleElimination : Tournament.t → Tournament.t.
Variable Tiebreakers_sort : Tournament.t → list nat → list nat.

(** Running a method for its effect on the tournament. *)
Definition run (op : Operation) : Eff.t unit :=
  match op with
  | SwissStart => Swiss_startEvent Pairings_swiss
  | SwissNextRound =>
    Swiss_nextRound Pairings_swiss Pairings_singleElimination Pairings_doubleElimination
      Tiebreakers_sort
  | SwissResult matchId w1 w2 draws => Swiss_result matchId w1 w2 draws
  | SwissErase matchId => Swiss_eraseResult matchId
  | SwissAdd alias id seed initialByes missingResults matchIDs =>
    Swiss_addPlayer alias id seed initialByes missingResults matchIDs;; Eff.ret tt
  | SwissRemove id => Swiss_removePlayer id;; Eff.ret tt
  | RoundRobinStart => RoundRobin_startEvent Pairings_roundRobin
  | RoundRobinNextRound =>
    RoundRobin_nextRound Pairings_singleElimination Pairings_doubleElimination
      Tiebreakers_sort
  | RoundRobinResult matchId w1 w2 draws => RoundRobin_result matchId w1 w2 draws
  | RoundRobinErase matchId => RoundRobin_eraseResult matchId
  | RoundRobinAdd alias id seed => RoundRobin_addPlayer alias id seed;; Eff.ret tt
  | RoundRobinRemove id => RoundRobin_removePlayer id;; Eff.ret tt
  | EliminationStart =>
    Elimination_startEvent Pairings_singleElimination Pairings_doubleElimination
  | EliminationResult matchId w1 w2 => Elimination_result matchId w1 w2
  | EliminationAdd alias id seed => Elimination_addPlayer alias id seed;; Eff.ret tt
  | EliminationRemove id => Elimination_removePlayer id;; Eff.ret tt
  end.
End Run.

(** [keepsDistinct c]: from pairwise distinct player ids, [c] leaves
    pairwise distinct player ids, whether it returns or throws. *)
Definition keepsDistinct {A} (c : Eff.t A) : Prop :=
  ∀ s, NoDup (playerIds s) → NoDup (playerIds (state_after (c s))).

(** [keeps c]: a call of [c] that returns from sound scoreboards leaves sound
    scoreboards. *)
Definition keeps {A} (c : Eff.t A) : Prop :=
  ∀ s, scoreboardsSound s → wlp c (λ _ s', scoreboardsSound s') s.
Section Rules.
Context {A B : Type}.
Implicit Types (c : Eff.t A) (k : A → Eff.t B) (s : Tournament.t).

Lemma wp_bind c k (Q : B → Tournament.t → Prop) s :
  wp (Eff.bind c k) Q s ↔ wp c (λ a, wp (k a) Q) s.
Proof. unfold wp, Eff.bind. destruct (c s) as [[a|e] s']; reflexivity. Qed.

Lemma wlp_bind c k (Q : B → Tournament.t → Prop) s :
  wlp (Eff.bind c k) Q s ↔ wlp c (λ a, wlp (k a) Q) s.
Proof. unfold wlp, Eff.bind. destruct (c s) as [[a|e] s']; reflexivity. Qed.

Lemma wp_mono c (Q Q' : A → Tournament.t → Prop) s :
  (∀ a s', Q a s' → Q' a s') → wp c Q s → wp c Q' s.
Proof. unfold wp. destruct (c s) as [[a|e] s']; auto. Qed.

Lemma wlp_mono c (Q Q' : A → Tournament.t → Prop) s :
  (∀ a s', Q a s' → Q' a s') → wlp c Q s → wlp c Q' s.
Proof. unfold wlp. destruct (c s) as [[a|e] s']; auto. Qed.

Lemma wp_returns c Q s : wp c Q s ↔ ∃ a s', c s = (Eff.Return a, s') ∧ Q a s'.
Proof.
  unfold wp. destruct (c s) as [[a|e] s']; split.
  - eauto.
  - intros (a' & s'' & [= -> ->] & HQ). exact HQ.
  - intros [].
  - intros (a' & s'' & [=] & _).
Qed.

Lemma wlp_returns c Q s : wlp c Q s ↔ ∀ a s', c s = (Eff.Return a, s') → Q a s'.
Proof.
  unfold wlp. destruct (c s) as [[a|e] s']; split; try done.
  - intros HQ a' s'' [= -> ->]. exact HQ.
  - intros H. by apply H.
Qed.

Lemma preserves_bind {X} (proj : Tournament.t → X) c k :
  preserves proj c → (∀ a, preserves proj (k a)) → preserves proj (Eff.bind c k).
Proof.
  intros Hc Hk s. unfold Eff.bind. specialize (Hc s).
  destruct (c s) as [[a|e] s']; simpl in *; [|done].
  by rewrite Hk.
Qed.

Lemma wlp_preserves {X} (proj : Tournament.t → X) c s :
  preserves proj c → wlp c (λ _ s', proj s' = proj s) s.
Proof. intros Hc. specialize (Hc s). unfold wlp. by destruct (c s) as [[a|e] s']. Qed.
End Rules.

Section PrimitiveRules.
Context {A : Type}.
Implicit Types (Q : A → Tournament.t → Prop) (s : Tournament.t).

Lemma wp_ret (a : A) Q s : Q a s → wp (Eff.ret a) Q s.
Proof. done. Qed.
Lemma wlp_ret (a : A) Q s : Q a s → wlp (Eff.ret a) Q s.
Proof. done. Qed.
Lemma wlp_throw e Q s : wlp (Eff.throw e) Q s.
Proof. done. Qed.
Lemma preserves_ret {X} (proj : Tournament.t → X) (a : A) : preserves proj (Eff.ret a).
Proof. done. Qed.
Lemma preserves_throw {X} (proj : Tournament.t → X) e : preserves proj (@Eff.throw A e).
Proof. done. Qed.
End PrimitiveRules.

Lemma wp_get (Q : Tournament.t → Tournament.t → Prop) s : Q s s → wp Eff.get Q s.
Proof. done. Qed.
Lemma wlp_get (Q : Tournament.t → Tournament.t → Prop) s : Q s s → wlp Eff.get Q s.
Proof. done. Qed.
Lemma wp_modify f (Q : unit → Tournament.t → Prop) s : Q tt (f s) → wp (Eff.modify f) Q s.
Proof. done. Qed.
Lemma wlp_modify f (Q : unit → Tournament.t → Prop) s : Q tt (f s) → wlp (Eff.modify f) Q s.
Proof. done. Qed.

Lemma wp_findPlayer slot (Q : ref → Tournament.t → Prop) s :
  Q (findIndex (λ p, Some (Player.id p) = slot) (Tournament.players s)) s →
  wp (findPlayer slot) Q s.
Proof. done. Qed.
Lemma wlp_findPlayer slot (Q : ref → Tournament.t → Prop) s :
  Q (findIndex (λ p, Some (Player.id p) = slot) (Tournament.players s)) s →
  wlp (findPlayer slot) Q s.
Proof. done. Qed.
Lemma wp_findMatch id (Q : ref → Tournament.t → Prop) s :
  Q (findIndex (λ m, Some (Match.id m) = id) (Tournament.matches s)) s →
  wp (findMatch id) Q s.
Proof. done. Qed.
Lemma wlp_findMatch id (Q : ref → Tournament.t → Prop) s :
  Q (findIndex (λ m, Some (Match.id m) = id) (Tournament.matches s)) s →
  wlp (findMatch id) Q s.
Proof. done. Qed.

Lemma wp_playerAt i p (Q : Player.t → Tournament.t → Prop) s :
  Tournament.players s !! i = Some p → Q p s → wp (playerAt (Some i)) Q s.
Proof. intros Hp HQ. unfold wp, playerAt. simpl. by rewrite Hp. Qed.
Lemma wlp_playerAt r (Q : Player.t → Tournament.t → Prop) s :
  (∀ i p, r = Some i → Tournament.players s !! i = Some p → Q p s) →
  wlp (playerAt r) Q s.
Proof.
  intros HQ. unfold wlp, playerAt. destruct r as [i|]; simpl; [|done].
  destruct (Tournament.players s !! i) eqn:E; [|done]. by eapply HQ.
Qed.
Lemma wp_matchAt i m (Q : Match.t → Tournament.t → Prop) s :
  Tournament.matches s !! i = Some m → Q m s → wp (matchAt (Some i)) Q s.
Proof. intros Hm HQ. unfold wp, matchAt. simpl. by rewrite Hm. Qed.
Lemma wlp_matchAt r (Q : Match.t → Tournament.t → Prop) s :
  (∀ i m, r = Some i → Tournament.matches s !! i = Some m → Q m s) →
  wlp (matchAt r) Q s.
Proof.
  intros HQ. unfold wlp, matchAt. destruct r as [i|]; simpl; [|done].
  destruct (Tournament.matches s !! i) eqn:E; [|done]. by eapply HQ.
Qed.

Lemma wp_setPlayer i f (Q : unit → Tournament.t → Prop) s :
  Q tt (Tournament.set_players (alter f i (Tournament.players s)) s) →
  wp (setPlayer (Some i) f) Q s.
Proof. done. Qed.
Lemma wlp_setPlayer r f (Q : unit → Tournament.t → Prop) s :
  (∀ i, r = Some i → Q tt (Tournament.set_players (alter f i (Tournament.players s)) s)) →
  wlp (setPlayer r f) Q s.
Proof. intros HQ. unfold wlp, setPlayer. destruct r; [by apply HQ|done]. Qed.
Lemma wp_setMatch i f (Q : unit → Tournament.t → Prop) s :
  Q tt (Tournament.set_matches (alter f i (Tournament.matches s)) s) →
  wp (setMatch (Some i) f) Q s.
Proof. done. Qed.
Lemma wlp_setMatch r f (Q : unit → Tournament.t → Prop) s :
  (∀ i, r = Some i → Q tt (Tournament.set_matches (alter f i (Tournament.matches s)) s)) →
  wlp (setMatch r f) Q s.
Proof. intros HQ. unfold wlp, setMatch. destruct r; [by apply HQ|done]. Qed.

(** *** Facts on arrays *)

Lemma fmap_alter_same {A B} (g : A → B) (f : A → A) i (l : list A) :
  (∀ x, g (f x) = g x) → g <$> alter f i l = g <$> l.
Proof.
  intros Hf. revert i. induction l as [|x l IH]; intros [|i]; simpl; [done..| |].
  - by rewrite Hf.
  - f_equal. apply IH.
Qed.

Lemma findIndex_fmap {A B} (g : A → B) (P : B → Prop) `{∀ y, Decision (P y)} (l : list A) :
  findIndex (λ x, P (g x)) l = findIndex P (g <$> l).
Proof.
  unfold findIndex. rewrite list_find_fmap.
  destruct (list_find (P ∘ g) l) as [[i x]|] eqn:E; simpl.
  - unfold compose in E. by rewrite E.
  - unfold compose in E. by rewrite E.
Qed.

Lemma findIndex_Some {A} (P : A → Prop) `{∀ x, Decision (P x)} (l : list A) i :
  findIndex P l = Some i →
  ∃ x, l !! i = Some x ∧ P x ∧ ∀ j y, l !! j = Some y → (j < i)%nat → ¬ P y.
Proof.
  unfold findIndex. destruct (list_find P l) as [[j x]|] eqn:E; [|done].
  intros [= ->]. apply list_find_Some in E. eauto.
Qed.

Lemma findIndex_first {A} (P : A → Prop) `{∀ x, Decision (P x)} (l : list A) i x :
  l !! i = Some x → P x → (∀ j y, l !! j = Some y → (j < i)%nat → ¬ P y) →
  findIndex P l = Some i.
Proof.
  intros Hl HP Hlt. unfold findIndex.
  rewrite (proj2 (list_find_Some P l i x)); [done|]. auto.
Qed.

(** *** What results and erasures leave alone *)

Lemma preserves_get {X} (proj : Tournament.t → X) : preserves proj Eff.get.
Proof. done. Qed.
Lemma preserves_findPlayer {X} (proj : Tournament.t → X) slot : preserves proj (findPlayer slot).
Proof. done. Qed.
Lemma preserves_findMatch {X} (proj : Tournament.t → X) id : preserves proj (findMatch id).
Proof. done. Qed.
Lemma preserves_playerAt {X} (proj : Tournament.t → X) r : preserves proj (playerAt r).
Proof. intros s. unfold playerAt. by destruct (r ≫= _). Qed.
Lemma preserves_matchAt {X} (proj : Tournament.t → X) r : preserves proj (matchAt r).
Proof. intros s. unfold matchAt. by destruct (r ≫= _). Qed.
Lemma preserves_when {X} (proj : Tournament.t → X) c body :
  preserves proj body → preserves proj (Eff.when c body).
Proof. by destruct c. Qed.
Lemma preserves_forEach {X} (proj : Tournament.t → X) {A} (l : list A) body :
  (∀ x, preserves proj (body x)) → preserves proj (Eff.forEach l body).
Proof.
  intros Hbody. induction l as [|x l IH]; simpl; [done|].
  apply preserves_bind; auto.
Qed.

Lemma frame_setPlayer r f :
  (∀ p, Player.id (f p) = Player.id p) → preserves frameOf (setPlayer r f).
Proof.
  intros Hf s. unfold setPlayer. destruct r as [i|]; [|done].
  unfold frameOf. simpl. by rewrite fmap_alter_same.
Qed.

Lemma frame_setMatch r f :
  (∀ m, wiring (f m) = wiring m) → preserves frameOf (setMatch r f).
Proof.
  intros Hf s. unfold setMatch. destruct r as [i|]; [|done].
  unfold frameOf. simpl. by rewrite fmap_alter_same.
Qed.

Ltac frame_step :=
  first
    [ apply preserves_bind; [|intros ?]
    | apply preserves_ret
    | apply preserves_throw
    | apply preserves_get
    | apply preserves_findPlayer
    | apply preserves_findMatch
    | apply preserves_playerAt
    | apply preserves_matchAt
    | apply preserves_when
    | apply preserves_forEach; intros ?
    | apply frame_setPlayer; by intros []
    | apply frame_setMatch; by intros []
    | match goal with
      | |- preserves _ (match ?x with _ => _ end) => destruct x
      end ].

Lemma frame_eraseOne player matchId : preserves frameOf (eraseOne player matchId).
Proof. unfold eraseOne. repeat frame_step. Qed.

Lemma frame_eraseResult match_ : preserves frameOf (eraseResult match_).
Proof. unfold eraseResult. repeat (frame_step || apply frame_eraseOne). Qed.

Lemma frame_recordResult r e : preserves frameOf (recordResult r e).
Proof. unfold recordResult. apply frame_setPlayer. by intros []. Qed.

Lemma frame_players s s' :
  frameOf s' = frameOf s → Player.id <$> Tournament.players s' = Player.id <$> Tournament.players s.
Proof. by intros [= ? ? ?]. Qed.
Lemma frame_matches s s' :
  frameOf s' = frameOf s → wiring <$> Tournament.matches s' = wiring <$> Tournament.matches s.
Proof. by intros [= ? ? ?]. Qed.

Lemma findIndex_cons {A} (P : A → Prop) `{∀ x, Decision (P x)} x (l : list A) :
  findIndex P (x :: l) = if decide (P x) then Some 0%nat else S <$> findIndex P l.
Proof.
  unfold findIndex. simpl. destruct (decide (P x)); [done|].
  by destruct (list_find P l) as [[??]|].
Qed.

Lemma findIndex_alter {A} (P : A → Prop) `{∀ x, Decision (P x)} (f : A → A) i (l : list A) :
  (∀ x, P (f x) ↔ P x) → findIndex P (alter f i l) = findIndex P l.
Proof.
  intros Hf. revert i.
  induction l as [|x l IH]; intros [|i]; [done..| |].
  - change (alter f 0%nat (x :: l)) with (f x :: l).
    rewrite !findIndex_cons. destruct (Hf x) as [Ha Hb].
    destruct (decide (P (f x))), (decide (P x)); tauto.
  - change (alter f (S i) (x :: l)) with (x :: alter f i l).
    rewrite !findIndex_cons. by rewrite IH.
Qed.

Lemma findIndex_same_keys {A B} (g : A → B) (P : B → Prop) `{∀ y, Decision (P y)}
    (l l' : list A) :
  g <$> l' = g <$> l → findIndex (λ x, P (g x)) l' = findIndex (λ x, P (g x)) l.
Proof. intros Hg. by rewrite (findIndex_fmap g P l'), (findIndex_fmap g P l), Hg. Qed.

Lemma lookup_same_keys {A B} (g : A → B) (l l' : list A) i x x' :
  g <$> l' = g <$> l → l !! i = Some x → l' !! i = Some x' → g x' = g x.
Proof.
  intros Hg Hx Hx'.
  assert ((g <$> l') !! i = Some (g x')) as H1 by (by rewrite list_lookup_fmap, Hx').
  assert ((g <$> l) !! i = Some (g x)) as H2 by (by rewrite list_lookup_fmap, Hx).
  congruence.
Qed.

Lemma wlp_playerAt_Some i (Q : Player.t → Tournament.t → Prop) s :
  (∀ p, Tournament.players s !! i = Some p → Q p s) → wlp (playerAt (Some i)) Q s.
Proof. intros HQ. apply wlp_playerAt. intros ? ? [= <-]. apply HQ. Qed.
Lemma wlp_matchAt_Some i (Q : Match.t → Tournament.t → Prop) s :
  (∀ m, Tournament.matches s !! i = Some m → Q m s) → wlp (matchAt (Some i)) Q s.
Proof. intros HQ. apply wlp_matchAt. intros ? ? [= <-]. apply HQ. Qed.

Lemma wlp_setPlayer_Some i f (Q : unit → Tournament.t → Prop) s :
  Q tt (Tournament.set_players (alter f i (Tournament.players s)) s) →
  wlp (setPlayer (Some i) f) Q s.
Proof. done. Qed.
Lemma wlp_setMatch_Some i f (Q : unit → Tournament.t → Prop) s :
  Q tt (Tournament.set_matches (alter f i (Tournament.matches s)) s) →
  wlp (setMatch (Some i) f) Q s.
Proof. done. Qed.

Lemma wlp_findPlayer_eq slot (Q : ref → Tournament.t → Prop) s :
  (∀ r, findIndex (λ p, Some (Player.id p) = slot) (Tournament.players s) = r → Q r s) →
  wlp (findPlayer slot) Q s.
Proof. intros HQ. by apply HQ. Qed.
Lemma wlp_findMatch_eq id (Q : ref → Tournament.t → Prop) s :
  (∀ r, findIndex (λ m, Some (Match.id m) = id) (Tournament.matches s) = r → Q r s) →
  wlp (findMatch id) Q s.
Proof. intros HQ. by apply HQ. Qed.

Lemma set_players_set_players l l' s :
  Tournament.set_players l (Tournament.set_players l' s) = Tournament.set_players l s.
Proof. done. Qed.
Lemma set_matches_set_matches l l' s :
  Tournament.set_matches l (Tournament.set_matches l' s) = Tournament.set_matches l s.
Proof. done. Qed.
Lemma set_matches_set_players l l' s :
  Tournament.set_matches l (Tournament.set_players l' s)
  = Tournament.set_players l' (Tournament.set_matches l s).
Proof. done. Qed.
Lemma set_status_set_players st l s :
  Tournament.set_status st (Tournament.set_players l s)
  = Tournament.set_players l (Tournament.set_status st s).
Proof. done. Qed.
Lemma set_status_set_matches st l s :
  Tournament.set_status st (Tournament.set_matches l s)
  = Tournament.set_matches l (Tournament.set_status st s).
Proof. done. Qed.

Ltac norm_state :=
  cbn [Tournament.format Tournament.sorting Tournament.consolation Tournament.playerLimit
       Tournament.pointsForWin Tournament.pointsForDraw Tournament.currentRound
       Tournament.players Tournament.matches Tournament.status Tournament.rounds
       Tournament.playoffs Tournament.bestOf Tournament.cutType Tournament.cutLimit
       Tournament.double Tournament.set_players Tournament.set_matches
       Tournament.set_status Tournament.set_currentRound Tournament.set_rounds] in *;
  rewrite ?set_players_set_players, ?set_matches_set_matches, ?set_matches_set_players,
    ?set_status_set_players, ?set_status_set_matches.

Lemma is_Some_same_keys {A B} (g : A → B) (l l' : list A) i :
  g <$> l' = g <$> l → is_Some (l !! i) → is_Some (l' !! i).
Proof.
  intros Hg Hi. apply lookup_lt_is_Some. apply lookup_lt_is_Some in Hi.
  by rewrite <- (length_fmap g l'), Hg, length_fmap.
Qed.

Lemma routing_findMatch (l l' : list Match.t) id :
  routing <$> l' = routing <$> l →
  findIndex (λ m, Some (Match.id m) = id) l' = findIndex (λ m, Some (Match.id m) = id) l.
Proof.
  intros Hl. exact (findIndex_same_keys routing (λ w, Some (w.1.1) = id) _ _ Hl).
Qed.

Ltac wlp_step :=
  lazymatch goal with
  | |- wlp (Eff.bind _ _) _ _ => apply wlp_bind
  | |- wlp (Eff.ret _) _ _ => apply wlp_ret
  | |- wlp (Eff.throw _) _ _ => apply wlp_throw
  | |- wlp Eff.get _ _ => apply wlp_get
  | |- wlp (Eff.modify _) _ _ => apply wlp_modify
  | |- wlp (findPlayer _) _ _ =>
      apply wlp_findPlayer_eq; intros [?|] ?
  | |- wlp (findMatch _) _ _ =>
      apply wlp_findMatch_eq; intros [?|] ?
  | |- wlp (playerAt (Some _)) _ _ => apply wlp_playerAt_Some; intros ? ?
  | |- wlp (playerAt None) _ _ => exact I
  | |- wlp (matchAt (Some _)) _ _ => apply wlp_matchAt_Some; intros ? ?
  | |- wlp (matchAt None) _ _ => exact I
  | |- wlp (setPlayer (Some _) _) _ _ => apply wlp_setPlayer_Some
  | |- wlp (setPlayer None _) _ _ => exact I
  | |- wlp (setMatch (Some _) _) _ _ => apply wlp_setMatch_Some
  | |- wlp (setMatch None _) _ _ => exact I
  | |- wlp (recordResult _ _) _ _ => unfold recordResult
  end; norm_state.

Lemma holdsAt_alter_here {A} (P : A → Prop) f j (l : list A) :
  is_Some (l !! j) → (∀ y, P (f y)) → holdsAt P j (alter f j l).
Proof.
  intros [x Hx] Hf. exists (f x). split; [|done].
  by rewrite list_lookup_alter_eq, Hx.
Qed.

Lemma holdsAt_alter {A} (P : A → Prop) f i j (l : list A) :
  (∀ y, P y → P (f y)) → holdsAt P j l → holdsAt P j (alter f i l).
Proof.
  intros Hf (x & Hx & HP). destruct (decide (i = j)) as [->|Hne].
  - exists (f x). split; [|auto]. by rewrite list_lookup_alter_eq, Hx.
  - exists x. split; [|done]. by rewrite list_lookup_alter_ne.
Qed.

Lemma is_Some_alter {A} (f : A → A) i j (l : list A) :
  is_Some (l !! j) → is_Some (alter f i l !! j).
Proof.
  intros [x Hx]. rewrite list_lookup_alter. case_decide; subst; rewrite ?Hx; eauto.
Qed.

Lemma findIndex_is_Some {A} (P : A → Prop) `{∀ x, Decision (P x)} (l : list A) i :
  findIndex P l = Some i → is_Some (l !! i).
Proof. intros (x & Hx & _)%findIndex_Some. eauto. Qed.

Ltac holdsAt_tac :=
  repeat first
    [ apply holdsAt_alter_here; [repeat apply is_Some_alter; eassumption | by intros []]
    | apply holdsAt_alter; [by intros []|] ].

Lemma bothActive_intro t matchId i m one two :
  findIndex (λ m, Some (Match.id m) = Some matchId) (Tournament.matches t) = Some i →
  Tournament.matches t !! i = Some m →
  findIndex (λ p, Some (Player.id p) = Match.playerOne m) (Tournament.players t) = Some one →
  findIndex (λ p, Some (Player.id p) = Match.playerTwo m) (Tournament.players t) = Some two →
  holdsAt (λ p, Player.active p = true) one (Tournament.players t) →
  holdsAt (λ p, Player.active p = true) two (Tournament.players t) →
  bothActive t matchId.
Proof.
  intros Hi Hm H1 H2 (p1 & Hp1 & Ha1) (p2 & Hp2 & Ha2).
  exists m, p1, p2. unfold theMatch, thePlayer.
  rewrite Hi, H1, H2. simpl. by rewrite Hm, Hp1, Hp2.
Qed.

Lemma frame_findMatch s t id :
  frameOf s = frameOf t →
  findIndex (λ m, Some (Match.id m) = id) (Tournament.matches s)
  = findIndex (λ m, Some (Match.id m) = id) (Tournament.matches t).
Proof.
  intros Hs%frame_matches.
  exact (findIndex_same_keys wiring (λ w, Some (w.1.1.1.1.1) = id) _ _ Hs).
Qed.

(** *** Stepping through a computation that returns *)

Lemma wp_playerAt_ex i (Q : Player.t → Tournament.t → Prop) s :
  is_Some (Tournament.players s !! i) →
  (∀ p, Tournament.players s !! i = Some p → Q p s) → wp (playerAt (Some i)) Q s.
Proof. intros [p Hp] HQ. eapply wp_playerAt; eauto. Qed.

Lemma wp_matchAt_ex i (Q : Match.t → Tournament.t → Prop) s :
  is_Some (Tournament.matches s !! i) →
  (∀ m, Tournament.matches s !! i = Some m → Q m s) → wp (matchAt (Some i)) Q s.
Proof. intros [m Hm] HQ. eapply wp_matchAt; eauto. Qed.

Ltac norm_records :=
  cbn [Match.id Match.round Match.matchNumber Match.playerOne Match.playerTwo Match.active
       Match.result Match.winnersPath Match.losersPath Score.playerOneWins
       Score.playerTwoWins Score.draws Match.set_playerOne Match.set_playerTwo
       Match.set_active Match.set_result Match.set_winnersPath Match.set_losersPath
       Score.set_playerOneWins Score.set_playerTwoWins Score.set_draws] in *.

Ltac solve_is_Some := repeat apply is_Some_alter; eauto using findIndex_is_Some.

Ltac wp_step :=
  lazymatch goal with
  | |- wp (Eff.bind _ _) _ _ => apply wp_bind
  | |- wp (Eff.ret _) _ _ => apply wp_ret
  | |- wp Eff.get _ _ => apply wp_get
  | |- wp (Eff.modify _) _ _ => apply wp_modify
  | |- wp (findPlayer _) _ _ =>
      apply wp_findPlayer; norm_state; rewrite ?findIndex_alter by (by intros [])
  | |- wp (findMatch _) _ _ =>
      apply wp_findMatch; norm_state; rewrite ?findIndex_alter by (by intros [])
  | |- wp (playerAt (Some _)) _ _ => apply wp_playerAt_ex; [solve_is_Some|intros ? ?]
  | |- wp (matchAt (Some _)) _ _ => apply wp_matchAt_ex; [solve_is_Some|intros ? ?]
  | |- wp (setPlayer (Some _) _) _ _ => apply wp_setPlayer
  | |- wp (setMatch (Some _) _) _ _ => apply wp_setMatch
  | |- wp (recordResult (Some _) _) _ _ => apply wp_setPlayer
  end; norm_state.

Ltac at_same Hm :=
  rewrite ?list_lookup_alter_eq in *; rewrite ?Hm in *;
  cbn [fmap option_fmap option_map] in *;
  repeat match goal with
  | H : Some _ = Some ?b |- _ => is_var b; apply (inj Some) in H; subst b
  end;
  norm_records.

Lemma theMatch_Some t matchId m :
  theMatch t matchId = Some m →
  ∃ i, findIndex (λ m, Some (Match.id m) = Some matchId) (Tournament.matches t) = Some i ∧
       Tournament.matches t !! i = Some m.
Proof.
  unfold theMatch. destruct (findIndex _ _) as [i|]; [|done]. simpl. eauto.
Qed.

Lemma thePlayer_Some t slot p :
  thePlayer t slot = Some p →
  ∃ j, findIndex (λ p, Some (Player.id p) = slot) (Tournament.players t) = Some j ∧
       Tournament.players t !! j = Some p.
Proof.
  unfold thePlayer. destruct (findIndex _ _) as [j|]; [|done]. simpl. eauto.
Qed.

Lemma standardResult_activates_wlp matchId w1 w2 draws t :
  wlp (standardResult matchId w1 w2 draws) (λ _ t', bothActive t' matchId) t.
Proof.
  unfold standardResult.
  wlp_step. wlp_step; [|wlp_step].
  wlp_step. wlp_step.
  wlp_step.
  eapply wlp_mono; [|apply (wlp_preserves frameOf), preserves_when, frame_eraseResult].
  intros [] s Hs. cbv beta.
  rewrite <- (frame_findMatch _ _ _ Hs) in *. clear Hs.
  repeat wlp_step.
  rewrite ?list_lookup_alter_eq in *.
  rewrite H1 in *. simplify_eq/=.
  pose proof (findIndex_is_Some _ _ _ H2) as Hone.
  pose proof (findIndex_is_Some _ _ _ H4) as Htwo.
  eapply bothActive_intro; norm_state.
  - rewrite !findIndex_alter by (by intros []).
    eassumption.
  - rewrite !list_lookup_alter_eq, H1. reflexivity.
  - rewrite !findIndex_alter by (by intros []).
    cbn [Match.playerOne Match.set_active Match.set_result]. eassumption.
  - rewrite !findIndex_alter by (by intros []).
    cbn [Match.playerTwo Match.set_active Match.set_result]. eassumption.
  - holdsAt_tac.
  - holdsAt_tac.
Qed.

(** ** The claims *)

(** Claim C10.  A call of [standardResult] that returns leaves both
    participants of the match active, whatever their flags were before; so
    reporting or re-reporting a result reactivates a participant who had
    withdrawn. *)
Theorem standardResult_activates matchId w1 w2 draws t t' :
  standardResult matchId w1 w2 draws t = (Eff.Return tt, t') →
  bothActive t' matchId.
Proof.
  intros Hrun. pose proof (standardResult_activates_wlp matchId w1 w2 draws t) as H.
  unfold wlp in H. by rewrite Hrun in H.
Qed.

(** In [doubleRoundRobin4] "A" withdraws, which forfeits "r1m1" and
    deactivates "A"; the result of "r1m1" is then reported again, and "A" is
    active. *)
Lemma standardResult_activates_witness :
  Player.active <$> thePlayer (state_after (RoundRobin_removePlayer "A" doubleRoundRobin4))
                               (Some "A") = Some false ∧
  bothActive
    (state_after (standardResult "r1m1" 1 0 0
       (state_after (RoundRobin_removePlayer "A" doubleRoundRobin4)))) "r1m1".
Proof.
  split; [vm_compute; reflexivity|].
  apply (standardResult_activates "r1m1" 1 0 0
           (state_after (RoundRobin_removePlayer "A" doubleRoundRobin4))).
  vm_compute. reflexivity.
Defined.

(** Claim C3.  [newPlayer] compares the status with "Playoffs", "Aborted"
    and "Finished", strings that no status ever is: a Swiss tournament in its
    playoffs accepts the player and appends it. *)
Theorem addPlayer_during_playoffs :
  Tournament.status swissPlayoffs = Status.playoffs ∧
  Swiss_addPlayer "Late" "late" 0 0 MissingResults.losses (λ _, "x") swissPlayoffs
  = (Eff.Return (Some 9%nat),
     Tournament.set_players
       (Tournament.players swissPlayoffs ++ [Player_new "Late" "late" 0 0]) swissPlayoffs).
Proof. split; vm_compute; reflexivity. Qed.

(** Claim C7.  With three players [Elimination.startEvent] throws a message
    that asks for 8 players, and with four players it starts: the guard
    enforces 4, the message states 8. *)
Theorem elimination_start_threshold pairSingle pairDouble :
  Elimination_startEvent pairSingle pairDouble (eliminationRegistration ["A"; "B"; "C"])
  = (Eff.Throw (TooFewPlayers "Elimination" 8 3), eliminationRegistration ["A"; "B"; "C"]) ∧
  Elimination_startEvent pairSingle pairDouble (eliminationRegistration ["A"; "B"; "C"; "D"])
  = (Eff.Return tt,
     pairSingle (Tournament.set_currentRound 1
       (Tournament.set_status Status.active
          (eliminationRegistration ["A"; "B"; "C"; "D"])))).
Proof. split; reflexivity. Qed.

(** Claim C6.  [RoundRobin.removePlayer] clears the slot of the player in
    rounds [currentRound + 1] to [lastRound - 1]: in [doubleRoundRobin4] the
    slot of "A" is cleared in rounds 2 to 5 and kept in round 6, the final
    scheduled round. *)
Theorem removePlayer_keeps_final_round :
  let r := RoundRobin_removePlayer "A" doubleRoundRobin4 in
  returned r ∧
  lastRound (Tournament.matches doubleRoundRobin4) = 6 ∧
  theMatch (state_after r) "r2m1" = Some (scheduled "r2m1" 2 None (Some "C") false) ∧
  theMatch (state_after r) "r5m1" = Some (scheduled "r5m1" 5 (Some "C") None false) ∧
  theMatch (state_after r) "r6m1" = Some (scheduled "r6m1" 6 (Some "B") (Some "A") false).
Proof.
  cbv zeta. split; [eexists; vm_compute; reflexivity|].
  repeat split; vm_compute; reflexivity.
Qed.

(** Claim C2.  [Swiss.eraseResult] in the playoffs runs the pull-back before
    it validates: erasing the bye of "P9", who is below the cut, throws and
    leaves "P9" active. *)
Theorem erase_bye_in_playoffs_mutates :
  let r := Swiss_eraseResult "bye" swissPlayoffs in
  r = (Eff.Throw TypeError,
       Tournament.set_players
         (alter (Player.set_active true) 8%nat (Tournament.players swissPlayoffs))
         swissPlayoffs) ∧
  Player.active <$> thePlayer swissPlayoffs (Some "P9") = Some false ∧
  Player.active <$> thePlayer (state_after r) (Some "P9") = Some true ∧
  state_after r ≠ swissPlayoffs.
Proof.
  cbv zeta. split; [vm_compute; reflexivity|].
  split; [vm_compute; reflexivity|].
  split; [vm_compute; reflexivity|].
  intros H. apply (f_equal (λ t, Player.active <$> thePlayer t (Some "P9"))) in H.
  vm_compute in H. discriminate H.
Qed.

(** Claim C5.  Reporting a result on a match of a later round, scheduled but
    never played, runs [Tournament.eraseResult], which lowers [matchCount]
    of the first player and then throws: the scoreboard of "A" no longer
    agrees with the empty history. *)
Theorem report_on_scheduled_match_breaks_scoreboard :
  let r := RoundRobin_result "r2m1" 1 0 None doubleRoundRobin4 in
  scoreboardsSound doubleRoundRobin4 ∧
  r.1 = Eff.Throw TypeError ∧
  thePlayer (state_after r) (Some "A")
  = Some (Player.mk "A" "A" 0 0 (-1) 0 0 0 true false []) ∧
  ¬ scoreboardsSound (state_after r).
Proof.
  cbv zeta. split; [|split; [|split]].
  - unfold scoreboardsSound. apply (bool_decide_unpack _). vm_compute. reflexivity.
  - vm_compute. reflexivity.
  - vm_compute. reflexivity.
  - unfold scoreboardsSound. intros H. apply (bool_decide_pack _) in H.
    vm_compute in H. exact H.
Qed.

(** Claim C4.  In the final, where [winnersPath] and [losersPath] are both
    [null], [eliminationResult] sets the status and returns before it looks
    at the loser: the tournament is finished and the loser "B" is still
    active. *)
Theorem final_loser_stays_active :
  let r := Elimination_result "f" 1 0 eliminationFinal in
  returned r ∧
  (Match.winnersPath <$> theMatch eliminationFinal "f") = Some None ∧
  (Match.losersPath <$> theMatch eliminationFinal "f") = Some None ∧
  Tournament.status (state_after r) = Status.finished ∧
  Player.active <$> thePlayer (state_after r) (Some "A") = Some true ∧
  Player.active <$> thePlayer (state_after r) (Some "B") = Some true.
Proof.
  cbv zeta. split; [eexists; vm_compute; reflexivity|].
  repeat split; vm_compute; reflexivity.
Qed.

Lemma advanceTo_returns next who s (Q : unit → Tournament.t → Prop) :
  is_Some (Tournament.matches s !! next) →
  is_Some (Tournament.players s !! who) →
  (∀ s', Player.id <$> Tournament.players s' = Player.id <$> Tournament.players s →
         routing <$> Tournament.matches s' = routing <$> Tournament.matches s →
         Q tt s') →
  wp (advanceTo (Some next) (Some who)) Q s.
Proof.
  intros Hn Hw HQ. unfold advanceTo.
  wp_step. wp_step. destruct (decide _).
  - wp_step. wp_step. wp_step. apply HQ; norm_state; [done|].
    by rewrite fmap_alter_same by (by intros []).
  - wp_step. wp_step. destruct (decide _).
    + repeat wp_step. apply HQ; norm_state; [done|].
      by rewrite !fmap_alter_same by (by intros []).
    + wp_step. by apply HQ.
Qed.

Lemma movePlayers_returns i m winner loser s :
  Tournament.matches s !! i = Some m → routed s m →
  is_Some (Tournament.players s !! winner) → is_Some (Tournament.players s !! loser) →
  wp (movePlayers (Some i) None None (Some winner) (Some loser)) (λ _ _, True) s.
Proof.
  intros Hm Hroute Hw Hl. unfold movePlayers.
  repeat (wp_step; try at_same Hm).
  unfold routed in Hroute.
  destruct (Match.winnersPath m) as [w|] eqn:Hw'; [|by wp_step].
  destruct Hroute as [[iw Hiw] Hroute].
  wp_step. wp_step. rewrite Hiw. wp_step.
  apply advanceTo_returns; norm_state; [solve_is_Some..|].
  intros s' Hps Hms.
  wp_step.
  apply wp_matchAt_ex.
  { eapply is_Some_same_keys; eauto. }
  intros m1 Hm1.
  pose proof (lookup_same_keys routing _ _ _ _ _ Hms Hm Hm1) as [= Hid Hwp Hlp].
  rewrite Hlp.
  destruct (Match.losersPath m) as [l|] eqn:Hl'.
  - destruct Hroute as [il Hil].
    wp_step. apply wp_findMatch. rewrite (routing_findMatch _ _ _ Hms), Hil.
    apply advanceTo_returns;
      [eapply is_Some_same_keys; eauto using findIndex_is_Some..|done].
  - by wp_step.
Qed.

Lemma eliminationResult_returns matchId w1 w2 t :
  w1 ≠ w2 → reportable t matchId → wp (eliminationResult matchId w1 w2) (λ _ _, True) t.
Proof.
  intros Hne (i & m & one & two & Hi & Hm & Hact & Hone & Htwo & Hroute).
  unfold eliminationResult. destruct (decide (w1 = w2)) as [|_]; [done|].
  repeat (wp_step; try at_same Hm; rewrite ?Hi, ?Hone, ?Htwo, ?Hact; cbv beta iota).
  cbn [fst snd].
  destruct (decide (w1 > w2)).
  all: eapply movePlayers_returns; norm_state;
    [ by rewrite !list_lookup_alter_eq, Hm
    | unfold routed in *; norm_state; norm_records;
      destruct (Match.winnersPath m); [|done];
      destruct Hroute as [? Hroute]; split;
      [ by rewrite !findIndex_alter by (by intros []) |];
      destruct (Match.losersPath m); [|done];
      by rewrite !findIndex_alter by (by intros [])
    | solve_is_Some.. ].
Qed.

(** In the playoffs [Swiss.result] and [RoundRobin.result] are
    [eliminationResult], and [Elimination.result] always is. *)
Lemma Swiss_result_playoffs matchId w1 w2 draws t :
  Tournament.status t = Status.playoffs →
  Swiss_result matchId w1 w2 draws t = eliminationResult matchId w1 w2 t.
Proof.
  intros Hst. unfold Swiss_result, Eff.bind, Eff.get.
  by destruct (decide (Tournament.status t = Status.playoffs)).
Qed.

(** Claim C9, as stated, fails: the final "f" of [swissPlayoffs] is a known
    match whose slots are still empty, and a result 1-0 on it throws; the
    final of [eliminationFinal], once reported 1-0, throws on the corrected
    result 0-1. *)
Lemma known_match_with_winner_throws :
  is_Some (theMatch swissPlayoffs "f") ∧
  Swiss_result "f" 1 0 None swissPlayoffs = (Eff.Throw TypeError, swissPlayoffs) ∧
  is_Some (theMatch (state_after (Elimination_result "f" 1 0 eliminationFinal)) "f") ∧
  (Elimination_result "f" 0 1
     (state_after (Elimination_result "f" 1 0 eliminationFinal))).1 = Eff.Throw TypeError.
Proof.
  split; [eexists; vm_compute; reflexivity|].
  split; [vm_compute; reflexivity|].
  split; [eexists; vm_compute; reflexivity|].
  vm_compute. reflexivity.
Qed.

(** Claim C9, amended.  With equal wins [eliminationResult] throws at once
    and the tournament is as before.  With different wins it returns on every
    match that is known and active, whose slots name enrolled players and
    whose paths name existing matches ([reportable]). *)
Theorem eliminationResult_needs_winner matchId w1 w2 t :
  (w1 = w2 →
   eliminationResult matchId w1 w2 t = (Eff.Throw EliminationNeedsWinner, t)) ∧
  (w1 ≠ w2 → reportable t matchId → returned (eliminationResult matchId w1 w2 t)).
Proof.
  split.
  - intros ->. unfold eliminationResult. by destruct (decide (w2 = w2)).
  - intros Hne Hrep. pose proof (eliminationResult_returns _ _ _ _ Hne Hrep) as H.
    apply wp_returns in H as (a & s' & Hrun & _). exists a. by rewrite Hrun.
Qed.

(** The semi-final "s1" of [swissPlayoffs]: 1-1 is refused, 1-0 is taken. *)
Lemma eliminationResult_needs_winner_witness :
  eliminationResult "s1" 1 1 swissPlayoffs = (Eff.Throw EliminationNeedsWinner, swissPlayoffs) ∧
  returned (eliminationResult "s1" 1 0 swissPlayoffs).
Proof.
  split.
  - apply (eliminationResult_needs_winner "s1" 1 1 swissPlayoffs). reflexivity.
  - apply (eliminationResult_needs_winner "s1" 1 0 swissPlayoffs); [discriminate|].
    exists 5%nat, (Match.mk "s1" 2 1 (Some "P1") (Some "P7") true Score.zero (Some "f") None),
      0%nat, 6%nat.
    repeat split; try (vm_compute; reflexivity).
    eexists. vm_compute. reflexivity.
Defined.

(** *** The bye loop *)

Lemma filterRefs_elem {A} (P : A → Prop) `{∀ x, Decision (P x)} (l : list A) n k :
  k ∈ filterRefs P l n ↔ ∃ k' x, k = (n + k')%nat ∧ l !! k' = Some x ∧ P x.
Proof.
  revert n. induction l as [|y l IH]; intros n; simpl.
  - split; [by intros ?%elem_of_nil|]. by intros (k' & x & _ & ? & _).
  - destruct (decide (P y)) as [Hy|Hy].
    + rewrite elem_of_cons, IH. split.
      * intros [->|(k' & x & -> & Hx & HP)].
        -- exists 0%nat, y. split; [lia|done].
        -- exists (S k'), x. split; [lia|done].
      * intros ([|k'] & x & -> & Hx & HP); simpl in *.
        -- left. lia.
        -- right. exists k', x. split; [lia|done].
    + rewrite IH. split.
      * intros (k' & x & -> & Hx & HP). exists (S k'), x. split; [lia|done].
      * intros ([|k'] & x & -> & Hx & HP); simpl in *.
        -- by simplify_eq.
        -- exists k', x. split; [lia|done].
Qed.

Lemma filterRefs_filter {A} (P : A → Prop) `{∀ x, Decision (P x)} (l : list A) n :
  Forall2 (λ k x, ∃ k', k = (n + k')%nat ∧ l !! k' = Some x) (filterRefs P l n) (filter P l).
Proof.
  revert n. induction l as [|y l IH]; intros n; simpl; [constructor|].
  rewrite filter_cons. destruct (decide (P y)).
  - constructor.
    + exists 0%nat. split; [lia|done].
    + eapply Forall2_impl; [apply (IH (S n))|].
      intros k x (k' & -> & Hx). exists (S k'). split; [lia|done].
  - eapply Forall2_impl; [apply (IH (S n))|].
    intros k x (k' & -> & Hx). exists (S k'). split; [lia|done].
Qed.

Lemma foldl_alter_lookup {A} (f : A → A) (ks : list nat) (l : list A) i :
  (∀ x, f (f x) = f x) →
  foldl (λ l k, alter f k l) l ks !! i
  = if decide (i ∈ ks) then f <$> l !! i else l !! i.
Proof.
  intros Hf. revert l. induction ks as [|k ks IH]; intros l.
  - destruct (decide (i ∈ [])) as [Hin|_]; [by apply elem_of_nil in Hin|done].
  - change (foldl (λ l k, alter f k l) l (k :: ks))
      with (foldl (λ l k, alter f k l) (alter f k l) ks).
    rewrite IH, list_lookup_alter.
    destruct (decide (i ∈ ks)) as [Hin|Hin], (decide (i ∈ k :: ks)) as [Hin'|Hin'],
      (decide (k = i)) as [->|Hne]; try done.
    + destruct (l !! i); simpl; by rewrite ?Hf.
    + destruct Hin'. apply elem_of_cons. by right.
    + destruct Hin'. apply elem_of_cons. by right.
    + apply elem_of_cons in Hin' as [?|?]; [congruence|done].
    + destruct Hin'. apply elem_of_cons. by left.
Qed.

Lemma award_fold t p byes :
  let p' := foldl (λ p b, award t b p) p byes in
  let n := Z.of_nat (length byes) in
  Player.id p' = Player.id p ∧
  Player.results p'
  = Player.results p ++ ((λ b, byeEntry t (Match.id b) (Match.round b)) <$> byes) ∧
  (byes ≠ [] → Player.pairingBye p' = true) ∧
  Player.matchCount p' = Player.matchCount p + n ∧
  Player.matchPoints p' = Player.matchPoints p + n * Tournament.pointsForWin t ∧
  Player.gameCount p' = Player.gameCount p + n * ceilHalf (Tournament.bestOf t) ∧
  Player.gamePoints p'
  = Player.gamePoints p
    + n * (ceilHalf (Tournament.bestOf t) * Tournament.pointsForWin t).
Proof.
  revert p. induction byes as [|b byes IH]; intros p; cbn zeta.
  - simpl. rewrite app_nil_r. repeat split; (done || lia).
  - change (foldl (λ p b, award t b p) p (b :: byes))
      with (foldl (λ p b, award t b p) (award t b p) byes).
    destruct (IH (award t b p)) as (Hid & Hres & Hbye & Hmc & Hmp & Hgc & Hgp).
    rewrite Hid, Hres, Hmc, Hmp, Hgc, Hgp.
    change (length (b :: byes)) with (S (length byes)). rewrite Nat2Z.inj_succ.
    destruct p; cbn. rewrite <- app_assoc. repeat split; try lia.
    intros _. destruct byes as [|b' byes]; [done|]. by apply Hbye.
Qed.

Lemma awardList_lookup t byes ps j p x :
  ps !! j = Some p →
  findIndex (λ q, Some (Player.id q) = Some x) ps = Some j →
  awardList t byes ps !! j
  = Some (foldl (λ p b, award t b p) p (filter (λ b, Match.playerOne b = Some x) byes)).
Proof.
  revert ps p. induction byes as [|b byes IH]; intros ps p Hp Hj; [done|].
  unfold awardList in *. cbn [foldl]. rewrite filter_cons.
  destruct (findIndex (λ p0, Some (Player.id p0) = Match.playerOne b) ps) as [jb|] eqn:Hjb.
  - destruct (decide (Match.playerOne b = Some x)) as [Hb|Hb].
    + rewrite Hb, Hj in Hjb. simplify_eq. cbn [foldl].
      apply IH.
      * by rewrite list_lookup_alter_eq, Hp.
      * by rewrite findIndex_alter by (by intros []).
    + apply IH.
      * rewrite list_lookup_alter_ne; [done|]. intros ->.
        apply findIndex_Some in Hjb as (q & Hq & Hid & _).
        apply findIndex_Some in Hj as (q' & Hq' & Hid' & _).
        congruence.
      * by rewrite findIndex_alter by (by intros []).
  - destruct (decide (Match.playerOne b = Some x)) as [Hb|Hb]; [|by apply IH].
    rewrite Hb, Hj in Hjb. done.
Qed.

Lemma config_eq s t :
  frameOf s = frameOf t →
  Tournament.pointsForWin s = Tournament.pointsForWin t ∧
  Tournament.bestOf s = Tournament.bestOf t ∧
  Tournament.currentRound s = Tournament.currentRound t.
Proof.
  intros [=]. by repeat split.
Qed.

Lemma frame_swissBye k : preserves frameOf (swissBye k).
Proof. unfold swissBye. repeat (frame_step || apply frame_recordResult). Qed.

Lemma swissBye_exact k s :
  wlp (swissBye k)
    (λ _ s', ∃ b j,
       Tournament.matches s !! k = Some b ∧
       findIndex (λ p, Some (Player.id p) = Match.playerOne b) (Tournament.players s)
       = Some j ∧
       s' = Tournament.set_players (alter (award s b) j (Tournament.players s))
              (Tournament.set_matches (alter (walkover s) k (Tournament.matches s)) s)) s.
Proof.
  unfold swissBye. repeat wlp_step.
  eexists _, _. split; [eassumption|]. split; [eassumption|].
  by rewrite list_alter_alter_eq.
Qed.

Lemma award_same s t b b' :
  frameOf s = frameOf t → wiring b' = wiring b → award s b' = award t b.
Proof.
  intros (Hw & Hb & _)%config_eq [= Hid Hround _ _ _ _].
  unfold award, byeEntry. by rewrite Hw, Hb, Hid, Hround.
Qed.

Lemma walkover_same s t : frameOf s = frameOf t → walkover s = walkover t.
Proof. intros (_ & Hb & _)%config_eq. unfold walkover. by rewrite Hb. Qed.

Lemma frame_findPlayer s t slot :
  frameOf s = frameOf t →
  findIndex (λ p, Some (Player.id p) = slot) (Tournament.players s)
  = findIndex (λ p, Some (Player.id p) = slot) (Tournament.players t).
Proof.
  intros Hs%frame_players.
  exact (findIndex_same_keys Player.id (λ x, Some x = slot) _ _ Hs).
Qed.

Lemma byes_loop paired ks byes :
  Forall2 (λ k b, Tournament.matches paired !! k = Some b) ks byes →
  ∀ s, frameOf s = frameOf paired →
  wlp (Eff.forEach ks swissBye)
    (λ _ s',
       frameOf s' = frameOf paired ∧
       Tournament.players s' = awardList paired byes (Tournament.players s) ∧
       Tournament.matches s'
       = foldl (λ l k, alter (walkover paired) k l) (Tournament.matches s) ks ∧
       Forall (λ b, is_Some (findIndex (λ p, Some (Player.id p) = Match.playerOne b)
                               (Tournament.players paired))) byes) s.
Proof.
  induction 1 as [|k b ks byes Hk _ IH]; intros s Hs.
  - by apply wlp_ret.
  - cbn [Eff.forEach]. apply wlp_bind.
    eapply wlp_mono; [|apply swissBye_exact].
    intros [] s1 (b' & j & Hb' & Hj & ->).
    pose proof (lookup_same_keys wiring _ _ _ _ _ (frame_matches _ _ Hs) Hk Hb') as Hwire.
    rewrite (award_same _ _ _ _ Hs Hwire), (walkover_same _ _ Hs).
    assert (Match.playerOne b' = Match.playerOne b) as Hone by (by injection Hwire).
    eapply wlp_mono; [|apply IH].
    + intros [] s' (Hs' & Hps & Hms & Hfound). norm_state.
      split; [done|]. split; [|split].
      * rewrite Hps. unfold awardList. cbn [foldl]. by rewrite <- Hone, Hj.
      * by rewrite Hms.
      * constructor; [|done]. rewrite <- Hone, <- (frame_findPlayer _ _ _ Hs), Hj. eauto.
    + rewrite <- Hs. unfold frameOf. norm_state.
      by rewrite !fmap_alter_same by (by intros []).
Qed.

Lemma swissByes_materialise paired :
  wlp swissByes (λ _ after, materialised paired after) paired.
Proof.
  unfold swissByes. apply wlp_bind, wlp_get.
  set (P := isSwissBye (Tournament.currentRound paired)).
  eapply wlp_mono; [|apply (byes_loop paired _ (filter P (Tournament.matches paired)))]; [|..|done].
  2:{ eapply Forall2_impl; [apply filterRefs_filter|].
      by intros k b (k' & -> & Hb). }
  intros [] after (Hframe & Hps & Hms & Hfound) i bye Hi Hbye. cbn zeta.
  assert (bye ∈ filter P (Tournament.matches paired)) as Hin.
  { apply list_elem_of_filter. split; [done|]. by eapply list_elem_of_lookup_2. }
  split; [|split].
  - rewrite Hms, foldl_alter_lookup by (by intros []).
    rewrite decide_True, Hi; [done|].
    apply filterRefs_elem. exists i, bye. done.
  - apply list_elem_of_filter. done.
  - rewrite Forall_forall in Hfound. destruct (Hfound _ Hin) as [j Hj].
    pose proof Hj as (before & Hbefore & Hx & _)%findIndex_Some.
    symmetry in Hx. rewrite Hx in *.
    pose proof (awardList_lookup paired (filter P (Tournament.matches paired))
                  _ _ _ _ Hbefore Hj) as Hnow.
    rewrite <- Hps in Hnow.
    set (mine := filter (λ b, Match.playerOne b = Some (Player.id before))
                   (filter P (Tournament.matches paired))) in *.
    destruct (award_fold paired before mine) as (_ & Hres & Hbye' & Hmc & Hmp & Hgc & Hgp).
    eexists before, _. split; [|split; [|split; [|split]]].
    + unfold thePlayer. rewrite Hj. exact Hbefore.
    + unfold thePlayer. rewrite (frame_findPlayer _ _ _ Hframe), Hj. exact Hnow.
    + exact Hres.
    + apply Hbye'. intros Hnil.
      assert (bye ∈ mine) as Hmine by (by apply list_elem_of_filter).
      rewrite Hnil in Hmine. by apply elem_of_nil in Hmine.
    + done.
Qed.

(** The bye loop returns when every bye names an enrolled player. *)
Lemma wp_preserves {X A} (proj : Tournament.t → X) (c : Eff.t A) s :
  preserves proj c → wp c (λ _ _, True) s → wp c (λ _ s', proj s' = proj s) s.
Proof.
  intros Hc. specialize (Hc s). unfold wp. by destruct (c s) as [[a|e] s'].
Qed.

Lemma swissBye_returns k s b :
  Tournament.matches s !! k = Some b →
  is_Some (findIndex (λ p, Some (Player.id p) = Match.playerOne b) (Tournament.players s)) →
  wp (swissBye k) (λ _ s', frameOf s' = frameOf s) s.
Proof.
  intros Hb [j Hj]. apply wp_preserves; [apply frame_swissBye|].
  unfold swissBye. wp_step. wp_step. at_same Hb. wp_step. wp_step. rewrite Hj.
  by repeat wp_step.
Qed.

Lemma enrolled_frame s s' k :
  frameOf s' = frameOf s →
  (∃ b, Tournament.matches s !! k = Some b ∧
        is_Some (findIndex (λ p, Some (Player.id p) = Match.playerOne b)
                   (Tournament.players s))) →
  ∃ b, Tournament.matches s' !! k = Some b ∧
       is_Some (findIndex (λ p, Some (Player.id p) = Match.playerOne b)
                  (Tournament.players s')).
Proof.
  intros Hs (b & Hb & Hfound).
  pose proof (frame_matches _ _ Hs) as Hms.
  apply (f_equal (λ l, l !! k)) in Hms. rewrite !list_lookup_fmap, Hb in Hms.
  destruct (Tournament.matches s' !! k) as [b'|]; [|done].
  injection Hms as [= _ _ Hone _ _ _]. exists b'. split; [done|].
  by rewrite Hone, (frame_findPlayer _ _ _ Hs).
Qed.

Lemma byes_loop_returns ks :
  ∀ s,
    Forall (λ k, ∃ b, Tournament.matches s !! k = Some b ∧
                      is_Some (findIndex (λ p, Some (Player.id p) = Match.playerOne b)
                                 (Tournament.players s))) ks →
    wp (Eff.forEach ks swissBye) (λ _ _, True) s.
Proof.
  induction ks as [|k ks IH]; intros s Hks; [done|].
  apply Forall_cons in Hks as [(b & Hb & Hfound) Hks].
  cbn [Eff.forEach]. apply wp_bind.
  eapply wp_mono; [|by eapply swissBye_returns].
  intros [] s1 Hs1. apply IH.
  eapply Forall_impl; [exact Hks|]. intros k'. by apply enrolled_frame.
Qed.

Lemma swissByes_returns paired :
  byesEnrolled paired → wp swissByes (λ _ after, materialised paired after) paired.
Proof.
  intros Hbyes.
  assert (wp swissByes (λ _ _, True) paired) as Hret.
  { unfold swissByes. apply wp_bind, wp_get. apply byes_loop_returns.
    apply Forall_forall. intros k (k' & b & -> & Hb & Hbye)%filterRefs_elem.
    exists b. split; [done|].
    unfold byesEnrolled in Hbyes. rewrite Forall_forall in Hbyes.
    destruct (Hbyes b) as [p Hp]; [by eapply list_elem_of_lookup_2|done|].
    apply thePlayer_Some in Hp as (j & Hj & _). eauto. }
  pose proof (swissByes_materialise paired) as Hpost.
  unfold wp, wlp in *. by destruct (swissByes paired) as [[[]|e] s'].
Qed.

Lemma Swiss_startEvent_paired pair t :
  ¬ Z.of_nat (length (Tournament.players t)) < 8 →
  Swiss_startEvent pair t = swissByes (Swiss_startPaired pair t).
Proof.
  intros Hn. unfold Swiss_startEvent, Swiss_startPaired.
  unfold Eff.bind at 1. cbn [Eff.get]. rewrite decide_False by done.
  unfold Eff.bind, Eff.get, Eff.modify, Eff.when. cbv zeta.
  by destruct (bool_decide _).
Qed.

Lemma Swiss_nextRound_paired pair pairSingle pairDouble sort t :
  Forall (λ m, Match.active m = false) (Tournament.matches t) →
  Tournament.status t = Status.active →
  Tournament.currentRound t ≠ Tournament.rounds t →
  Swiss_nextRound pair pairSingle pairDouble sort t = swissByes (Swiss_nextPaired pair t).
Proof.
  intros Hact Hst Hround. unfold Swiss_nextRound, Swiss_nextPaired.
  unfold Eff.bind at 1. cbn [Eff.get].
  rewrite decide_False.
  2:{ intros (m & Hm & Hm')%Exists_exists. rewrite Forall_forall in Hact.
      specialize (Hact m Hm). congruence. }
  rewrite decide_False by (by intros []).
  by rewrite decide_False.
Qed.

(** Claim C8.  [Swiss.startEvent] with eight players or more, and
    [Swiss.nextRound] on an active event without active matches before its
    last scheduled round, return when the byes that [Pairings.swiss] made
    name enrolled players; whenever the two methods return from such a
    pairing, every match of the new round with [playerTwo = null] is
    materialised: the match records [ceil(bestOf / 2)] wins for [playerOne],
    and the player has the bye in [results], the points on the scoreboard and
    [pairingBye] set. *)
Theorem swiss_byes_materialised pair pairSingle pairDouble sort t :
  (8 ≤ Z.of_nat (length (Tournament.players t)) →
   byesEnrolled (Swiss_startPaired pair t) →
   ∃ t', Swiss_startEvent pair t = (Eff.Return tt, t') ∧
         materialised (Swiss_startPaired pair t) t') ∧
  (Forall (λ m, Match.active m = false) (Tournament.matches t) →
   Tournament.status t = Status.active →
   Tournament.currentRound t ≠ Tournament.rounds t →
   byesEnrolled (Swiss_nextPaired pair t) →
   ∃ t', Swiss_nextRound pair pairSingle pairDouble sort t = (Eff.Return tt, t') ∧
         materialised (Swiss_nextPaired pair t) t') ∧
  (∀ t', Swiss_startEvent pair t = (Eff.Return tt, t') →
         materialised (Swiss_startPaired pair t) t') ∧
  (∀ t', Swiss_nextRound pair pairSingle pairDouble sort t = (Eff.Return tt, t') →
         Tournament.currentRound t ≠ Tournament.rounds t →
         materialised (Swiss_nextPaired pair t) t').
Proof.
  split; [|split; [|split]].
  - intros Hn Hbyes. rewrite Swiss_startEvent_paired by lia.
    apply swissByes_returns in Hbyes as ([] & t' & ? & ?)%wp_returns. eauto.
  - intros Hact Hst Hround Hbyes. rewrite Swiss_nextRound_paired by done.
    apply swissByes_returns in Hbyes as ([] & t' & ? & ?)%wp_returns. eauto.
  - intros t' Hrun.
    destruct (decide (Z.of_nat (length (Tournament.players t)) < 8)) as [Hn|Hn].
    { revert Hrun. unfold Swiss_startEvent, Eff.bind, Eff.get.
      by rewrite decide_True. }
    rewrite Swiss_startEvent_paired in Hrun by done.
    pose proof (swissByes_materialise (Swiss_startPaired pair t)) as H.
    unfold wlp in H. by rewrite Hrun in H.
  - intros t' Hrun Hround. revert Hrun. unfold Swiss_nextRound, Swiss_nextPaired.
    unfold Eff.bind at 1. cbn [Eff.get].
    destruct (decide _); [done|]. destruct (decide _); [done|].
    destruct (decide _); [done|].
    unfold Eff.bind at 1. cbn [Eff.modify].
    unfold Eff.bind at 1. cbn [Eff.modify].
    intros Hrun. pose proof (swissByes_materialise (Swiss_nextPaired pair t)) as H.
    unfold wlp, Swiss_nextPaired in H. by rewrite Hrun in H.
Qed.

(** The first two rounds of the nine-player event: "P9" gets the bye of
    "r1m5" and of "r2m5". *)
Lemma swiss_byes_materialised_witness :
  (Tournament.matches (Swiss_startPaired pairInOrder swissRegistration) !! 4%nat
   = Some (Match.mk "r1m5" 1 5 (Some "P9") None false Score.zero None None) ∧
   ∃ t', Swiss_startEvent pairInOrder swissRegistration = (Eff.Return tt, t') ∧
         materialised (Swiss_startPaired pairInOrder swissRegistration) t') ∧
  (Tournament.matches (Swiss_nextPaired pairInOrder swissRoundPlayed) !! 9%nat
   = Some (Match.mk "r2m5" 2 5 (Some "P9") None false Score.zero None None) ∧
   ∃ t', Swiss_nextRound pairInOrder id id (λ _ l, l) swissRoundPlayed = (Eff.Return tt, t') ∧
         materialised (Swiss_nextPaired pairInOrder swissRoundPlayed) t').
Proof.
  split; (split; [vm_compute; reflexivity|]).
  - apply (proj1 (swiss_byes_materialised pairInOrder id id (λ _ l, l) swissRegistration)).
    + vm_compute. discriminate.
    + apply (bool_decide_unpack _). vm_compute. reflexivity.
  - apply (proj1 (proj2 (swiss_byes_materialised pairInOrder id id (λ _ l, l)
                           swissRoundPlayed))).
    + apply (bool_decide_unpack _). vm_compute. reflexivity.
    + vm_compute. reflexivity.
    + vm_compute. discriminate.
    + apply (bool_decide_unpack _). vm_compute. reflexivity.
Defined.

(** *** Report, then erase *)

Lemma findIndex_app_first {A} (P : A → Prop) `{∀ x, Decision (P x)} (l : list A) x rest :
  Forall (λ y, ¬ P y) l → P x → findIndex P (l ++ x :: rest) = Some (length l).
Proof.
  intros Hl Hx. eapply findIndex_first; [|exact Hx|].
  - by rewrite list_lookup_middle.
  - intros j y Hy Hj. rewrite lookup_app_l in Hy by done.
    rewrite Forall_lookup in Hl. by eapply Hl.
Qed.

Lemma list_find_app_first {A} (P : A → Prop) `{∀ x, Decision (P x)} (l : list A) x rest :
  Forall (λ y, ¬ P y) l → P x → list_find P (l ++ x :: rest) = Some (length l, x).
Proof.
  intros Hl Hx. apply list_find_Some. split; [by rewrite list_lookup_middle|].
  split; [done|]. intros j y Hy Hj. rewrite lookup_app_l in Hy by done.
  rewrite Forall_lookup in Hl. by eapply Hl.
Qed.

Lemma alter_at {A} (f g : A → A) i (l : list A) x :
  l !! i = Some x → f x = g x → alter f i l = alter g i l.
Proof. intros Hx Hfg. apply list_alter_ext; [|done]. intros y. rewrite Hx. by intros [= <-]. Qed.

Lemma alter_id_at {A} (f : A → A) i (l : list A) x :
  l !! i = Some x → f x = x → alter f i l = l.
Proof.
  intros Hx Hf. rewrite (alter_at f id i l x) by done. by apply list_alter_id.
Qed.

Lemma eraseOne_exact s j p matchId rs e rest :
  Tournament.players s !! j = Some p →
  Player.results p = rs ++ e :: rest →
  Forall (λ r, Result.matchId r ≠ matchId) rs →
  Result.matchId e = matchId →
  eraseOne (Some j) matchId s
  = (Eff.Return tt,
     Tournament.set_players (alter (uncredit e (length rs)) j (Tournament.players s)) s).
Proof.
  intros Hp Hres Hrs He.
  assert (wp (eraseOne (Some j) matchId)
            (λ _ s', s' = Tournament.set_players
                            (alter (uncredit e (length rs)) j (Tournament.players s)) s) s)
    as (a & s' & -> & ->)%wp_returns; [|by destruct a].
  unfold eraseOne. wp_step. wp_step.
  at_same Hp.
  rewrite Hres, (list_find_app_first (λ r, Result.matchId r = matchId)) by done.
  repeat wp_step.
  rewrite !list_alter_alter_eq. f_equal.
  eapply alter_at; [done|].
  unfold compose, uncredit. destruct p as [? ? ? ? ? ? ? ? ? ? results]. cbn in *. subst results.
  rewrite <- He in Hrs.
  by rewrite (list_find_app_first (λ r, Result.matchId r = Result.matchId e)).
Qed.

Lemma lookup_alter_total {A} (f : A → A) a k (l : list A) :
  alter f a l !! k = (if decide (a = k) then f else id) <$> l !! k.
Proof.
  rewrite list_lookup_alter. destruct (decide (a = k)) as [->|]; [done|].
  by destruct (l !! k).
Qed.

Lemma standardResult_exact t matchId w1 w2 draws i m one two :
  findIndex (λ m, Some (Match.id m) = Some matchId) (Tournament.matches t) = Some i →
  Tournament.matches t !! i = Some m →
  Match.active m = true →
  findIndex (λ p, Some (Player.id p) = Match.playerOne m) (Tournament.players t) = Some one →
  findIndex (λ p, Some (Player.id p) = Match.playerTwo m) (Tournament.players t) = Some two →
  standardResult matchId w1 w2 draws t
  = (Eff.Return tt, reported t i one two m w1 w2 draws).
Proof.
  intros Hi Hm Hact Hone Htwo.
  assert (wp (standardResult matchId w1 w2 draws)
            (λ _ s', s' = reported t i one two m w1 w2 draws) t)
    as (a & s' & -> & ->)%wp_returns; [|by destruct a].
  unfold standardResult.
  wp_step. wp_step. rewrite Hi. wp_step. wp_step. at_same Hm.
  rewrite Hact. cbn [negb Eff.when]. wp_step. wp_step.
  repeat (wp_step; try at_same Hm; rewrite ?Hone, ?Htwo; cbv beta iota).
  unfold reported, entryOne, entryTwo.
  rewrite !list_alter_alter_eq.
  rewrite (alter_at _ (λ m, Match.set_active false (Match.set_result (Score.mk w1 w2 draws) m))
             i _ m Hm); [done|].
  unfold compose. by destruct m as [? ? ? ? ? ? []].
Qed.

Ltac unfold_player :=
  cbv [uncredit credit Player.set_results Player.set_gameCount Player.set_gamePoints
       Player.set_matchPoints Player.set_matchCount Player.set_active Player.set_pairingBye
       Player.id Player.alias Player.seed Player.initialByes Player.matchCount
       Player.matchPoints Player.gameCount Player.gamePoints Player.active
       Player.pairingBye Player.results].

Lemma uncredit_credit e p :
  Player.active p = true →
  uncredit e (length (Player.results p)) (credit e (Player.set_active true p)) = p.
Proof.
  destruct p as [? ? ? ? ? ? ? ? ? ? rs]. cbn. intros ->. unfold_player.
  f_equal; try lia. by rewrite delete_middle, app_nil_r.
Qed.

Lemma uncredit_credit_twice e1 e2 p :
  Player.active p = true →
  uncredit e2 (length (Player.results p))
    (uncredit e1 (length (Player.results p))
       (credit e2 (credit e1 (Player.set_active true (Player.set_active true p))))) = p.
Proof.
  destruct p as [? ? ? ? ? ? ? ? ? ? rs]. cbn. intros ->. unfold_player.
  f_equal; try lia.
  rewrite <- app_assoc. cbn [app]. rewrite (delete_middle rs [e2] e1).
  by rewrite delete_middle, app_nil_r.
Qed.

Lemma erase_after_report t matchId w1 w2 draws i m one two p1 p2 :
  findIndex (λ m, Some (Match.id m) = Some matchId) (Tournament.matches t) = Some i →
  Tournament.matches t !! i = Some m →
  Match.active m = true → Match.result m = Score.zero →
  findIndex (λ p, Some (Player.id p) = Match.playerOne m) (Tournament.players t) = Some one →
  findIndex (λ p, Some (Player.id p) = Match.playerTwo m) (Tournament.players t) = Some two →
  Tournament.players t !! one = Some p1 → Tournament.players t !! two = Some p2 →
  Player.active p1 = true → Player.active p2 = true →
  Forall (λ r, Result.matchId r ≠ matchId) (Player.results p1) →
  Forall (λ r, Result.matchId r ≠ matchId) (Player.results p2) →
  Tournament.status t ≠ Status.playoffs →
  Swiss_eraseResult matchId (reported t i one two m w1 w2 draws) = (Eff.Return tt, t).
Proof.
  intros Hi Hm Hact Hzero Hone Htwo Hp1 Hp2 Ha1 Ha2 Hr1 Hr2 Hst.
  assert (Match.id m = matchId) as Hid.
  { apply findIndex_Some in Hi as (m' & Hm' & [= Hid] & _). congruence. }
  assert (∃ x1, Match.playerOne m = Some x1) as [x1 Hx1].
  { apply findIndex_Some in Hone as (p & _ & Hp & _). eauto. }
  assert (∃ x2, Match.playerTwo m = Some x2) as [x2 Hx2].
  { apply findIndex_Some in Htwo as (p & _ & Hp & _). eauto. }
  assert (wp (Swiss_eraseResult matchId) (λ _ s', s' = t)
            (reported t i one two m w1 w2 draws))
    as (a & s' & -> & ->)%wp_returns; [|by destruct a].
  unfold Swiss_eraseResult, reported.
  wp_step. wp_step. rewrite Hi. wp_step. wp_step. at_same Hm.
  wp_step. wp_step. rewrite bool_decide_false by done. cbn [Eff.when].
  wp_step. wp_step.
  unfold eraseResult.
  wp_step. wp_step. at_same Hm.
  destruct (decide (Match.playerOne m = None ∨ Match.playerTwo m = None))
    as [[Hn|Hn]|_]; [congruence..|].
  repeat (wp_step; try at_same Hm; rewrite ?Hone, ?Htwo; cbv beta iota).
  assert (Tournament.set_players (Tournament.players t)
            (Tournament.set_matches (Tournament.matches t) t) = t) as Ht
    by (by destruct t).
  assert (alter (Match.set_result Score.zero) i
            (alter (Match.set_active true) i
               (alter (λ m0, Match.set_active false
                               (Match.set_result (Score.mk w1 w2 draws) m0)) i
                  (Tournament.matches t))) = Tournament.matches t) as ->.
  { rewrite !list_alter_alter_eq. eapply alter_id_at; [done|].
    unfold compose. destruct m; cbn in *. by subst. }
  destruct (decide (one = two)) as [<-|Hne].
  - rewrite Hp1 in Hp2. injection Hp2 as <-.
    rewrite !list_alter_alter_eq.
    unfold wp at 1.
    erewrite (eraseOne_exact _ one _ (Match.id m) (Player.results p1)
                (entryOne t m w1 w2 draws) [entryTwo t m w1 w2 draws]);
      [|norm_state; by rewrite list_lookup_alter_eq, Hp1
       |unfold compose; destruct p1; cbn; by rewrite <- app_assoc
       |by rewrite Hid|done].
    norm_state. rewrite !list_alter_alter_eq.
    wp_step. wp_step. at_same Hm.
    unfold wp.
    erewrite (eraseOne_exact _ one _ (Match.id m) (Player.results p1)
                (entryTwo t m w1 w2 draws) []);
      [|norm_state; by rewrite list_lookup_alter_eq, Hp1
       |unfold compose; destruct p1; cbn; rewrite <- app_assoc; exact (delete_middle _ _ _)
       |by rewrite Hid|done].
    norm_state. rewrite !list_alter_alter_eq.
    rewrite (alter_id_at _ one _ p1 Hp1); [done|].
    unfold compose. by apply uncredit_credit_twice.
  - unfold wp at 1.
    erewrite (eraseOne_exact _ one _ (Match.id m) (Player.results p1)
                (entryOne t m w1 w2 draws) []);
      [|norm_state;
        by rewrite list_lookup_alter_ne, list_lookup_alter_eq, list_lookup_alter_ne,
          list_lookup_alter_eq, Hp1 by done
       |by destruct p1
       |by rewrite Hid|done].
    norm_state.
    wp_step. wp_step. at_same Hm.
    unfold wp.
    erewrite (eraseOne_exact _ two _ (Match.id m) (Player.results p2)
                (entryTwo t m w1 w2 draws) []);
      [|norm_state;
        by rewrite list_lookup_alter_ne, list_lookup_alter_eq, list_lookup_alter_ne,
          list_lookup_alter_eq, list_lookup_alter_ne, Hp2 by done
       |by destruct p2
       |by rewrite Hid|done].
    norm_state.
    etransitivity; [|exact Ht]. f_equal.
    apply list_eq. intros k. rewrite !lookup_alter_total.
    destruct (decide (one = k)) as [Hk1|Hk1], (decide (two = k)) as [Hk2|Hk2].
    + congruence.
    + subst k. rewrite Hp1. cbn. f_equal. by apply uncredit_credit.
    + subst k. rewrite Hp2. cbn. f_equal. by apply uncredit_credit.
    + by destruct (Tournament.players t !! k).
Qed.

(** *** Report, then erase, in the playoffs *)

Lemma wp_exact {A} (c : Eff.t A) a s' (Q : A → Tournament.t → Prop) s :
  c s = (Eff.Return a, s') → Q a s' → wp c Q s.
Proof. intros Hc HQ. apply wp_returns. eauto. Qed.

Lemma set_matches_same s : Tournament.set_matches (Tournament.matches s) s = s.
Proof. by destruct s. Qed.


Lemma advanceTo_exact s iw j n p :
  Tournament.matches s !! iw = Some n →
  Tournament.players s !! j = Some p →
  advanceTo (Some iw) (Some j) s
  = (Eff.Return tt,
     Tournament.set_matches (alter (advance (Player.id p)) iw (Tournament.matches s)) s).
Proof.
  intros Hn Hp.
  assert (wp (advanceTo (Some iw) (Some j))
            (λ _ s', s' = Tournament.set_matches
                            (alter (advance (Player.id p)) iw (Tournament.matches s)) s) s)
    as (a & s' & -> & ->)%wp_returns; [|by destruct a].
  unfold advanceTo. wp_step. wp_step. at_same Hn.
  destruct (decide (Match.playerOne n = None)) as [H1|H1].
  - wp_step. wp_step. at_same Hp. wp_step.
    f_equal. eapply alter_at; [done|]. unfold advance. by rewrite decide_True.
  - wp_step. wp_step. at_same Hn.
    destruct (decide (Match.playerTwo n = None)) as [H2|H2].
    + repeat (wp_step; try at_same Hp). rewrite list_alter_alter_eq.
      f_equal. eapply alter_at; [done|]. unfold advance, compose.
      by rewrite decide_False, decide_True.
    + wp_step. rewrite (alter_id_at (advance (Player.id p)) iw _ n Hn).
      * by rewrite set_matches_same.
      * unfold advance. by rewrite !decide_False.
Qed.



(** The player at index [j] has the id [x]. *)
Lemma idAt_alter (f : Player.t → Player.t) a j x (l : list Player.t) :
  (∀ q, Player.id (f q) = Player.id q) →
  holdsAt (λ p, Player.id p = x) j l → holdsAt (λ p, Player.id p = x) j (alter f a l).
Proof.
  intros Hf (p & Hp & Hx). unfold holdsAt. rewrite lookup_alter_total, Hp.
  destruct (decide (a = j)); cbn; eexists; split; try done. by rewrite Hf.
Qed.

Ltac solve_idAt :=
  norm_state; repeat (apply idAt_alter; [by intros []|]); unfold holdsAt; eauto.

Lemma advanceTo_at s iw j x :
  is_Some (Tournament.matches s !! iw) →
  holdsAt (λ p, Player.id p = x) j (Tournament.players s) →
  advanceTo (Some iw) (Some j) s
  = (Eff.Return tt,
     Tournament.set_matches (alter (advance x) iw (Tournament.matches s)) s).
Proof. intros [n Hn] (p & Hp & <-). by eapply advanceTo_exact. Qed.


Lemma is_Some_advance x a j (l : list Match.t) :
  is_Some (l !! j) → is_Some (alter (advance x) a l !! j).
Proof. apply is_Some_alter. Qed.

Lemma findIndex_advance x k i (l : list Match.t) :
  findIndex (λ m, Some (Match.id m) = k) (alter (advance x) i l)
  = findIndex (λ m, Some (Match.id m) = k) l.
Proof.
  apply findIndex_alter. intros n. unfold advance.
  by repeat case_decide; destruct n.
Qed.


Ltac read H0 :=
  match goal with
  | H : _ !! _ = Some ?b |- _ =>
    is_var b;
    repeat (rewrite list_lookup_alter_eq in H
            || rewrite list_lookup_alter_ne in H by congruence);
    rewrite H0 in H; cbn [fmap option_fmap option_map] in H;
    apply (inj Some) in H; subst b
  end; norm_records.

Ltac lookups :=
  norm_state;
  repeat (rewrite list_lookup_alter_eq || rewrite list_lookup_alter_ne by congruence);
  eauto.

Lemma eliminationResult_exact t matchId w1 w2 i m one two p1 p2 x1 x2 w iw next il :
  w1 ≠ w2 →
  findIndex (λ m, Some (Match.id m) = Some matchId) (Tournament.matches t) = Some i →
  Tournament.matches t !! i = Some m →
  Match.active m = true →
  Match.playerOne m = Some x1 → Match.playerTwo m = Some x2 →
  findIndex (λ p, Some (Player.id p) = Some x1) (Tournament.players t) = Some one →
  findIndex (λ p, Some (Player.id p) = Some x2) (Tournament.players t) = Some two →
  Tournament.players t !! one = Some p1 → Tournament.players t !! two = Some p2 →
  Player.id p1 = x1 → Player.id p2 = x2 →
  Match.winnersPath m = Some w →
  findIndex (λ m, Some (Match.id m) = Some w) (Tournament.matches t) = Some iw →
  Tournament.matches t !! iw = Some next → iw ≠ i →
  match Match.losersPath m with
  | None => il = None
  | Some l =>
    ∃ k lower, il = Some k ∧
      findIndex (λ m, Some (Match.id m) = Some l) (Tournament.matches t) = Some k ∧
      Tournament.matches t !! k = Some lower ∧ k ≠ i ∧ k ≠ iw
  end →
  eliminationResult matchId w1 w2 t
  = (Eff.Return tt, decided t i one two iw il m x1 x2 w1 w2).
Proof.
  intros Hne Hi Hm Hact Hx1 Hx2 Hone Htwo Hp1 Hp2 Hid1 Hid2 Hw Hiw Hnext Hiwi Hl.
  assert (wp (eliminationResult matchId w1 w2)
            (λ _ s', s' = decided t i one two iw il m x1 x2 w1 w2) t)
    as (a & s' & -> & ->)%wp_returns; [|by destruct a].
  unfold eliminationResult. rewrite decide_False by done.
  wp_step. wp_step. rewrite Hi. wp_step. wp_step. read Hm.
  rewrite Hx1. wp_step. wp_step. rewrite Hone. wp_step. wp_step. read Hm.
  rewrite Hx2. wp_step. wp_step. rewrite Htwo. wp_step. wp_step. read Hm.
  rewrite Hact. wp_step. wp_step.
  wp_step. wp_step. wp_step. wp_step. read Hm.
  wp_step. wp_step. wp_step. wp_step. wp_step. wp_step. wp_step. wp_step. read Hm.
  wp_step. wp_step. wp_step. wp_step. wp_step. wp_step.
  cbn [fst snd]. norm_state. rewrite !list_alter_alter_eq.
  fold (decisionOne t m w1 w2). fold (decisionTwo t m w1 w2).
  rewrite (alter_at _ (λ m, Match.set_active false
                              (Match.set_result
                                 (Score.mk w1 w2 (Score.draws (Match.result m))) m))
             i _ m Hm) by (unfold compose; by destruct m as [? ? ? ? ? ? []]).
  unfold decided.
  destruct (decide (w1 > w2)) as [Hgt|Hgt]; unfold movePlayers.
  all: wp_step; wp_step; read Hm; rewrite Hw; wp_step; wp_step; rewrite Hiw.
  all: wp_step; eapply wp_exact;
    [eapply advanceTo_at; [norm_state; solve_is_Some|solve_idAt]|].
  all: norm_state; wp_step; wp_step; read Hm.
  all: destruct (Match.losersPath m) as [l|];
    [destruct Hl as (k & lower & -> & Hk & Hlower & Hki & Hkw)|subst il].
  all: try (wp_step; wp_step; rewrite findIndex_advance;
            rewrite findIndex_alter by (by intros []); rewrite Hk;
            eapply wp_exact;
            [eapply advanceTo_at; [norm_state; solve_is_Some|solve_idAt]|]).
  all: try wp_step.
  all: by norm_state.
Qed.




(** With fractional points the subtraction of [Tournament.eraseResult] need
    not undo the addition of [standardResult]: a player at 0.1 points who is
    credited 0.2 and then loses the entry is left with 0.10000000000000003.
    With 0.5 and 1 the round trip is exact, as it is on integers. *)
Lemma fractional_points_round_trip :
  creditedThenErased Binary64.tenth Binary64.fifth
  = SpecFloat.S754_finite false 7205759403792796 (-56) ∧
  creditedThenErased Binary64.tenth Binary64.fifth ≠ Binary64.tenth ∧
  creditedThenErased Binary64.half Binary64.one = Binary64.half.
Proof.
  split; [vm_compute; reflexivity|].
  split; [|vm_compute; reflexivity].
  intros H. vm_compute in H. discriminate H.
Qed.



(** *** The guards of [newPlayer] and of the [startEvent] methods *)

(** Whatever its status, a Swiss tournament takes a player with a new id as
    long as the limit is not reached: the status guard of [newPlayer] never
    fires. *)
Lemma newPlayer_swiss_any_status alias id seed initialByes t :
  Tournament.format t = Format.swiss →
  ¬ (Tournament.playerLimit t > 0 ∧
     Z.of_nat (length (Tournament.players t)) = Tournament.playerLimit t) →
  ¬ Exists (λ player, Player.id player = id) (Tournament.players t) →
  newPlayer alias id seed initialByes t
  = (Eff.Return (Some (length (Tournament.players t))),
     Tournament.set_players
       (Tournament.players t ++ [Player_new alias id seed initialByes]) t).
Proof.
  intros Hformat Hlimit Hid. unfold newPlayer, Eff.bind, Eff.get.
  destruct (decide _) as [|_]; [done|].
  replace (existsb _ _) with false by (by destruct (Tournament.status t)).
  destruct (decide (Exists _ _)) as [|_]; [done|].
  destruct (decide _) as [[_ ?]|_]; done.
Qed.

(** A call of [newPlayer] that throws has changed nothing. *)
Lemma newPlayer_throws_unchanged alias id seed initialByes t e t' :
  newPlayer alias id seed initialByes t = (Eff.Throw e, t') → t' = t.
Proof.
  unfold newPlayer, Eff.bind, Eff.get, Eff.modify, Eff.throw, Eff.ret.
  destruct (decide _); [congruence|]. destruct (existsb _ _); [congruence|].
  destruct (decide _); [congruence|]. destruct (decide _); congruence.
Qed.

(** The thresholds that the three [startEvent] methods enforce, and the ones
    their messages state. *)
Lemma startEvent_too_few pair pairSingle pairDouble t :
  let n := Z.of_nat (length (Tournament.players t)) in
  (n < 8 → Swiss_startEvent pair t = (Eff.Throw (TooFewPlayers "Swiss" 8 n), t)) ∧
  (n < 4 → RoundRobin_startEvent pair t = (Eff.Throw (TooFewPlayers "Round-Robin" 4 n), t)) ∧
  (n < 4 → Elimination_startEvent pairSingle pairDouble t
           = (Eff.Throw (TooFewPlayers "Elimination" 8 n), t)).
Proof.
  cbv zeta. unfold Swiss_startEvent, RoundRobin_startEvent, Elimination_startEvent,
    Eff.bind, Eff.get.
  repeat split; intros Hn; by destruct (decide _).
Qed.

Lemma Elimination_startEvent_enough pairSingle pairDouble t :
  4 ≤ Z.of_nat (length (Tournament.players t)) →
  returned (Elimination_startEvent pairSingle pairDouble t).
Proof.
  intros Hn. unfold Elimination_startEvent, Eff.bind, Eff.get, Eff.modify, returned.
  destruct (decide _); [lia|]. cbn. destruct (Tournament.double t); by eexists.
Qed.

(** *** Calls that return keep the scoreboards sound *)

Lemma sumZ_app l1 l2 : sumZ (l1 ++ l2) = sumZ l1 + sumZ l2.
Proof. unfold sumZ. induction l1 as [|x l1 IH]; simpl; lia. Qed.

Lemma sumZ_delete {A} (f : A → Z) (l : list A) k e :
  l !! k = Some e → sumZ (f <$> delete k l) = sumZ (f <$> l) - f e.
Proof.
  revert k. induction l as [|x l IH]; intros [|k] Hk; simplify_eq/=.
  - unfold sumZ. simpl. lia.
  - apply IH in Hk. unfold sumZ in *. simpl. rewrite Hk. lia.
Qed.

Lemma credit_sound e p : scoreboardSound p → scoreboardSound (credit e p).
Proof.
  destruct p as [? ? ? ? ? ? ? ? ? ? rs]. unfold scoreboardSound. unfold_player.
  intros (-> & -> & ->). rewrite !fmap_app, !sumZ_app, length_app. unfold sumZ. simpl.
  repeat split; lia.
Qed.

Lemma uncredit_sound e k p :
  Player.results p !! k = Some e → scoreboardSound p → scoreboardSound (uncredit e k p).
Proof.
  destruct p as [? ? ? ? ? ? ? ? ? ? rs]. unfold scoreboardSound. unfold_player.
  intros Hk (-> & -> & ->).
  rewrite !(sumZ_delete _ _ _ _ Hk), length_delete by eauto.
  apply lookup_lt_Some in Hk. repeat split; lia.
Qed.

Lemma keeps_bind {A B} (c : Eff.t A) (k : A → Eff.t B) :
  keeps c → (∀ a, keeps (k a)) → keeps (Eff.bind c k).
Proof.
  intros Hc Hk s Hs. apply wlp_bind. eapply wlp_mono; [|by apply Hc].
  intros a s' Hs'. by apply Hk.
Qed.

Lemma keeps_pure {A} (c : Eff.t A) : (∀ s, (c s).2 = s) → keeps c.
Proof.
  intros Hc s Hs. unfold wlp. specialize (Hc s).
  destruct (c s) as [[a|e] s']; simpl in *; by subst.
Qed.

Lemma keeps_setPlayer r f :
  (∀ p, scoreboardSound p → scoreboardSound (f p)) → keeps (setPlayer r f).
Proof.
  intros Hf s Hs. destruct r as [i|]; [|done]. apply wlp_setPlayer_Some.
  unfold scoreboardsSound in *. cbn. apply Forall_alter; auto.
Qed.

Lemma keeps_setMatch r f : keeps (setMatch r f).
Proof. intros s Hs. by destruct r. Qed.

Lemma keeps_modify f :
  (∀ s, scoreboardsSound s → scoreboardsSound (f s)) → keeps (Eff.modify f).
Proof. intros Hf s Hs. by apply Hf. Qed.

Lemma keeps_when c body : keeps body → keeps (Eff.when c body).
Proof. destruct c; [done|]. intros _ s Hs. done. Qed.

Lemma keeps_forEach {A} (l : list A) body :
  (∀ x, keeps (body x)) → keeps (Eff.forEach l body).
Proof.
  intros Hbody. induction l as [|x l IH]; [by intros s Hs|].
  apply keeps_bind; auto.
Qed.

Lemma keeps_eraseOne player matchId : keeps (eraseOne player matchId).
Proof.
  intros s Hs. unfold eraseOne.
  wlp_step. destruct player as [j|]; [|done]. wlp_step.
  destruct (list_find _ _) as [[k e]|] eqn:Hfind.
  - repeat wlp_step. rewrite !list_alter_alter_eq.
    apply list_find_Some in Hfind as (Hk & He & Hfirst).
    unfold scoreboardsSound in *. cbn. apply Forall_alter; [done|].
    intros p' Hp' Hsound. assert (p' = p) as -> by congruence.
    assert (findIndex (λ res, Result.matchId res = Result.matchId e) (Player.results p)
            = Some k) as Hidx.
    { eapply findIndex_first; [done..|]. intros j' y Hy Hlt. rewrite He. by eapply Hfirst. }
    pose proof (uncredit_sound e k p Hk Hsound) as Hun.
    unfold compose. revert Hun Hidx. destruct p. unfold_player. cbn [splice1].
    by intros Hun ->.
  - wlp_step. wlp_step. done.
Qed.

Lemma keeps_ret {A} (a : A) : keeps (Eff.ret a).
Proof. by apply keeps_pure. Qed.
Lemma keeps_throw {A} e : keeps (@Eff.throw A e).
Proof. by apply keeps_pure. Qed.
Lemma keeps_get : keeps Eff.get.
Proof. by apply keeps_pure. Qed.
Lemma keeps_findPlayer slot : keeps (findPlayer slot).
Proof. by apply keeps_pure. Qed.
Lemma keeps_findMatch id : keeps (findMatch id).
Proof. by apply keeps_pure. Qed.
Lemma keeps_playerAt r : keeps (playerAt r).
Proof. apply keeps_pure. intros s. unfold playerAt. by destruct (r ≫= _). Qed.
Lemma keeps_matchAt r : keeps (matchAt r).
Proof. apply keeps_pure. intros s. unfold matchAt. by destruct (r ≫= _). Qed.

Lemma Forall_removelast {A} (P : A → Prop) (l : list A) :
  Forall P l → Forall P (removelast l).
Proof.
  induction 1 as [|x l Hx Hl IH]; [constructor|].
  simpl. destruct l; [constructor|]. by constructor.
Qed.

Lemma Forall_splice1 {A} (P : A → Prop) index (l : list A) :
  Forall P l → Forall P (splice1 index l).
Proof. destruct index; [apply Forall_delete|apply Forall_removelast]. Qed.

Ltac keeps_step :=
  lazymatch goal with
  | |- keeps (Eff.bind _ _) => apply keeps_bind; [|intros ?]
  | |- keeps (Eff.ret _) => apply keeps_ret
  | |- keeps (Eff.throw _) => apply keeps_throw
  | |- keeps Eff.get => apply keeps_get
  | |- keeps (findPlayer _) => apply keeps_findPlayer
  | |- keeps (findMatch _) => apply keeps_findMatch
  | |- keeps (playerAt _) => apply keeps_playerAt
  | |- keeps (matchAt _) => apply keeps_matchAt
  | |- keeps (setMatch _ _) => apply keeps_setMatch
  | |- keeps (eraseOne _ _) => apply keeps_eraseOne
  | |- keeps (Eff.when _ _) => apply keeps_when
  | |- keeps (Eff.forEach _ _) => apply keeps_forEach; intros ?
  | |- keeps (setPlayer _ _) =>
      apply keeps_setPlayer; first [apply credit_sound | by intros []]
  | |- keeps (Eff.modify _) => apply keeps_modify; by intros []
  | |- keeps (match ?x with _ => _ end) => destruct x
  end.

Lemma keeps_recordResult r e : keeps (recordResult r e).
Proof. unfold recordResult. keeps_step. Qed.

Lemma keeps_eraseResult match_ : keeps (eraseResult match_).
Proof. unfold eraseResult. repeat keeps_step. Qed.

Lemma keeps_pullFrom next former : keeps (pullFrom next former).
Proof. unfold pullFrom. repeat keeps_step. Qed.

Lemma keeps_pullBack match_ one two : keeps (pullBack match_ one two).
Proof. unfold pullBack. repeat (keeps_step || apply keeps_pullFrom). Qed.

Lemma keeps_advanceTo next who : keeps (advanceTo next who).
Proof. unfold advanceTo. repeat keeps_step. Qed.

Lemma keeps_movePlayers match_ w l winner loser :
  keeps (movePlayers match_ w l winner loser).
Proof. unfold movePlayers. repeat (keeps_step || apply keeps_advanceTo). Qed.

Lemma keeps_eliminationResult matchId w1 w2 : keeps (eliminationResult matchId w1 w2).
Proof.
  unfold eliminationResult.
  repeat (keeps_step || apply keeps_recordResult || apply keeps_eraseResult
          || apply keeps_pullBack || apply keeps_movePlayers).
Qed.

Lemma keeps_standardResult matchId w1 w2 draws : keeps (standardResult matchId w1 w2 draws).
Proof.
  unfold standardResult.
  repeat (keeps_step || apply keeps_recordResult || apply keeps_eraseResult).
Qed.

Lemma keeps_eliminationRemovePlayer player : keeps (eliminationRemovePlayer player).
Proof.
  unfold eliminationRemovePlayer.
  repeat (keeps_step || apply keeps_eliminationResult).
Qed.

Lemma keeps_newPlayer alias id seed initialByes : keeps (newPlayer alias id seed initialByes).
Proof.
  unfold newPlayer. repeat keeps_step.
  apply keeps_modify. intros s Hs. unfold scoreboardsSound in *. cbn.
  apply Forall_app. split; [done|]. constructor; [|constructor]. by repeat split.
Qed.

Lemma keeps_swissByes : keeps swissByes.
Proof.
  unfold swissByes, swissBye. repeat (keeps_step || apply keeps_recordResult).
Qed.

Lemma keeps_roundRobinByes skipEmpty : keeps (roundRobinByes skipEmpty).
Proof.
  unfold roundRobinByes, roundRobinBye. repeat (keeps_step || apply keeps_recordResult).
Qed.

Lemma keeps_removalGuards id : keeps (removalGuards id).
Proof. unfold removalGuards. repeat keeps_step. Qed.

Lemma keeps_discard player : keeps (discard player).
Proof.
  unfold discard. repeat keeps_step.
  apply keeps_modify. intros s Hs. unfold scoreboardsSound in *. cbn.
  by apply Forall_splice1.
Qed.

Lemma keeps_forfeit player : keeps (forfeit player).
Proof. unfold forfeit. repeat (keeps_step || apply keeps_standardResult). Qed.

Lemma keeps_clearFutureSlot player i : keeps (clearFutureSlot player i).
Proof. unfold clearFutureSlot. repeat keeps_step. Qed.

Lemma keeps_lateEntry missing player matchID i : keeps (lateEntry missing player matchID i).
Proof. unfold lateEntry. repeat (keeps_step || apply keeps_recordResult). Qed.

Section EveryOperation.
Variable Pairings_swiss : Tournament.t → Tournament.t.
Variable Pairings_roundRobin : Tournament.t → Tournament.t.
Variable Pairings_singleElimination : Tournament.t → Tournament.t.
Variable Pairings_doubleElimination : Tournament.t → Tournament.t.
Variable Tiebreakers_sort : Tournament.t → list nat → list nat.

(** The pairing functions create matches; they are assumed not to spoil the
    scoreboards. *)
Hypothesis swiss_sound :
  ∀ t, scoreboardsSound t → scoreboardsSound (Pairings_swiss t).
Hypothesis roundRobin_sound :
  ∀ t, scoreboardsSound t → scoreboardsSound (Pairings_roundRobin t).
Hypothesis singleElimination_sound :
  ∀ t, scoreboardsSound t → scoreboardsSound (Pairings_singleElimination t).
Hypothesis doubleElimination_sound :
  ∀ t, scoreboardsSound t → scoreboardsSound (Pairings_doubleElimination t).

Ltac keeps_all :=
  repeat first
    [ keeps_step
    | apply keeps_recordResult | apply keeps_eraseResult | apply keeps_pullBack
    | apply keeps_standardResult | apply keeps_eliminationResult
    | apply keeps_eliminationRemovePlayer | apply keeps_newPlayer
    | apply keeps_swissByes | apply keeps_roundRobinByes | apply keeps_removalGuards
    | apply keeps_discard | apply keeps_forfeit | apply keeps_clearFutureSlot
    | apply keeps_lateEntry
    | apply keeps_modify; assumption ].

Lemma keeps_startPlayoffs :
  keeps (startPlayoffs Pairings_singleElimination Pairings_doubleElimination
           Tiebreakers_sort).
Proof. unfold startPlayoffs. keeps_all. Qed.

(** Property X9.  With integer points (the numbers of this development,
    whose sums and differences are exact), every method of the three classes
    that returns keeps the scoreboards sound: for each player, [matchPoints]
    and [gamePoints] are the sums over [results] and [matchCount] is its
    length.  The pairing functions are assumed to leave sound scoreboards
    sound. *)
Lemma returning_operations_keep_scoreboards op t t' :
  scoreboardsSound t →
  run Pairings_swiss Pairings_roundRobin Pairings_singleElimination
      Pairings_doubleElimination Tiebreakers_sort op t = (Eff.Return tt, t') →
  scoreboardsSound t'.
Proof.
  intros Hs Hrun.
  assert (keeps (run Pairings_swiss Pairings_roundRobin Pairings_singleElimination
                     Pairings_doubleElimination Tiebreakers_sort op)) as Hkeeps.
  { destruct op; cbn [run];
      unfold Swiss_startEvent, Swiss_nextRound, Swiss_result, Swiss_eraseResult,
        Swiss_addPlayer, Swiss_removePlayer, RoundRobin_startEvent, RoundRobin_nextRound,
        RoundRobin_result, RoundRobin_eraseResult, RoundRobin_addPlayer,
        RoundRobin_removePlayer, Elimination_startEvent, Elimination_result,
        Elimination_addPlayer, Elimination_removePlayer, Swiss_result, Swiss_eraseResult;
      keeps_all; apply keeps_startPlayoffs. }
  specialize (Hkeeps t Hs). unfold wlp in Hkeeps. by rewrite Hrun in Hkeeps.
Qed.

End EveryOperation.
(** ** Further properties of the methods *)

(** *** Adding and removing players *)

(** Property X1.  [Tournament.newPlayer], and with it [addPlayer] of
    [RoundRobin] and [Elimination], turns a player away in exactly three
    cases, checked in this order: the player limit is reached, the id is
    already enrolled, the tournament has left registration and is not Swiss.
    A refused call leaves the tournament as it was; an accepted one appends
    one player and touches nothing else. *)
Theorem newPlayer_accepts alias id seed initialByes t :
  (limitReached t →
   newPlayer alias id seed initialByes t
   = (Eff.Throw (PlayerMaximumReached (Tournament.playerLimit t)), t)) ∧
  (¬ limitReached t → enrolledId t id →
   newPlayer alias id seed initialByes t = (Eff.Throw (DuplicatePlayer id), t)) ∧
  (¬ limitReached t → ¬ enrolledId t id → lateForFormat t →
   newPlayer alias id seed initialByes t
   = (Eff.Throw (NoLateAdding (Tournament.format t)), t)) ∧
  (¬ limitReached t → ¬ enrolledId t id → ¬ lateForFormat t →
   newPlayer alias id seed initialByes t
   = (Eff.Return (Some (length (Tournament.players t))),
      Tournament.set_players
        (Tournament.players t ++ [Player_new alias id seed initialByes]) t)).
Proof.
  unfold limitReached, enrolledId, lateForFormat, newPlayer, Eff.bind, Eff.get.
  replace (existsb _ _) with false by (by destruct (Tournament.status t)).
  repeat split; intros; repeat (destruct (decide _); try done).
Qed.

Lemma newPlayer_accepts_witness :
  RoundRobin_addPlayer "E" "A" 0 doubleRoundRobin4 = (Eff.Throw (DuplicatePlayer "A"), doubleRoundRobin4) ∧
  RoundRobin_addPlayer "E" "E" 0 doubleRoundRobin4
  = (Eff.Throw (NoLateAdding Format.double_round_robin), doubleRoundRobin4) ∧
  Elimination_addPlayer "E" "E" 0 (eliminationRegistration ["A"; "B"])
  = (Eff.Return (Some 2%nat),
     Tournament.set_players
       (Tournament.players (eliminationRegistration ["A"; "B"]) ++ [Player_new "E" "E" 0 0])
       (eliminationRegistration ["A"; "B"])).
Proof.
  split; [|split].
  - apply (proj1 (proj2 (newPlayer_accepts "E" "A" 0 0 doubleRoundRobin4))).
    + unfold limitReached. vm_compute. intros [H _]. discriminate H.
    + apply (bool_decide_unpack _). vm_compute. reflexivity.
  - apply (proj1 (proj2 (proj2 (newPlayer_accepts "E" "E" 0 0 doubleRoundRobin4)))).
    + unfold limitReached. vm_compute. intros [H _]. discriminate H.
    + apply (bool_decide_unpack _). vm_compute. reflexivity.
    + split; discriminate.
  - apply (proj2 (proj2 (proj2 (newPlayer_accepts "E" "E" 0 0
                                  (eliminationRegistration ["A"; "B"]))))).
    + unfold limitReached. vm_compute. intros [H _]. discriminate H.
    + apply (bool_decide_unpack _). vm_compute. reflexivity.
    + intros [H _]. by apply H.
Defined.

Lemma removalGuards_unknown id t :
  thePlayer t (Some id) = None → removalGuards id t = (Eff.Throw (CantFindPlayer id), t).
Proof.
  unfold thePlayer, removalGuards, Eff.bind, findPlayer. intros Hp.
  destruct (findIndex _ _) as [j|] eqn:Hj; [|done].
  apply findIndex_is_Some in Hj as [p Hj]. cbn in Hp. by rewrite Hj in Hp.
Qed.

Lemma removalGuards_known id t p :
  thePlayer t (Some id) = Some p →
  ∃ j, findIndex (λ p, Some (Player.id p) = Some id) (Tournament.players t) = Some j ∧
       Tournament.players t !! j = Some p ∧
       removalGuards id t
       = if negb (Player.active p) then (Eff.Throw (AlreadyRemoved (Player.alias p)), t)
         else if decide (Tournament.status t = Status.finished ∨
                         Tournament.status t = Status.aborted)
              then (Eff.Throw (TournamentOver (Tournament.status t)), t)
              else (Eff.Return (Some j), t).
Proof.
  intros (j & Hj & Hp)%thePlayer_Some. exists j. split; [done|]. split; [done|].
  unfold removalGuards, Eff.bind, findPlayer, playerAt, Eff.get. rewrite Hj. cbn.
  rewrite Hp. destruct (Player.active p); cbn; [|done]. by destruct (decide _).
Qed.

Lemma bind_throw {A B} (c : Eff.t A) (k : A → Eff.t B) e s s' :
  c s = (Eff.Throw e, s') → Eff.bind c k s = (Eff.Throw e, s').
Proof. unfold Eff.bind. by intros ->. Qed.

Lemma bind_return {A B} (c : Eff.t A) (k : A → Eff.t B) a s s' :
  c s = (Eff.Return a, s') → Eff.bind c k s = k a s'.
Proof. unfold Eff.bind. by intros ->. Qed.

(** Property X2.  The three [removePlayer] methods refuse an unknown id, a
    player who is no longer active, and any removal once the tournament is
    finished or aborted, in this order; a refused call leaves the tournament
    as it was. *)
Theorem removePlayer_refuses id t :
  (thePlayer t (Some id) = None →
   Swiss_removePlayer id t = (Eff.Throw (CantFindPlayer id), t) ∧
   RoundRobin_removePlayer id t = (Eff.Throw (CantFindPlayer id), t) ∧
   Elimination_removePlayer id t = (Eff.Throw (CantFindPlayer id), t)) ∧
  (∀ p, thePlayer t (Some id) = Some p → Player.active p = false →
   Swiss_removePlayer id t = (Eff.Throw (AlreadyRemoved (Player.alias p)), t) ∧
   RoundRobin_removePlayer id t = (Eff.Throw (AlreadyRemoved (Player.alias p)), t) ∧
   Elimination_removePlayer id t = (Eff.Throw (AlreadyRemoved (Player.alias p)), t)) ∧
  (∀ p, thePlayer t (Some id) = Some p → Player.active p = true →
   Tournament.status t = Status.finished ∨ Tournament.status t = Status.aborted →
   Swiss_removePlayer id t = (Eff.Throw (TournamentOver (Tournament.status t)), t) ∧
   RoundRobin_removePlayer id t = (Eff.Throw (TournamentOver (Tournament.status t)), t) ∧
   Elimination_removePlayer id t = (Eff.Throw (TournamentOver (Tournament.status t)), t)).
Proof.
  unfold Swiss_removePlayer, RoundRobin_removePlayer, Elimination_removePlayer.
  split; [|split].
  - intros Hp. repeat split; by apply bind_throw, removalGuards_unknown.
  - intros p (j & _ & _ & Hg)%removalGuards_known Ha. rewrite Ha in Hg.
    repeat split; by apply bind_throw.
  - intros p (j & _ & _ & Hg)%removalGuards_known Ha Hst. rewrite Ha in Hg. cbn in Hg.
    rewrite decide_True in Hg by done.
    repeat split; by apply bind_throw.
Qed.

Lemma removePlayer_refuses_witness :
  Swiss_removePlayer "P0" swissPlayoffs = (Eff.Throw (CantFindPlayer "P0"), swissPlayoffs) ∧
  Swiss_removePlayer "P2" swissPlayoffs = (Eff.Throw (AlreadyRemoved "P2"), swissPlayoffs) ∧
  Elimination_removePlayer "A" (Tournament.set_status Status.finished eliminationFinal)
  = (Eff.Throw (TournamentOver Status.finished),
     Tournament.set_status Status.finished eliminationFinal).
Proof.
  split; [|split].
  - apply (proj1 (removePlayer_refuses "P0" swissPlayoffs)). vm_compute. reflexivity.
  - apply (proj1 (proj2 (removePlayer_refuses "P2" swissPlayoffs))
             (loser "P2" "m1" "P1" false)); vm_compute; reflexivity.
  - apply (proj2 (proj2 (removePlayer_refuses "A"
                           (Tournament.set_status Status.finished eliminationFinal)))
             (winner "A" "s1" "D" true)); [vm_compute; reflexivity..|by left].
Defined.

Lemma findIndex_ext {A} (P Q : A → Prop) `{∀ x, Decision (P x)} `{∀ x, Decision (Q x)}
    (l : list A) :
  (∀ x, P x ↔ Q x) → findIndex P l = findIndex Q l.
Proof.
  intros HPQ. induction l as [|x l IH]; [done|].
  rewrite !findIndex_cons, IH. destruct (HPQ x).
  destruct (decide (P x)), (decide (Q x)); tauto.
Qed.

Lemma findIndex_None {A} (P : A → Prop) `{∀ x, Decision (P x)} (l : list A) :
  Forall (λ x, ¬ P x) l → findIndex P l = None.
Proof.
  induction 1 as [|x l Hx _ IH]; [done|].
  by rewrite findIndex_cons, IH, decide_False.
Qed.

Lemma discard_exact j p t :
  findIndex (λ q, Some (Player.id q) = Some (Player.id p)) (Tournament.players t) = Some j →
  Tournament.players t !! j = Some p →
  discard (Some j) t
  = (Eff.Return tt, Tournament.set_players (delete j (Tournament.players t)) t).
Proof.
  intros Hj Hp. unfold discard, Eff.bind, playerAt, Eff.modify. cbn. rewrite Hp.
  rewrite (findIndex_ext _ (λ q, Some (Player.id q) = Some (Player.id p))), Hj; [done|].
  intros q. split; congruence.
Qed.

Lemma remove_registration_exact id t j p :
  Tournament.status t = Status.registration →
  findIndex (λ p, Some (Player.id p) = Some id) (Tournament.players t) = Some j →
  Tournament.players t !! j = Some p → Player.active p = true →
  Swiss_removePlayer id t
  = (Eff.Return p, Tournament.set_players (delete j (Tournament.players t)) t) ∧
  RoundRobin_removePlayer id t
  = (Eff.Return p, Tournament.set_players (delete j (Tournament.players t)) t) ∧
  Elimination_removePlayer id t
  = (Eff.Return p, Tournament.set_players (delete j (Tournament.players t)) t).
Proof.
  intros Hst Hj Hpj Ha.
  assert (thePlayer t (Some id) = Some p) as Hp by (unfold thePlayer; by rewrite Hj).
  destruct (removalGuards_known _ _ _ Hp) as (j' & Hj' & _ & Hg).
  rewrite Hj in Hj'. injection Hj' as <-.
  rewrite Ha in Hg. cbn in Hg.
  rewrite decide_False in Hg by (rewrite Hst; intros [|]; discriminate).
  pose proof Hj as (q & Hq & [= Hid] & _)%findIndex_Some.
  rewrite Hpj in Hq. injection Hq as <-.
  assert (discard (Some j) t
          = (Eff.Return tt, Tournament.set_players (delete j (Tournament.players t)) t))
    as Hdiscard by (apply (discard_exact j p); [by rewrite Hid|done]).
  unfold Swiss_removePlayer, RoundRobin_removePlayer, Elimination_removePlayer.
  repeat split.
  all: rewrite (bind_return (removalGuards id) _ _ _ _ Hg); unfold Eff.bind at 1;
    cbn [Eff.get].
  all: rewrite decide_True by done.
  all: unfold Eff.bind at 1, playerAt; cbn; rewrite Hpj.
  all: by rewrite (bind_return (discard (Some j)) _ _ _ _ Hdiscard).
Qed.

(** Property X3.  During registration the three [removePlayer] methods take
    the player out of [players]: the first one carrying the id, the others
    keeping their order; the call returns the player and changes nothing
    else. *)
Theorem removePlayer_registration id t p :
  Tournament.status t = Status.registration →
  thePlayer t (Some id) = Some p → Player.active p = true →
  ∃ before after,
    Tournament.players t = before ++ p :: after ∧
    Forall (λ q, Player.id q ≠ id) before ∧
    Swiss_removePlayer id t
    = (Eff.Return p, Tournament.set_players (before ++ after) t) ∧
    RoundRobin_removePlayer id t
    = (Eff.Return p, Tournament.set_players (before ++ after) t) ∧
    Elimination_removePlayer id t
    = (Eff.Return p, Tournament.set_players (before ++ after) t).
Proof.
  intros Hst Hp Ha.
  pose proof Hp as (j & Hj & Hpj)%thePlayer_Some.
  pose proof Hj as (q & Hq & _ & Hfirst)%findIndex_Some.
  exists (take j (Tournament.players t)), (drop (S j) (Tournament.players t)).
  split; [by rewrite take_drop_middle|]. split.
  { apply Forall_forall. intros q' (i & Hi)%list_elem_of_lookup_1.
    pose proof (lookup_lt_Some _ _ _ Hi) as Hlen. rewrite length_take in Hlen.
    rewrite lookup_take_lt in Hi by lia. intros Hq'. eapply (Hfirst i q'); [done|lia|].
    by rewrite Hq'. }
  rewrite <- delete_take_drop. by apply remove_registration_exact.
Qed.

Lemma removePlayer_registration_witness :
  ∃ before after,
    Tournament.players (eliminationRegistration ["A"; "B"; "C"]) = before ++ enrolled "B" :: after ∧
    Forall (λ q, Player.id q ≠ "B") before ∧
    Swiss_removePlayer "B" (eliminationRegistration ["A"; "B"; "C"])
    = (Eff.Return (enrolled "B"),
       Tournament.set_players (before ++ after) (eliminationRegistration ["A"; "B"; "C"])) ∧
    RoundRobin_removePlayer "B" (eliminationRegistration ["A"; "B"; "C"])
    = (Eff.Return (enrolled "B"),
       Tournament.set_players (before ++ after) (eliminationRegistration ["A"; "B"; "C"])) ∧
    Elimination_removePlayer "B" (eliminationRegistration ["A"; "B"; "C"])
    = (Eff.Return (enrolled "B"),
       Tournament.set_players (before ++ after) (eliminationRegistration ["A"; "B"; "C"])).
Proof.
  apply (removePlayer_registration "B" (eliminationRegistration ["A"; "B"; "C"]) (enrolled "B"));
    vm_compute; reflexivity.
Defined.

Lemma newPlayer_exact alias id seed initialByes t :
  ¬ limitReached t → ¬ enrolledId t id → ¬ lateForFormat t →
  newPlayer alias id seed initialByes t
  = (Eff.Return (Some (length (Tournament.players t))),
     Tournament.set_players
       (Tournament.players t ++ [Player_new alias id seed initialByes]) t).
Proof.
  unfold limitReached, enrolledId, lateForFormat, newPlayer, Eff.bind, Eff.get.
  replace (existsb _ _) with false by (by destruct (Tournament.status t)).
  intros; repeat (destruct (decide _); try done).
Qed.

Lemma not_enrolled t id :
  ¬ enrolledId t id →
  Forall (λ p, ¬ Some (Player.id p) = Some id) (Tournament.players t).
Proof.
  unfold enrolledId. rewrite <- Forall_Exists_neg. intros H.
  eapply Forall_impl; [exact H|]. intros p. cbn. congruence.
Qed.

(** Property X4.  During registration, adding a player with a new id and
    removing the same id again gives back the tournament as it was, in the
    three classes; the removal returns the player that was added. *)
Theorem add_then_remove_registration alias id seed initialByes missingResults matchIDs t :
  Tournament.status t = Status.registration →
  ¬ limitReached t → ¬ enrolledId t id →
  (∃ t1, Swiss_addPlayer alias id seed initialByes missingResults matchIDs t
         = (Eff.Return (Some (length (Tournament.players t))), t1) ∧
         Swiss_removePlayer id t1
         = (Eff.Return (Player_new alias id seed initialByes), t)) ∧
  (∃ t1, RoundRobin_addPlayer alias id seed t
         = (Eff.Return (Some (length (Tournament.players t))), t1) ∧
         RoundRobin_removePlayer id t1 = (Eff.Return (Player_new alias id seed 0), t)) ∧
  (∃ t1, Elimination_addPlayer alias id seed t
         = (Eff.Return (Some (length (Tournament.players t))), t1) ∧
         Elimination_removePlayer id t1 = (Eff.Return (Player_new alias id seed 0), t)).
Proof.
  intros Hst Hlimit Hid.
  assert (¬ lateForFormat t) as Hlate by (by intros [? _]).
  assert (∀ ib,
    let t1 := Tournament.set_players
                (Tournament.players t ++ [Player_new alias id seed ib]) t in
    Swiss_removePlayer id t1 = (Eff.Return (Player_new alias id seed ib), t) ∧
    RoundRobin_removePlayer id t1 = (Eff.Return (Player_new alias id seed ib), t) ∧
    Elimination_removePlayer id t1 = (Eff.Return (Player_new alias id seed ib), t))
    as Hremove.
  { intros ib t1.
    assert (Tournament.set_players
              (delete (length (Tournament.players t)) (Tournament.players t1)) t1 = t)
      as Hback.
    { unfold t1. norm_state. rewrite delete_middle, app_nil_r. by destruct t. }
    pose proof (remove_registration_exact id t1 (length (Tournament.players t))
                  (Player_new alias id seed ib)) as H.
    rewrite Hback in H. apply H; unfold t1; norm_state; try done.
    - apply findIndex_app_first; [by apply not_enrolled|done].
    - by rewrite list_lookup_middle. }
  split; [|split].
  - eexists. split; [|apply (Hremove initialByes)].
    unfold Swiss_addPlayer.
    rewrite (bind_return (newPlayer alias id seed initialByes) _ _ _ _
               (newPlayer_exact alias id seed initialByes t Hlimit Hid Hlate)).
    unfold Eff.bind at 1. cbn [Eff.get]. norm_state.
    rewrite bool_decide_false by (rewrite Hst; discriminate). done.
  - eexists. split; [|apply (Hremove 0)]. by apply newPlayer_exact.
  - eexists. split; [|apply (Hremove 0)]. by apply newPlayer_exact.
Qed.

Lemma add_then_remove_registration_witness :
  ∃ t1, Elimination_addPlayer "E" "E" 0 (eliminationRegistration ["A"; "B"])
        = (Eff.Return (Some 2%nat), t1) ∧
        Elimination_removePlayer "E" t1
        = (Eff.Return (Player_new "E" "E" 0 0), eliminationRegistration ["A"; "B"]).
Proof.
  apply (add_then_remove_registration "E" "E" 0 0 MissingResults.losses (λ _, "x")
           (eliminationRegistration ["A"; "B"])).
  - reflexivity.
  - unfold limitReached. vm_compute. intros [H _]. discriminate H.
  - apply (bool_decide_unpack _). vm_compute. reflexivity.
Defined.

(** *** Results and erasures *)

Lemma theMatch_None t matchId :
  theMatch t matchId = None →
  findIndex (λ m, Some (Match.id m) = Some matchId) (Tournament.matches t) = None.
Proof.
  unfold theMatch. destruct (findIndex _ _) as [i|] eqn:Hi; [|done].
  apply findIndex_is_Some in Hi as [m Hm]. cbn. by rewrite Hm.
Qed.

(** Property X5.  [eraseResult] of [Swiss] and [RoundRobin] refuses an
    unknown match and a match that is still active; outside the playoffs it
    also refuses a match with an empty slot, a bye or an assigned loss.  In
    the three cases the tournament is left as it was. *)
Theorem eraseResult_refuses matchId t :
  (theMatch t matchId = None →
   Swiss_eraseResult matchId t = (Eff.Throw (CantFindMatch matchId), t)) ∧
  (∀ m, theMatch t matchId = Some m → Match.active m = true →
   Swiss_eraseResult matchId t = (Eff.Throw EraseStillActive, t)) ∧
  (∀ m, theMatch t matchId = Some m → Match.active m = false →
   Tournament.status t ≠ Status.playoffs →
   Match.playerOne m = None ∨ Match.playerTwo m = None →
   Swiss_eraseResult matchId t = (Eff.Throw EraseByeOrAssignedLoss, t)).
Proof.
  unfold Swiss_eraseResult. split; [|split].
  - intros Hi%theMatch_None. unfold Eff.bind, findMatch. by rewrite Hi.
  - intros m (i & Hi & Hm)%theMatch_Some Hact.
    unfold Eff.bind, findMatch, matchAt. rewrite Hi. cbn. by rewrite Hm, Hact.
  - intros m (i & Hi & Hm)%theMatch_Some Hact Hst Hbye.
    unfold eraseResult, Eff.bind, findMatch, matchAt, Eff.get. rewrite Hi. cbn.
    rewrite Hm, Hact. rewrite bool_decide_false by done. cbn.
    rewrite Hm, Hact. by rewrite decide_True.
Qed.

Lemma eraseResult_refuses_witness :
  RoundRobin_eraseResult "r9m1" doubleRoundRobin4
  = (Eff.Throw (CantFindMatch "r9m1"), doubleRoundRobin4) ∧
  RoundRobin_eraseResult "r1m1" doubleRoundRobin4
  = (Eff.Throw EraseStillActive, doubleRoundRobin4) ∧
  Swiss_eraseResult "r1m5" swissRoundPlayed
  = (Eff.Throw EraseByeOrAssignedLoss, swissRoundPlayed).
Proof.
  split; [|split].
  - apply (proj1 (eraseResult_refuses "r9m1" doubleRoundRobin4)). vm_compute. reflexivity.
  - apply (proj1 (proj2 (eraseResult_refuses "r1m1" doubleRoundRobin4))
             (scheduled "r1m1" 1 (Some "A") (Some "D") true)); vm_compute; reflexivity.
  - apply (proj2 (proj2 (eraseResult_refuses "r1m5" swissRoundPlayed))
             (Match.mk "r1m5" 1 5 (Some "P9") None false (Score.mk 1 0 0) None None)).
    + vm_compute. reflexivity.
    + reflexivity.
    + vm_compute. discriminate.
    + by right.
Defined.

(** Property X6.  A result for an unknown match id is refused and changes
    nothing: [result] of [Swiss] and [RoundRobin] outside the playoffs throws
    "No match found"; on the elimination path the tie check comes first, so
    a tie on an unknown match throws the tie error and any other score "No
    match found". *)
Theorem result_unknown_match matchId w1 w2 draws t :
  theMatch t matchId = None →
  (Tournament.status t ≠ Status.playoffs →
   Swiss_result matchId w1 w2 draws t = (Eff.Throw (NoMatchFound matchId), t)) ∧
  (Tournament.status t = Status.playoffs → w1 ≠ w2 →
   Swiss_result matchId w1 w2 draws t = (Eff.Throw (NoMatchFound matchId), t)) ∧
  (Tournament.status t = Status.playoffs → w1 = w2 →
   Swiss_result matchId w1 w2 draws t = (Eff.Throw EliminationNeedsWinner, t)) ∧
  (w1 ≠ w2 → Elimination_result matchId w1 w2 t = (Eff.Throw (NoMatchFound matchId), t)) ∧
  (w1 = w2 → Elimination_result matchId w1 w2 t = (Eff.Throw EliminationNeedsWinner, t)).
Proof.
  intros Hi%theMatch_None.
  unfold Swiss_result, Elimination_result, eliminationResult, standardResult.
  repeat split; intros.
  all: unfold Eff.bind at 1; cbn [Eff.get]; rewrite ?decide_True, ?decide_False by done.
  all: try done.
  all: unfold Eff.bind, findMatch; by rewrite ?Hi.
Qed.

Lemma result_unknown_match_witness :
  Swiss_result "r9m1" 2 0 None doubleRoundRobin4
  = (Eff.Throw (NoMatchFound "r9m1"), doubleRoundRobin4) ∧
  Swiss_result "s3" 1 1 None swissPlayoffs = (Eff.Throw EliminationNeedsWinner, swissPlayoffs).
Proof.
  split.
  - apply (proj1 (result_unknown_match "r9m1" 2 0 None doubleRoundRobin4 eq_refl)).
    discriminate.
  - by apply (proj1 (proj2 (proj2 (result_unknown_match "s3" 1 1 None swissPlayoffs eq_refl)))).
Defined.

Lemma frame_standardResult matchId w1 w2 draws :
  preserves frameOf (standardResult matchId w1 w2 draws).
Proof.
  unfold standardResult.
  repeat (frame_step || apply frame_eraseResult || apply frame_recordResult).
Qed.

(** Property X7.  Outside the playoffs, reporting and erasing never touch
    the schedule, whether the call returns or throws: the ids of the players
    and their order, the id, round, slots and paths of every match, and every
    setting of the tournament, its status and round included, stay as they
    are. *)
Theorem results_keep_schedule matchId w1 w2 draws t :
  Tournament.status t ≠ Status.playoffs →
  frameOf (state_after (Swiss_result matchId w1 w2 draws t)) = frameOf t ∧
  frameOf (state_after (Swiss_eraseResult matchId t)) = frameOf t.
Proof.
  intros Hst. split.
  - unfold Swiss_result, Eff.bind at 1. cbn [Eff.get]. rewrite decide_False by done.
    apply frame_standardResult.
  - assert (preserves frameOf
              (let* matchToErase := findMatch (Some matchId) in
               match matchToErase with
               | None => Eff.throw (CantFindMatch matchId)
               | Some _ =>
                 let* m := matchAt matchToErase in
                 if Match.active m then Eff.throw EraseStillActive
                 else eraseResult matchToErase
               end)) as H.
    { repeat (frame_step || apply frame_eraseResult). }
    rewrite <- (H t). unfold state_after. f_equal.
    unfold Swiss_eraseResult, Eff.bind, findMatch, matchAt, Eff.get.
    destruct (findIndex _ _) as [i|]; [|done]. cbn.
    destruct (Tournament.matches t !! i) as [m|]; [|done].
    destruct (Match.active m); [done|]. by rewrite bool_decide_false.
Qed.

Lemma results_keep_schedule_witness :
  frameOf (state_after (Swiss_result "r2m1" 1 0 None doubleRoundRobin4))
  = frameOf doubleRoundRobin4 ∧
  frameOf (state_after (Swiss_eraseResult "r2m1" doubleRoundRobin4))
  = frameOf doubleRoundRobin4.
Proof. apply (results_keep_schedule "r2m1" 1 0 None doubleRoundRobin4). discriminate. Defined.

Lemma Swiss_eraseResult_standard matchId s i m :
  Tournament.status s ≠ Status.playoffs →
  findIndex (λ m, Some (Match.id m) = Some matchId) (Tournament.matches s) = Some i →
  Tournament.matches s !! i = Some m → Match.active m = false →
  Swiss_eraseResult matchId s = eraseResult (Some i) s.
Proof.
  intros Hst Hi Hm Hact. unfold Swiss_eraseResult.
  unfold Eff.bind at 1. unfold findMatch. rewrite Hi.
  unfold Eff.bind at 1. unfold matchAt at 1. cbn. rewrite Hm, Hact.
  unfold Eff.bind at 1. cbn [Eff.get].
  rewrite bool_decide_false by done. done.
Qed.

Lemma Swiss_result_standard matchId w1 w2 draws s :
  Tournament.status s ≠ Status.playoffs →
  Swiss_result matchId w1 w2 draws s = standardResult matchId w1 w2 (default 0 draws) s.
Proof.
  intros Hst. unfold Swiss_result, Eff.bind, Eff.get. by rewrite decide_False.
Qed.

(** Property X8.  With integer points (the numbers of this development,
    on which the subtraction of [Tournament.eraseResult] undoes the addition
    of [standardResult]), a later report replaces the earlier one: outside
    the playoffs, reporting a second result on a match that had just received
    its first gives the same tournament as reporting the second result
    alone. *)
Theorem later_report_replaces matchId w1 w2 draws v1 v2 vdraws t :
  Tournament.status t ≠ Status.playoffs →
  awaitingResult t matchId →
  ∃ t1, Swiss_result matchId w1 w2 draws t = (Eff.Return tt, t1) ∧
        Swiss_result matchId v1 v2 vdraws t1 = Swiss_result matchId v1 v2 vdraws t.
Proof.
  intros Hst (m & p1 & p2 & Hm & Hact & Hzero & Hp1 & Hp2 & Ha1 & Ha2 & Hr1 & Hr2).
  apply theMatch_Some in Hm as (i & Hi & Hm).
  apply thePlayer_Some in Hp1 as (one & Hone & Hp1).
  apply thePlayer_Some in Hp2 as (two & Htwo & Hp2).
  set (t1 := reported t i one two m w1 w2 (default 0 draws)).
  exists t1. split.
  { unfold Swiss_result, Eff.bind, Eff.get. rewrite decide_False by done.
    by apply standardResult_exact. }
  assert (Tournament.status t1 ≠ Status.playoffs) as Hst1 by done.
  assert (findIndex (λ m, Some (Match.id m) = Some matchId) (Tournament.matches t1) = Some i)
    as Hi1.
  { unfold t1, reported. norm_state. by rewrite findIndex_alter by (by intros []). }
  assert (Tournament.matches t1 !! i
          = Some (Match.set_active false
                    (Match.set_result (Score.mk w1 w2 (default 0 draws)) m))) as Hm1.
  { unfold t1, reported. norm_state. by rewrite list_lookup_alter_eq, Hm. }
  assert (eraseResult (Some i) t1 = (Eff.Return tt, t)) as Herase.
  { rewrite <- (Swiss_eraseResult_standard matchId t1 i _ Hst1 Hi1 Hm1 eq_refl).
    by eapply erase_after_report. }
  rewrite !Swiss_result_standard by done.
  unfold standardResult.
  unfold Eff.bind at 1. unfold findMatch at 1. rewrite Hi1.
  unfold Eff.bind at 1. unfold matchAt at 1. cbn [mbind option_bind]. rewrite Hm1.
  cbn [Match.active Match.set_active negb Eff.when].
  rewrite (bind_return (eraseResult (Some i)) _ _ _ _ Herase).
  symmetry.
  unfold Eff.bind at 1. unfold findMatch at 1. rewrite Hi.
  unfold Eff.bind at 1. unfold matchAt at 1. cbn [mbind option_bind]. rewrite Hm, Hact.
  cbn [negb Eff.when]. unfold Eff.bind at 1. cbn [Eff.ret]. done.
Qed.

Lemma later_report_replaces_witness :
  ∃ t1, Swiss_result "r1m1" 2 1 (Some 1) doubleRoundRobin4 = (Eff.Return tt, t1) ∧
        Swiss_result "r1m1" 0 2 None t1 = Swiss_result "r1m1" 0 2 None doubleRoundRobin4.
Proof.
  apply (later_report_replaces "r1m1" 2 1 (Some 1) 0 2 None doubleRoundRobin4);
    [discriminate|].
  exists (scheduled "r1m1" 1 (Some "A") (Some "D") true), (enrolled "A"), (enrolled "D").
  repeat split; try (vm_compute; reflexivity); constructor.
Defined.

(** The second round of the nine-player event, paired in order. *)
Lemma returning_operations_keep_scoreboards_witness :
  scoreboardsSound
    (state_after (Swiss_nextRound pairInOrder id id (λ _ l, l) swissRoundPlayed)).
Proof.
  apply (returning_operations_keep_scoreboards pairInOrder id id id (λ _ l, l)
           (λ t H, H) (λ t H, H) (λ t H, H) (λ t H, H) SwissNextRound swissRoundPlayed).
  - apply (bool_decide_unpack _). vm_compute. reflexivity.
  - vm_compute. reflexivity.
Defined.

(** *** Rounds *)

Lemma activeCount_from a (ms : list Match.t) :
  foldl (λ sum m, if Match.active m then sum + 1 else sum) a ms
  = a + Z.of_nat (length (filter (λ m, Match.active m = true) ms)).
Proof.
  revert a. induction ms as [|m ms IH]; intros a; cbn [foldl]; [cbn; lia|].
  rewrite IH, filter_cons. destruct (Match.active m) eqn:Hm.
  - rewrite decide_True by done. cbn [length]. lia.
  - by rewrite decide_False.
Qed.

(** Property X10.  [nextRound] of [Swiss] and [RoundRobin] refuses to go on
    while a match is active, and the error counts the active matches; it
    then refuses a tournament that is not active.  On the last round without
    playoffs it only sets the status to finished: for [Swiss] the last round
    is [rounds], for [RoundRobin] the highest round among the matches.  A
    refused call leaves the tournament as it was. *)
Theorem nextRound_guards pair pairSingle pairDouble sort t :
  let active := filter (λ m, Match.active m = true) (Tournament.matches t) in
  (active ≠ [] →
   Swiss_nextRound pair pairSingle pairDouble sort t
   = (Eff.Throw (ActiveMatchesRemaining (Z.of_nat (length active))), t) ∧
   RoundRobin_nextRound pairSingle pairDouble sort t
   = (Eff.Throw (ActiveMatchesRemaining (Z.of_nat (length active))), t)) ∧
  (active = [] → Tournament.status t ≠ Status.active →
   Swiss_nextRound pair pairSingle pairDouble sort t
   = (Eff.Throw (NotActive (Tournament.status t)), t) ∧
   RoundRobin_nextRound pairSingle pairDouble sort t
   = (Eff.Throw (NotActive (Tournament.status t)), t)) ∧
  (active = [] → Tournament.status t = Status.active →
   Tournament.playoffs t = Playoffs.none →
   (Tournament.currentRound t = Tournament.rounds t →
    Swiss_nextRound pair pairSingle pairDouble sort t
    = (Eff.Return tt, Tournament.set_status Status.finished t)) ∧
   (Tournament.currentRound t = lastRound (Tournament.matches t) →
    RoundRobin_nextRound pairSingle pairDouble sort t
    = (Eff.Return tt, Tournament.set_status Status.finished t))).
Proof.
  cbv zeta.
  assert (filter (λ m, Match.active m = true) (Tournament.matches t) ≠ []
          ↔ Exists (λ m, Match.active m = true) (Tournament.matches t)) as Hactive.
  { rewrite Exists_exists. split.
    - destruct (filter _ _) as [|m l] eqn:E; [done|]. intros _.
      assert (m ∈ m :: l) as Hin by left. rewrite <- E in Hin.
      apply list_elem_of_filter in Hin as [? ?]. eauto.
    - intros (m & Hin & Hm) E.
      assert (m ∈ filter (λ m, Match.active m = true) (Tournament.matches t)) as Hin'
        by (by apply list_elem_of_filter).
      rewrite E in Hin'. by apply elem_of_nil in Hin'. }
  unfold Swiss_nextRound, RoundRobin_nextRound, Eff.bind, Eff.get, activeCount.
  split; [|split].
  - intros Hne. rewrite !decide_True by (by apply Hactive).
    by rewrite activeCount_from.
  - intros Hnil Hst.
    rewrite !(decide_False (P := Exists _ _)) by (rewrite <- Hactive; by intros []).
    by rewrite !decide_True.
  - intros Hnil Hst Hplay.
    rewrite !(decide_False (P := Exists _ _)) by (rewrite <- Hactive; by intros []).
    rewrite !(decide_False (P := _ ≠ _)) by (by intros []).
    split; intros Hlast; by rewrite !decide_True.
Qed.

Lemma nextRound_guards_witness :
  RoundRobin_nextRound id id (λ _ l, l) doubleRoundRobin4
  = (Eff.Throw (ActiveMatchesRemaining 2), doubleRoundRobin4) ∧
  Swiss_nextRound id id id (λ _ l, l) swissPlayoffs
  = (Eff.Throw (ActiveMatchesRemaining 2), swissPlayoffs) ∧
  Swiss_nextRound id id id (λ _ l, l) (Tournament.set_matches [] swissPlayoffs)
  = (Eff.Throw (NotActive Status.playoffs), Tournament.set_matches [] swissPlayoffs).
Proof.
  split; [|split].
  - apply (proj1 (nextRound_guards id id id (λ _ l, l) doubleRoundRobin4)).
    vm_compute. discriminate.
  - apply (proj1 (nextRound_guards id id id (λ _ l, l) swissPlayoffs)).
    vm_compute. discriminate.
  - apply (proj1 (proj2 (nextRound_guards id id id (λ _ l, l)
                           (Tournament.set_matches [] swissPlayoffs)))).
    + reflexivity.
    + discriminate.
Defined.

(** Property X11.  The last round that [RoundRobin] looks for, the maximum
    of the rounds of the matches starting from 0, is at least 0 and at least
    the round of every match; it is 0 or the round of some match. *)
Theorem lastRound_is_maximum (ms : list Match.t) :
  0 ≤ lastRound ms ∧
  Forall (λ m, Match.round m ≤ lastRound ms) ms ∧
  (lastRound ms = 0 ∨ Exists (λ m, Match.round m = lastRound ms) ms).
Proof.
  assert (∀ a,
    let r := foldl (λ currentMax currentMatch, Z.max currentMax (Match.round currentMatch))
               a ms in
    a ≤ r ∧ Forall (λ m, Match.round m ≤ r) ms ∧
    (r = a ∨ Exists (λ m, Match.round m = r) ms)) as Hfrom.
  { induction ms as [|m ms IH]; intros a; cbn [foldl]; cbv zeta.
    - split; [lia|]. split; [constructor|by left].
    - destruct (IH (Z.max a (Match.round m))) as (Hle & Hall & Hex). cbv zeta in *.
      split; [lia|]. split; [constructor; [lia|done]|].
      destruct Hex as [Heq|Hex]; [|right; by right].
      destruct (Z.max_spec a (Match.round m)) as [[_ Hmax]|[_ Hmax]].
      + right. left. lia.
      + left. lia. }
  apply (Hfrom 0).
Qed.

Lemma forEach_setPlayer (f : Player.t → Player.t) (ks : list nat) s :
  Eff.forEach ks (λ player, setPlayer (Some player) f) s
  = (Eff.Return tt,
     Tournament.set_players (foldl (λ l k, alter f k l) (Tournament.players s) ks) s).
Proof.
  revert s. induction ks as [|k ks IH]; intros s; cbn [Eff.forEach foldl].
  - unfold Eff.ret. by destruct s.
  - unfold Eff.bind, setPlayer. rewrite IH. by norm_state.
Qed.

Lemma alter_filterRefs {A} (P : A → Prop) `{∀ x, Decision (P x)} (f : A → A) (l : list A) :
  (∀ x, f (f x) = f x) →
  foldl (λ l k, alter f k l) l (filterRefs P l 0)
  = (λ x, if decide (P x) then f x else x) <$> l.
Proof.
  intros Hf. apply list_eq. intros i.
  rewrite foldl_alter_lookup, list_lookup_fmap by done.
  destruct (l !! i) as [x|] eqn:Hx; cbn.
  - destruct (decide (P x)) as [HP|HP].
    + rewrite decide_True; [done|]. apply filterRefs_elem. by exists i, x.
    + rewrite decide_False; [done|].
      intros (i' & x' & Hi & Hx' & HP')%filterRefs_elem. cbn in Hi. subst i'.
      congruence.
  - by destruct (decide _).
Qed.

(** Property X12.  On the last round with playoffs and a cut by points,
    [nextRound] of [Swiss] and [RoundRobin] sets the status to playoffs,
    deactivates exactly the players whose match points are below a limit
    that is not 0, counts the round and hands the tournament to the bracket
    pairing that [playoffs] names.  Nobody is activated, and a limit of 0
    cuts nobody. *)
Theorem playoffs_cut_by_points pair pairSingle pairDouble sort t :
  let bracket :=
    if decide (Tournament.playoffs t = Playoffs.single_elimination)
    then pairSingle else pairDouble in
  Forall (λ m, Match.active m = false) (Tournament.matches t) →
  Tournament.status t = Status.active →
  Tournament.playoffs t ≠ Playoffs.none →
  Tournament.cutType t = CutType.points →
  (Tournament.currentRound t = Tournament.rounds t →
   Swiss_nextRound pair pairSingle pairDouble sort t
   = (Eff.Return tt, bracket (pointsCut t))) ∧
  (Tournament.currentRound t = lastRound (Tournament.matches t) →
   RoundRobin_nextRound pairSingle pairDouble sort t
   = (Eff.Return tt, bracket (pointsCut t))).
Proof.
  intros bracket Hact Hst Hplay Hcut.
  assert (startPlayoffs pairSingle pairDouble sort t
          = (Eff.Return tt, bracket (pointsCut t))) as Hstart.
  { unfold startPlayoffs, bracket, pointsCut.
    unfold Eff.bind at 1. cbn [Eff.modify].
    unfold Eff.bind at 1. cbn [Eff.get]. norm_state.
    rewrite decide_True by done.
    unfold Eff.bind at 1.
    destruct (decide (Tournament.cutLimit t = 0)) as [Hzero|Hlimit].
    - rewrite bool_decide_false by (by intros []). cbn [Eff.when Eff.ret].
      unfold Eff.bind, Eff.modify, Eff.get. norm_state.
      replace (_ <$> Tournament.players t) with (Tournament.players t).
      2:{ rewrite <- (list_fmap_id (Tournament.players t)) at 1.
          apply list_fmap_ext. intros _ p _. by rewrite decide_False by (by intros [? _]). }
      destruct t; cbn in *. by destruct (decide _).
    - rewrite bool_decide_true by done. cbn [Eff.when].
      rewrite forEach_setPlayer. norm_state.
      rewrite alter_filterRefs by (by intros []).
      unfold Eff.bind, Eff.modify, Eff.get. norm_state.
      replace ((λ x, if decide (Player.matchPoints x < Tournament.cutLimit t)
                     then Player.set_active false x else x) <$> Tournament.players t)
        with ((λ p, if decide (Tournament.cutLimit t ≠ 0 ∧
                               Player.matchPoints p < Tournament.cutLimit t)
                    then Player.set_active false p else p) <$> Tournament.players t).
      2:{ apply list_fmap_ext. intros _ p _.
          destruct (decide (Player.matchPoints p < _)).
          - by rewrite decide_True.
          - by rewrite decide_False by (by intros [_ ?]). }
      destruct t; cbn in *. by destruct (decide _). }
  assert (¬ Exists (λ m, Match.active m = true) (Tournament.matches t)) as Hnone.
  { intros (m & Hm & Hm')%Exists_exists. rewrite Forall_forall in Hact.
    specialize (Hact m Hm). congruence. }
  unfold Swiss_nextRound, RoundRobin_nextRound.
  split; intros Hlast; unfold Eff.bind at 1; cbn [Eff.get].
  all: rewrite (decide_False (P := Exists _ _)) by done.
  all: rewrite (decide_False (P := _ ≠ _)) by (by intros []).
  all: rewrite decide_True by done; by rewrite decide_False.
Qed.

Lemma playoffs_cut_by_points_witness :
  let t := Tournament.mk Format.swiss Sorting.none false 0 1 0 1
             [winner "P1" "m1" "P2" true; loser "P2" "m1" "P1" true;
              winner "P3" "m2" "P4" false; loser "P4" "m2" "P3" true]
             [Match.mk "m1" 1 1 (Some "P1") (Some "P2") false (Score.mk 1 0 0) None None;
              Match.mk "m2" 1 2 (Some "P3") (Some "P4") false (Score.mk 1 0 0) None None]
             Status.active 1 Playoffs.single_elimination 1 CutType.points 1 false in
  Swiss_nextRound id id id (λ _ l, l) t
  = (Eff.Return tt,
     Tournament.mk Format.swiss Sorting.none false 0 1 0 2
       [winner "P1" "m1" "P2" true; loser "P2" "m1" "P1" false;
        winner "P3" "m2" "P4" false; loser "P4" "m2" "P3" false]
       (Tournament.matches t)
       Status.playoffs 1 Playoffs.single_elimination 1 CutType.points 1 false).
Proof.
  intros t.
  apply (proj1 (playoffs_cut_by_points id id id (λ _ l, l) t
                  ltac:(repeat constructor) eq_refl ltac:(discriminate) eq_refl)).
  reflexivity.
Defined.

(** *** Late players *)

Lemma lateEntries_loop t missingResults matchIDs n (l : list Z) :
  ∀ ps, is_Some (ps !! n) →
    Eff.forEach l (λ i, lateEntry missingResults (Some n) (matchIDs i) i)
      (Tournament.set_players ps t)
    = (Eff.Return tt,
       Tournament.set_players
         (alter (λ p, foldl (lateCredit t missingResults matchIDs) p l) n ps) t).
Proof.
  induction l as [|i l IH]; intros ps Hn; cbn [Eff.forEach foldl].
  - unfold Eff.ret. by rewrite list_alter_id.
  - unfold Eff.bind at 1.
    assert (lateEntry missingResults (Some n) (matchIDs i) i (Tournament.set_players ps t)
            = (Eff.Return tt,
               Tournament.set_players
                 (alter (λ p, lateCredit t missingResults matchIDs p i) n ps) t)) as ->.
    { unfold lateEntry, lateCredit, lateResult, Eff.bind, Eff.get, recordResult, setPlayer,
        byeEntry.
      destruct missingResults; norm_state; [|done].
      by rewrite list_alter_alter_eq. }
    rewrite IH by (by apply is_Some_alter).
    by rewrite list_alter_alter_eq.
Qed.

Lemma caughtUp_from t missingResults matchIDs (l : list Z) p :
  let q := foldl (lateCredit t missingResults matchIDs) p l in
  let n := Z.of_nat (length l) in
  let half := ceilHalf (Tournament.bestOf t) in
  let win := Tournament.pointsForWin t in
  Player.id q = Player.id p ∧ Player.alias q = Player.alias p ∧
  Player.seed q = Player.seed p ∧ Player.initialByes q = Player.initialByes p ∧
  Player.active q = Player.active p ∧
  Player.results q = Player.results p ++ (lateResult t missingResults matchIDs <$> l) ∧
  Player.matchCount q = Player.matchCount p + n ∧
  Player.gameCount q = Player.gameCount p + n * half ∧
  match missingResults with
  | MissingResults.byes =>
    Player.matchPoints q = Player.matchPoints p + n * win ∧
    Player.gamePoints q = Player.gamePoints p + n * (half * win) ∧
    Player.pairingBye q = (if decide (l = []) then Player.pairingBye p else true)
  | MissingResults.losses =>
    Player.matchPoints q = Player.matchPoints p ∧
    Player.gamePoints q = Player.gamePoints p ∧
    Player.pairingBye q = Player.pairingBye p
  end.
Proof.
  revert p. induction l as [|i l IH]; intros p; cbv zeta.
  - cbn. rewrite app_nil_r. destruct missingResults; repeat split; lia.
  - cbn [foldl]. specialize (IH (lateCredit t missingResults matchIDs p i)).
    cbv zeta in IH.
    destruct IH as (-> & -> & -> & -> & -> & -> & -> & -> & IH).
    rewrite fmap_cons, length_cons, Nat2Z.inj_succ.
    destruct missingResults, p as [? ? ? ? ? ? ? ? ? ? rs]; cbn in *.
    + destruct IH as (-> & -> & ->).
      rewrite <- app_assoc. repeat split; try lia.
      by destruct (decide (l = [])).
    + destruct IH as (-> & -> & ->).
      rewrite <- app_assoc. repeat split; lia.
Qed.

(** Property X13.  A player who joins a Swiss tournament that is under way
    is appended to [players] with one entry for each round played so far,
    rounds 1 to [currentRound]: with [missingResults = 'byes'] byes that
    score like wins and set [pairingBye], otherwise losses without points
    that count [ceil(bestOf / 2)] games each.  No match is stored for these
    entries. *)
Theorem addPlayer_catches_up alias id seed initialByes missingResults matchIDs t :
  let new := Player_new alias id seed initialByes in
  let late := caughtUp t missingResults matchIDs new in
  let n := Z.of_nat (length (seqZ 0 (Tournament.currentRound t))) in
  let half := ceilHalf (Tournament.bestOf t) in
  let win := Tournament.pointsForWin t in
  Tournament.status t = Status.active → Tournament.format t = Format.swiss →
  ¬ limitReached t → ¬ enrolledId t id →
  Swiss_addPlayer alias id seed initialByes missingResults matchIDs t
  = (Eff.Return (Some (length (Tournament.players t))),
     Tournament.set_players (Tournament.players t ++ [late]) t) ∧
  Player.results late
  = Player.results new
    ++ (lateResult t missingResults matchIDs <$> seqZ 0 (Tournament.currentRound t)) ∧
  Player.matchCount late = Player.matchCount new + n ∧
  Player.gameCount late = Player.gameCount new + n * half ∧
  match missingResults with
  | MissingResults.byes =>
    Player.matchPoints late = Player.matchPoints new + n * win ∧
    Player.gamePoints late = Player.gamePoints new + n * (half * win) ∧
    Player.pairingBye late = (if decide (0 < n) then true else Player.pairingBye new)
  | MissingResults.losses =>
    Player.matchPoints late = Player.matchPoints new ∧
    Player.gamePoints late = Player.gamePoints new ∧
    Player.pairingBye late = Player.pairingBye new
  end.
Proof.
  intros new late n half win Hst Hformat Hlimit Hid.
  assert (¬ lateForFormat t) as Hlate by (by intros [_ ?]).
  split.
  - unfold Swiss_addPlayer.
    rewrite (bind_return (newPlayer alias id seed initialByes) _ _ _ _
               (newPlayer_exact alias id seed initialByes t Hlimit Hid Hlate)).
    unfold Eff.bind at 1. cbn [Eff.get]. norm_state.
    rewrite bool_decide_true by done. cbn [Eff.when].
    unfold Eff.bind at 1.
    rewrite lateEntries_loop by (rewrite list_lookup_middle; eauto).
    cbn [Eff.ret]. f_equal. f_equal.
    rewrite <- (Nat.add_0_r (length (Tournament.players t))) at 1.
    by rewrite alter_app_r.
  - unfold late, caughtUp, n, half, win.
    destruct (caughtUp_from t missingResults matchIDs
                (seqZ 0 (Tournament.currentRound t)) new)
      as (_ & _ & _ & _ & _ & Hres & Hmc & Hgc & Hrest).
    split; [done|]. split; [done|]. split; [done|].
    destruct missingResults; [|done].
    destruct Hrest as (? & ? & Hbye). split; [done|]. split; [done|].
    rewrite Hbye.
    destruct (seqZ 0 (Tournament.currentRound t)); cbn [length]; by repeat case_decide.
Qed.

Lemma addPlayer_catches_up_witness :
  Swiss_addPlayer "Late" "late" 0 0 MissingResults.byes (λ _, "x") swissRoundPlayed
  = (Eff.Return (Some 9%nat),
     Tournament.set_players
       (Tournament.players swissRoundPlayed
          ++ [Player.mk "late" "Late" 0 0 1 1 1 1 true true
                [Result.mk "x" 1 None Outcome.bye 1 1 1]])
       swissRoundPlayed).
Proof.
  etransitivity.
  - apply (addPlayer_catches_up "Late" "late" 0 0 MissingResults.byes (λ _, "x")
             swissRoundPlayed).
    + vm_compute. reflexivity.
    + vm_compute. reflexivity.
    + unfold limitReached. vm_compute. intros [H _]. discriminate H.
    + apply (bool_decide_unpack _). vm_compute. reflexivity.
  - vm_compute. reflexivity.
Defined.

(** *** What a first result records *)

Lemma thePlayer_alter4 (f1 f2 f3 f4 : Player.t → Player.t) a1 a2 a3 a4 ps s slot :
  (∀ p, Player.id (f1 p) = Player.id p) → (∀ p, Player.id (f2 p) = Player.id p) →
  (∀ p, Player.id (f3 p) = Player.id p) → (∀ p, Player.id (f4 p) = Player.id p) →
  thePlayer
    (Tournament.set_players (alter f1 a1 (alter f2 a2 (alter f3 a3 (alter f4 a4 ps)))) s)
    slot
  = match findIndex (λ p, Some (Player.id p) = slot) ps with
    | Some j =>
      (if decide (a1 = j) then f1 else id) <$>
      ((if decide (a2 = j) then f2 else id) <$>
       ((if decide (a3 = j) then f3 else id) <$>
        ((if decide (a4 = j) then f4 else id) <$> ps !! j)))
    | None => None
    end.
Proof.
  intros H1 H2 H3 H4. unfold thePlayer. norm_state.
  rewrite !findIndex_alter by (intros p; by rewrite ?H1, ?H2, ?H3, ?H4).
  destruct (findIndex _ _) as [j|]; [|done]. cbn.
  by rewrite !lookup_alter_total.
Qed.

(** Property X14.  Outside the playoffs a result on an active match between
    two different enrolled players returns and records this: the match holds
    the score and is no longer active; each of the two players is active and
    has one more entry, with [pointsForWin] match points for more wins than
    the opponent, 0 for fewer, [pointsForDraw] for as many, and game points
    [wins * pointsForWin + draws * pointsForDraw]; every other player and
    every other match is as before. *)
Theorem result_records matchId w1 w2 draws t m p1 p2 :
  let d := default 0 draws in
  Tournament.status t ≠ Status.playoffs →
  theMatch t matchId = Some m → Match.active m = true →
  thePlayer t (Match.playerOne m) = Some p1 →
  thePlayer t (Match.playerTwo m) = Some p2 →
  Match.playerOne m ≠ Match.playerTwo m →
  ∃ t1,
    Swiss_result matchId w1 w2 draws t = (Eff.Return tt, t1) ∧
    theMatch t1 matchId
    = Some (Match.set_active false (Match.set_result (Score.mk w1 w2 d) m)) ∧
    thePlayer t1 (Match.playerOne m)
    = Some (credit (entryOne t m w1 w2 d) (Player.set_active true p1)) ∧
    thePlayer t1 (Match.playerTwo m)
    = Some (credit (entryTwo t m w1 w2 d) (Player.set_active true p2)) ∧
    (∀ slot, slot ≠ Match.playerOne m → slot ≠ Match.playerTwo m →
             thePlayer t1 slot = thePlayer t slot) ∧
    (∀ other, other ≠ matchId → theMatch t1 other = theMatch t other).
Proof.
  intros d Hst Hm Hact Hp1 Hp2 Hdiff.
  apply theMatch_Some in Hm as (i & Hi & Hm).
  pose proof Hp1 as (one & Hone & Hp1')%thePlayer_Some.
  pose proof Hp2 as (two & Htwo & Hp2')%thePlayer_Some.
  assert (one ≠ two) as Hne.
  { intros ->. apply findIndex_Some in Hone as (q & Hq & Hq1 & _).
    apply findIndex_Some in Htwo as (q' & Hq' & Hq2 & _). congruence. }
  exists (reported t i one two m w1 w2 d). split.
  { rewrite Swiss_result_standard by done. by apply standardResult_exact. }
  unfold reported. split; [|split; [|split; [|split]]].
  - unfold theMatch. norm_state. rewrite findIndex_alter by (by intros []).
    rewrite Hi. cbn. by rewrite list_lookup_alter_eq, Hm.
  - rewrite thePlayer_alter4 by (by intros []). rewrite Hone. cbv beta iota. rewrite Hp1'.
    by repeat case_decide.
  - rewrite thePlayer_alter4 by (by intros []). rewrite Htwo. cbv beta iota. rewrite Hp2'.
    by repeat case_decide.
  - intros slot H1 H2. rewrite thePlayer_alter4 by (by intros []).
    unfold thePlayer.
    destruct (findIndex (λ p, Some (Player.id p) = slot) (Tournament.players t))
      as [j|] eqn:Hj; [|done].
    assert (one ≠ j ∧ two ≠ j) as [? ?].
    { split; intros <-; apply findIndex_Some in Hj as (q & Hq & Hslot & _);
        [apply findIndex_Some in Hone as (q' & Hq' & Hq1 & _)
        |apply findIndex_Some in Htwo as (q' & Hq' & Hq1 & _)]; congruence. }
    repeat case_decide; try done. cbn. by destruct (Tournament.players t !! j).
  - intros other Hother. unfold theMatch. norm_state.
    rewrite findIndex_alter by (by intros []).
    destruct (findIndex (λ m, Some (Match.id m) = Some other) (Tournament.matches t))
      as [j|] eqn:Hj; [|done]. cbn.
    rewrite list_lookup_alter_ne; [done|]. intros <-.
    apply findIndex_Some in Hj as (q & Hq & [= Hid] & _).
    apply findIndex_Some in Hi as (q' & Hq' & [= Hid'] & _). congruence.
Qed.

Lemma result_records_witness :
  ∃ t1,
    Swiss_result "r1m1" 2 1 (Some 1) doubleRoundRobin4 = (Eff.Return tt, t1) ∧
    theMatch t1 "r1m1"
    = Some (Match.mk "r1m1" 1 0 (Some "A") (Some "D") false (Score.mk 2 1 1) None None) ∧
    thePlayer t1 (Some "A")
    = Some (Player.mk "A" "A" 0 0 1 2 4 5 true false
              [Result.mk "r1m1" 1 (Some "D") Outcome.win 2 5 4]) ∧
    thePlayer t1 (Some "D")
    = Some (Player.mk "D" "D" 0 0 1 0 4 3 true false
              [Result.mk "r1m1" 1 (Some "A") Outcome.loss 0 3 4]).
Proof.
  destruct (result_records "r1m1" 2 1 (Some 1) doubleRoundRobin4
              (scheduled "r1m1" 1 (Some "A") (Some "D") true) (enrolled "A") (enrolled "D"))
    as (t1 & Hrun & Hm & Hp1 & Hp2 & _); [discriminate|reflexivity..|discriminate|].
  exists t1. split; [exact Hrun|]. split; [exact Hm|]. split; [exact Hp1|exact Hp2].
Defined.

Lemma found_apart (l : list Match.t) a b i j :
  a ≠ b →
  findIndex (λ m, Some (Match.id m) = Some a) l = Some i →
  findIndex (λ m, Some (Match.id m) = Some b) l = Some j →
  i ≠ j.
Proof.
  intros Hab (x & Hx & [= Hidx] & _)%findIndex_Some (y & Hy & [= Hidy] & _)%findIndex_Some ->.
  congruence.
Qed.

(** Property X15.  A first result with a winner on an elimination match that
    has a winner's path returns and moves the players on.  The winner goes to
    the match that [winnersPath] names: into [playerOne] if it is free, else
    into [playerTwo] if it is free, which activates that match; a match with
    both slots taken is left as it is.  The loser goes the same way to the
    match that [losersPath] names, or is deactivated when there is none.
    The status of the tournament does not change. *)
Theorem elimination_result_moves matchId w1 w2 t m p1 p2 x1 x2 w next :
  let xw := if decide (w1 > w2) then x1 else x2 in
  let xl := if decide (w1 > w2) then x2 else x1 in
  w1 ≠ w2 →
  theMatch t matchId = Some m → Match.active m = true →
  Match.playerOne m = Some x1 → Match.playerTwo m = Some x2 →
  thePlayer t (Some x1) = Some p1 → thePlayer t (Some x2) = Some p2 →
  Match.winnersPath m = Some w → w ≠ matchId → theMatch t w = Some next →
  match Match.losersPath m with
  | None => True
  | Some l => l ≠ w ∧ l ≠ matchId ∧ is_Some (theMatch t l)
  end →
  ∃ t1,
    Elimination_result matchId w1 w2 t = (Eff.Return tt, t1) ∧
    theMatch t1 w = Some (advance xw next) ∧
    Tournament.status t1 = Tournament.status t ∧
    match Match.losersPath m with
    | None => Player.active <$> thePlayer t1 (Some xl) = Some false
    | Some l => theMatch t1 l = advance xl <$> theMatch t l
    end.
Proof.
  intros xw xl Hne Hm Hact Hx1 Hx2 Hp1 Hp2 Hw Hwid Hnext Hl.
  apply theMatch_Some in Hm as (i & Hi & Hm).
  apply thePlayer_Some in Hp1 as (one & Hone & Hp1).
  apply thePlayer_Some in Hp2 as (two & Htwo & Hp2).
  assert (Player.id p1 = x1) as Hid1.
  { apply findIndex_Some in Hone as (p & Hp & [= Hid] & _). congruence. }
  assert (Player.id p2 = x2) as Hid2.
  { apply findIndex_Some in Htwo as (p & Hp & [= Hid] & _). congruence. }
  apply theMatch_Some in Hnext as (iw & Hiw & Hnext).
  pose proof (found_apart _ _ _ _ _ Hwid Hiw Hi) as Hiwi.
  destruct (Match.losersPath m) as [l|] eqn:Hlp.
  - destruct Hl as (Hlw & Hlid & [lower Hlower]).
    pose proof Hlower as (k & Hk & Hlower')%theMatch_Some.
    pose proof (found_apart _ _ _ _ _ Hlid Hk Hi) as Hki.
    pose proof (found_apart _ _ _ _ _ Hlw Hk Hiw) as Hkw.
    exists (decided t i one two iw (Some k) m x1 x2 w1 w2). split.
    { eapply eliminationResult_exact; try done. rewrite Hlp. by exists k, lower. }
    unfold decided, theMatch. norm_state.
    rewrite !findIndex_advance, !findIndex_alter by (by intros []).
    rewrite Hiw, Hk. cbn.
    rewrite (list_lookup_alter_ne _ _ k iw) by done.
    rewrite !list_lookup_alter_eq.
    rewrite (list_lookup_alter_ne _ _ iw k) by done.
    rewrite (list_lookup_alter_ne _ _ i iw), (list_lookup_alter_ne _ _ i k) by done.
    by rewrite Hnext, Hlower'.
  - exists (decided t i one two iw None m x1 x2 w1 w2). split.
    { eapply eliminationResult_exact; try done. by rewrite Hlp. }
    unfold decided, theMatch, thePlayer, xl, id. norm_state.
    rewrite !findIndex_advance, !findIndex_alter by (by intros []).
    rewrite Hiw. cbn. rewrite list_lookup_alter_eq.
    rewrite (list_lookup_alter_ne _ _ i iw) by done. rewrite Hnext.
    split; [done|]. split; [done|].
    destruct (decide (w1 > w2)); rewrite ?Hone, ?Htwo; cbn;
      rewrite list_lookup_alter_eq, !lookup_alter_total, ?Hp1, ?Hp2;
      by repeat case_decide.
Qed.

Lemma elimination_result_moves_witness :
  ∃ t1,
    Elimination_result "s1" 0 2 swissPlayoffs = (Eff.Return tt, t1) ∧
    theMatch t1 "f"
    = Some (Match.mk "f" 3 1 (Some "P7") None false Score.zero None None) ∧
    Tournament.status t1 = Status.playoffs ∧
    Player.active <$> thePlayer t1 (Some "P1") = Some false.
Proof.
  apply (elimination_result_moves "s1" 0 2 swissPlayoffs
           (Match.mk "s1" 2 1 (Some "P1") (Some "P7") true Score.zero (Some "f") None)
           (winner "P1" "m1" "P2" true) (winner "P7" "m4" "P8" true) "P1" "P7" "f"
           (Match.mk "f" 3 1 None None false Score.zero None None));
    try reflexivity; try discriminate.
Defined.

(** *** Withdrawing during a round *)

Lemma playerAt_at j p s :
  Tournament.players s !! j = Some p → playerAt (Some j) s = (Eff.Return p, s).
Proof. intros Hp. unfold playerAt. cbn. by rewrite Hp. Qed.

Lemma matchAt_at i m s :
  Tournament.matches s !! i = Some m → matchAt (Some i) s = (Eff.Return m, s).
Proof. intros Hm. unfold matchAt. cbn. by rewrite Hm. Qed.

Lemma get_at s : Eff.get s = (Eff.Return s, s).
Proof. done. Qed.

Lemma withdraw_tail j p s :
  Tournament.players s !! j = Some p →
  (setPlayer (Some j) (Player.set_active false);; playerAt (Some j)) s
  = (Eff.Return (Player.set_active false p),
     Tournament.set_players (alter (Player.set_active false) j (Tournament.players s)) s).
Proof.
  intros Hp. unfold Eff.bind, setPlayer, playerAt. cbn.
  by rewrite list_lookup_alter_eq, Hp.
Qed.

(** Property X16.  Withdrawing from a Swiss tournament during a round: when
    the first match of the current round that names the player is active,
    [removePlayer] is the forfeit of that match, reported as 0 wins for the
    player and [ceil(bestOf / 2)] for the opponent, followed by the
    deactivation of the player; when there is no such match, or it is not
    active, the player is only deactivated. *)
Theorem removePlayer_forfeits id t p :
  let half := ceilHalf (Tournament.bestOf t) in
  let current := findIndex (playsInRound (Tournament.currentRound t) id)
                   (Tournament.matches t) in
  Tournament.status t = Status.active →
  thePlayer t (Some id) = Some p → Player.active p = true →
  (∀ i m q1 q2,
     current = Some i → Tournament.matches t !! i = Some m → Match.active m = true →
     findIndex (λ n, Some (Match.id n) = Some (Match.id m)) (Tournament.matches t) = Some i →
     thePlayer t (Match.playerOne m) = Some q1 →
     thePlayer t (Match.playerTwo m) = Some q2 →
     let w1 := if decide (Match.playerOne m = Some id) then 0 else half in
     let w2 := if decide (Match.playerOne m = Some id) then half else 0 in
     ∃ r p',
       Swiss_result (Match.id m) w1 w2 None t = (Eff.Return tt, r) ∧
       Swiss_removePlayer id t = (Eff.Return p', withdrawn id r) ∧
       thePlayer (withdrawn id r) (Some id) = Some p' ∧ Player.active p' = false) ∧
  ((current = None ∨
    ∃ i m, current = Some i ∧ Tournament.matches t !! i = Some m ∧ Match.active m = false) →
   Swiss_removePlayer id t = (Eff.Return (Player.set_active false p), withdrawn id t)).
Proof.
  intros half current Hst Hp Ha.
  destruct (removalGuards_known _ _ _ Hp) as (j & Hj & Hpj & Hg).
  rewrite Ha in Hg. cbn in Hg.
  rewrite decide_False in Hg by (rewrite Hst; intros [|]; discriminate).
  assert (Player.id p = id) as Hid.
  { apply findIndex_Some in Hj as (q & Hq & [= Hid] & _). congruence. }
  assert (∀ s, Tournament.status s = Status.active →
               removalGuards id t = (Eff.Return (Some j), s) →
               Swiss_removePlayer id t
               = (forfeit (Some j);; setPlayer (Some j) (Player.set_active false);;
                  playerAt (Some j)) s) as Hbody.
  { intros s Hs Hgs. unfold Swiss_removePlayer.
    rewrite (bind_return (removalGuards id) _ _ _ _ Hgs).
    unfold Eff.bind at 1. cbn [Eff.get].
    rewrite decide_False by (rewrite Hs; discriminate).
    by rewrite decide_False by (rewrite Hs; discriminate). }
  rewrite (Hbody t Hst Hg). clear Hbody.
  split.
  - intros i m q1 q2 Hcur Hm Hact Hi Hq1 Hq2 w1 w2.
    apply thePlayer_Some in Hq1 as (one & Hone & Hq1).
    apply thePlayer_Some in Hq2 as (two & Htwo & Hq2).
    set (r := reported t i one two m w1 w2 0).
    assert (standardResult (Match.id m) w1 w2 0 t = (Eff.Return tt, r)) as Hr
      by (by apply standardResult_exact).
    assert (forfeit (Some j) t = (Eff.Return tt, r)) as Hforfeit.
    { unfold forfeit.
      rewrite (bind_return (playerAt (Some j)) _ _ _ _ (playerAt_at _ _ _ Hpj)).
      rewrite (bind_return Eff.get _ _ _ _ (get_at t)).
      rewrite Hid. fold current. rewrite Hcur.
      rewrite (bind_return (matchAt (Some i)) _ _ _ _ (matchAt_at _ _ _ Hm)).
      rewrite Hact. cbn [Eff.when].
      fold half. unfold w1, w2 in Hr. by destruct (decide _). }
    assert (findIndex (λ p, Some (Player.id p) = Some id) (Tournament.players r) = Some j)
      as Hjr.
    { unfold r, reported. norm_state. by rewrite !findIndex_alter by (by intros []). }
    assert (is_Some (Tournament.players r !! j)) as [pr Hpr].
    { unfold r, reported. norm_state. repeat apply is_Some_alter. eauto. }
    exists r, (Player.set_active false pr).
    split; [by rewrite Swiss_result_standard by (rewrite Hst; discriminate)|].
    rewrite (bind_return (forfeit (Some j)) _ _ _ _ Hforfeit).
    unfold withdrawn. rewrite Hjr.
    split; [by apply withdraw_tail|].
    split; [|done].
    unfold thePlayer. norm_state. rewrite findIndex_alter by (by intros []).
    rewrite Hjr. cbn [mbind option_bind]. by rewrite list_lookup_alter_eq, Hpr.
  - intros Hcur.
    assert (forfeit (Some j) t = (Eff.Return tt, t)) as Hforfeit.
    { unfold forfeit.
      rewrite (bind_return (playerAt (Some j)) _ _ _ _ (playerAt_at _ _ _ Hpj)).
      rewrite (bind_return Eff.get _ _ _ _ (get_at t)).
      rewrite Hid. fold current.
      destruct Hcur as [->|(i & m & -> & Hm & Hact)]; [done|].
      rewrite (bind_return (matchAt (Some i)) _ _ _ _ (matchAt_at _ _ _ Hm)).
      by rewrite Hact. }
    rewrite (bind_return (forfeit (Some j)) _ _ _ _ Hforfeit).
    unfold withdrawn. rewrite Hj. by apply withdraw_tail.
Qed.

(** "P1" withdraws during the first round of the nine-player event, and
    after it. *)
Lemma removePlayer_forfeits_witness :
  let started := state_after (Swiss_startEvent pairInOrder swissRegistration) in
  (∃ r p',
     Swiss_result "r1m1" 0 1 None started = (Eff.Return tt, r) ∧
     Swiss_removePlayer "P1" started = (Eff.Return p', withdrawn "P1" r) ∧
     thePlayer (withdrawn "P1" r) (Some "P1") = Some p' ∧ Player.active p' = false) ∧
  Swiss_removePlayer "P1" swissRoundPlayed
  = (Eff.Return (winner "P1" "r1m1" "P2" false), withdrawn "P1" swissRoundPlayed).
Proof.
  intros started. split.
  - apply (proj1 (removePlayer_forfeits "P1" started (enrolled "P1") eq_refl eq_refl eq_refl)
             0%nat
             (Match.mk "r1m1" 1 1 (Some "P1") (Some "P2") true Score.zero None None)
             (enrolled "P1") (enrolled "P2")); vm_compute; reflexivity.
  - apply (proj2 (removePlayer_forfeits "P1" swissRoundPlayed
                    (winner "P1" "r1m1" "P2" true) eq_refl eq_refl eq_refl)).
    right.
    exists 0%nat, (Match.mk "r1m1" 1 1 (Some "P1") (Some "P2") false (Score.mk 1 0 0) None None).
    repeat split; vm_compute; reflexivity.
Defined.

(** Property X17.  In an elimination bracket, the tournament of
    [Elimination] or the playoffs of [Swiss] and [RoundRobin], removing a
    player changes nothing when no match of the current round names the
    player, or when the first that does is already reported and has no
    loser's path: the call returns the player, who stays active. *)
Theorem bracket_removal_without_match id t p :
  let current := findIndex (playsInRound (Tournament.currentRound t) id)
                   (Tournament.matches t) in
  thePlayer t (Some id) = Some p → Player.active p = true →
  (current = None ∨
   ∃ i m, current = Some i ∧ Tournament.matches t !! i = Some m ∧
          Match.active m = false ∧ Match.losersPath m = None) →
  (Tournament.status t = Status.active ∨ Tournament.status t = Status.playoffs →
   Elimination_removePlayer id t = (Eff.Return p, t)) ∧
  (Tournament.status t = Status.playoffs →
   Swiss_removePlayer id t = (Eff.Return p, t) ∧
   RoundRobin_removePlayer id t = (Eff.Return p, t)).
Proof.
  intros current Hp Ha Hcur.
  destruct (removalGuards_known _ _ _ Hp) as (j & Hj & Hpj & Hg).
  rewrite Ha in Hg. cbn in Hg.
  assert (Player.id p = id) as Hid.
  { apply findIndex_Some in Hj as (q & Hq & [= Hid] & _). congruence. }
  assert (eliminationRemovePlayer (Some j) t = (Eff.Return tt, t)) as Hremove.
  { unfold eliminationRemovePlayer.
    rewrite (bind_return (playerAt (Some j)) _ _ _ _ (playerAt_at _ _ _ Hpj)).
    rewrite (bind_return Eff.get _ _ _ _ (get_at t)).
    rewrite Hid. fold current.
    destruct Hcur as [->|(i & m & -> & Hm & Hact & Hlp)]; [done|].
    rewrite (bind_return (matchAt (Some i)) _ _ _ _ (matchAt_at _ _ _ Hm)).
    rewrite Hact. cbn [Eff.when].
    rewrite (bind_return (Eff.ret tt) _ tt t t eq_refl).
    rewrite (bind_return (matchAt (Some i)) _ _ _ _ (matchAt_at _ _ _ Hm)).
    by rewrite Hlp. }
  unfold Elimination_removePlayer, Swiss_removePlayer, RoundRobin_removePlayer.
  split; [intros Hst|intros Hst; split].
  all: rewrite decide_False in Hg
    by (intros [H|H]; rewrite H in Hst; first [discriminate|destruct Hst; discriminate]).
  all: rewrite (bind_return (removalGuards id) _ _ _ _ Hg).
  all: rewrite (bind_return Eff.get _ _ _ _ (get_at t)).
  all: rewrite decide_False
    by (intros H; rewrite H in Hst; first [discriminate|destruct Hst; discriminate]).
  all: rewrite ?decide_True by done.
  all: rewrite (bind_return (eliminationRemovePlayer (Some j)) _ _ _ _ Hremove).
  all: by apply playerAt_at.
Qed.

Lemma bracket_removal_without_match_witness :
  Elimination_removePlayer "A" (Tournament.set_currentRound 1 eliminationFinal)
  = (Eff.Return (winner "A" "s1" "D" true), Tournament.set_currentRound 1 eliminationFinal).
Proof.
  apply (proj1 (bracket_removal_without_match "A"
                  (Tournament.set_currentRound 1 eliminationFinal)
                  (winner "A" "s1" "D" true) eq_refl eq_refl
                  (or_intror (ex_intro _ 0%nat (ex_intro _
                     (Match.mk "s1" 1 1 (Some "A") (Some "D") false (Score.mk 1 0 0)
                        (Some "f") None)
                     (conj eq_refl (conj eq_refl (conj eq_refl eq_refl)))))))).
  by left.
Defined.

(** *** The ids of the players *)

Lemma preserves_modify {X} (proj : Tournament.t → X) f :
  (∀ t, proj (f t) = proj t) → preserves proj (Eff.modify f).
Proof. intros Hf s. apply Hf. Qed.

Lemma ids_setPlayer r f :
  (∀ p, Player.id (f p) = Player.id p) → preserves playerIds (setPlayer r f).
Proof.
  intros Hf s. unfold setPlayer, playerIds. destruct r as [i|]; [|done].
  cbn. by rewrite fmap_alter_same.
Qed.

Lemma ids_setMatch r f : preserves playerIds (setMatch r f).
Proof. intros s. unfold setMatch. by destruct r. Qed.

Ltac ids_step :=
  first
    [ apply preserves_bind; [|intros ?]
    | apply preserves_ret
    | apply preserves_throw
    | apply preserves_get
    | apply preserves_findPlayer
    | apply preserves_findMatch
    | apply preserves_playerAt
    | apply preserves_matchAt
    | apply preserves_when
    | apply preserves_forEach; intros ?
    | apply ids_setPlayer; by intros []
    | apply ids_setMatch
    | apply preserves_modify; by intros []
    | match goal with
      | |- preserves _ (match ?x with _ => _ end) => destruct x
      end ].

Lemma ids_eraseResult match_ : preserves playerIds (eraseResult match_).
Proof. unfold eraseResult, eraseOne. repeat ids_step. Qed.

Lemma ids_pullBack match_ one two : preserves playerIds (pullBack match_ one two).
Proof. unfold pullBack, pullFrom. repeat ids_step. Qed.

Lemma ids_eliminationResult matchId w1 w2 :
  preserves playerIds (eliminationResult matchId w1 w2).
Proof.
  unfold eliminationResult, movePlayers, advanceTo, recordResult.
  repeat (ids_step || apply ids_eraseResult || apply ids_pullBack).
Qed.

Lemma ids_standardResult matchId w1 w2 draws :
  preserves playerIds (standardResult matchId w1 w2 draws).
Proof.
  unfold standardResult, recordResult. repeat (ids_step || apply ids_eraseResult).
Qed.

Lemma ids_eliminationRemovePlayer player :
  preserves playerIds (eliminationRemovePlayer player).
Proof.
  unfold eliminationRemovePlayer. repeat (ids_step || apply ids_eliminationResult).
Qed.

Lemma distinct_of_preserves {A} (c : Eff.t A) : preserves playerIds c → keepsDistinct c.
Proof. intros Hc s Hs. unfold state_after. by rewrite Hc. Qed.

Lemma distinct_bind {A B} (c : Eff.t A) (k : A → Eff.t B) :
  keepsDistinct c → (∀ a, keepsDistinct (k a)) → keepsDistinct (Eff.bind c k).
Proof.
  intros Hc Hk s Hs. specialize (Hc s Hs). unfold Eff.bind, state_after in *.
  destruct (c s) as [[a|e] s']; [|done]. by apply Hk.
Qed.

Lemma distinct_newPlayer alias id seed initialByes :
  keepsDistinct (newPlayer alias id seed initialByes).
Proof.
  intros s Hs. unfold newPlayer, Eff.bind, Eff.get, state_after.
  destruct (decide _); [done|]. destruct (existsb _ _); [done|].
  destruct (decide (Exists _ _)) as [|Hnew]; [done|]. destruct (decide _); [done|].
  cbn. unfold playerIds in *. cbn. rewrite fmap_app. cbn.
  apply NoDup_app. split; [done|]. split; [|apply NoDup_singleton].
  intros x Hx ->%list_elem_of_singleton. apply Hnew.
  apply list_elem_of_fmap in Hx as (p & -> & Hp). apply Exists_exists. eauto.
Qed.

Lemma splice1_sublist {A} index (l : list A) : splice1 index l `sublist_of` l.
Proof.
  destruct index as [i|]; cbn.
  - apply sublist_delete.
  - induction l as [|x [|y l] IH]; cbn; [done|by constructor|]. by constructor.
Qed.

Lemma distinct_discard player : keepsDistinct (discard player).
Proof.
  intros s Hs. unfold discard, Eff.bind, playerAt, Eff.modify, state_after.
  destruct (player ≫= _) as [p|]; [|done]. cbn. unfold playerIds in *. cbn.
  eapply sublist_NoDup; [exact Hs|]. apply fmap_sublist, splice1_sublist.
Qed.

Section PlayerIds.
Variable Pairings_swiss : Tournament.t → Tournament.t.
Variable Pairings_roundRobin : Tournament.t → Tournament.t.
Variable Pairings_singleElimination : Tournament.t → Tournament.t.
Variable Pairings_doubleElimination : Tournament.t → Tournament.t.
Variable Tiebreakers_sort : Tournament.t → list nat → list nat.

(** The pairing functions create matches; they are assumed to leave the ids
    of the players alone. *)
Hypothesis swiss_ids : ∀ t, playerIds (Pairings_swiss t) = playerIds t.
Hypothesis roundRobin_ids : ∀ t, playerIds (Pairings_roundRobin t) = playerIds t.
Hypothesis singleElimination_ids :
  ∀ t, playerIds (Pairings_singleElimination t) = playerIds t.
Hypothesis doubleElimination_ids :
  ∀ t, playerIds (Pairings_doubleElimination t) = playerIds t.

Ltac ids_all :=
  repeat first
    [ apply ids_eraseResult | apply ids_pullBack | apply ids_eliminationResult
    | apply ids_standardResult | apply ids_eliminationRemovePlayer
    | apply preserves_modify; assumption
    | ids_step ].

Ltac distinct_all :=
  repeat first
    [ apply distinct_newPlayer
    | apply distinct_discard
    | apply distinct_of_preserves; solve [ids_all]
    | apply distinct_bind; [|intros ?]
    | match goal with
      | |- keepsDistinct (match ?x with _ => _ end) => destruct x
      end ].

(** Property X18.  The ids of the players stay pairwise distinct through
    every method of the three classes, whether the call returns or throws;
    and every method other than [addPlayer] and [removePlayer] leaves the
    list of ids as it is. *)
Lemma player_ids_stay_distinct op t :
  let after :=
    state_after (run Pairings_swiss Pairings_roundRobin Pairings_singleElimination
                     Pairings_doubleElimination Tiebreakers_sort op t) in
  (NoDup (playerIds t) → NoDup (playerIds after)) ∧
  match op with
  | SwissAdd _ _ _ _ _ _ | RoundRobinAdd _ _ _ | EliminationAdd _ _ _
  | SwissRemove _ | RoundRobinRemove _ | EliminationRemove _ => True
  | _ => playerIds after = playerIds t
  end.
Proof.
  cbv zeta. split.
  - assert (keepsDistinct
              (run Pairings_swiss Pairings_roundRobin Pairings_singleElimination
                   Pairings_doubleElimination Tiebreakers_sort op)) as H; [|apply H].
    destruct op; cbn [run];
      unfold Swiss_startEvent, Swiss_nextRound, Swiss_result, Swiss_eraseResult,
        Swiss_addPlayer, Swiss_removePlayer, RoundRobin_startEvent, RoundRobin_nextRound,
        RoundRobin_result, RoundRobin_eraseResult, RoundRobin_addPlayer,
        RoundRobin_removePlayer, Elimination_startEvent, Elimination_result,
        Elimination_addPlayer, Elimination_removePlayer, Swiss_result, Swiss_eraseResult,
        startPlayoffs, swissByes, swissBye, roundRobinByes, roundRobinBye, removalGuards,
        forfeit, clearFutureSlot, lateEntry, recordResult;
      distinct_all.
  - destruct op; try exact I; cbn [run];
      unfold Swiss_startEvent, Swiss_nextRound, Swiss_result, Swiss_eraseResult,
        RoundRobin_startEvent, RoundRobin_nextRound,
        RoundRobin_result, RoundRobin_eraseResult, Elimination_startEvent,
        Elimination_result, Swiss_result, Swiss_eraseResult,
        startPlayoffs, swissByes, swissBye, roundRobinByes, roundRobinBye, recordResult;
      match goal with
      | |- playerIds (state_after (?c t)) = _ =>
        assert (preserves playerIds c) as H by ids_all; apply H
      end.
Qed.

End PlayerIds.

Lemma player_ids_stay_distinct_witness :
  NoDup (playerIds
           (state_after
              (run pairInOrder id id id (λ _ l, l)
                 (SwissAdd "P10" "P10" 0 0 MissingResults.losses (λ _, "x"))
                 swissRoundPlayed))) ∧
  playerIds (state_after (run pairInOrder id id id (λ _ l, l) SwissNextRound swissRoundPlayed))
  = playerIds swissRoundPlayed.
Proof.
  split.
  - apply (proj1 (player_ids_stay_distinct pairInOrder id id id (λ _ l, l)
                    (λ _, eq_refl) (λ _, eq_refl) (λ _, eq_refl) (λ _, eq_refl)
                    (SwissAdd "P10" "P10" 0 0 MissingResults.losses (λ _, "x"))
                    swissRoundPlayed)).
    apply (bool_decide_unpack _). vm_compute. reflexivity.
  - exact (proj2 (player_ids_stay_distinct pairInOrder id id id (λ _ l, l)
                    (λ _, eq_refl) (λ _, eq_refl) (λ _, eq_refl) (λ _, eq_refl)
                    SwissNextRound swissRoundPlayed)).
Defined.

(** *** Withdrawing from a bracket *)

Lemma routing_setPlayer r f :
  preserves (λ t, routing <$> Tournament.matches t) (setPlayer r f).
Proof. intros s. unfold setPlayer. by destruct r. Qed.

Lemma routing_setMatch r f :
  (∀ m, routing (f m) = routing m) →
  preserves (λ t, routing <$> Tournament.matches t) (setMatch r f).
Proof.
  intros Hf s. unfold setMatch. destruct r as [i|]; [|done].
  cbn. by rewrite fmap_alter_same.
Qed.

Ltac routing_step :=
  first
    [ apply preserves_bind; [|intros ?]
    | apply preserves_ret
    | apply preserves_throw
    | apply preserves_get
    | apply preserves_findPlayer
    | apply preserves_findMatch
    | apply preserves_playerAt
    | apply preserves_matchAt
    | apply preserves_when
    | apply preserves_forEach; intros ?
    | apply routing_setPlayer
    | apply routing_setMatch; by intros []
    | apply preserves_modify; by intros []
    | match goal with
      | |- preserves _ (match ?x with _ => _ end) => destruct x
      end ].

Lemma routing_eliminationResult matchId w1 w2 :
  preserves (λ t, routing <$> Tournament.matches t) (eliminationResult matchId w1 w2).
Proof.
  unfold eliminationResult, movePlayers, advanceTo, recordResult, pullBack, pullFrom,
    eraseResult, eraseOne.
  repeat routing_step.
Qed.

Lemma same_routing_at s r i m :
  routing <$> Tournament.matches r = routing <$> Tournament.matches s →
  Tournament.matches s !! i = Some m →
  ∃ m', Tournament.matches r !! i = Some m' ∧ routing m' = routing m.
Proof.
  intros Hr Hm.
  destruct (is_Some_same_keys routing _ _ i Hr) as [m' Hm']; [eauto|].
  exists m'. split; [done|]. by eapply lookup_same_keys.
Qed.

Lemma same_ids_at s r j p :
  playerIds r = playerIds s →
  Tournament.players s !! j = Some p →
  ∃ p', Tournament.players r !! j = Some p' ∧ Player.id p' = Player.id p.
Proof.
  intros Hr Hp.
  destruct (is_Some_same_keys Player.id _ _ j Hr) as [p' Hp']; [eauto|].
  exists p'. split; [done|]. by eapply lookup_same_keys.
Qed.

(** Property X19.  Removing a player from a bracket while the player's match
    of the current round is active and has no loser's path is the elimination
    result of that match with 0 wins for the player and [ceil(bestOf / 2)]
    for the opponent: the tournament after [removePlayer] is exactly the one
    after that result, and the call returns the player as the result left
    it. *)
Theorem bracket_removal_forfeits id t p i m r :
  let half := ceilHalf (Tournament.bestOf t) in
  let w1 := if decide (Match.playerOne m = Some id) then 0 else half in
  let w2 := if decide (Match.playerOne m = Some id) then half else 0 in
  thePlayer t (Some id) = Some p → Player.active p = true →
  findIndex (playsInRound (Tournament.currentRound t) id) (Tournament.matches t) = Some i →
  Tournament.matches t !! i = Some m →
  Match.active m = true → Match.losersPath m = None →
  Elimination_result (Match.id m) w1 w2 t = (Eff.Return tt, r) →
  ∃ p',
    thePlayer r (Some id) = Some p' ∧
    (Tournament.status t = Status.active ∨ Tournament.status t = Status.playoffs →
     Elimination_removePlayer id t = (Eff.Return p', r)) ∧
    (Tournament.status t = Status.playoffs →
     Swiss_removePlayer id t = (Eff.Return p', r) ∧
     RoundRobin_removePlayer id t = (Eff.Return p', r)).
Proof.
  intros half w1 w2 Hp Ha Hi Hm Hact Hlp Hr.
  destruct (removalGuards_known _ _ _ Hp) as (j & Hj & Hpj & Hg).
  rewrite Ha in Hg. cbn in Hg.
  assert (Player.id p = id) as Hid.
  { apply findIndex_Some in Hj as (q & Hq & [= Hid] & _). congruence. }
  pose proof (routing_eliminationResult (Match.id m) w1 w2 t) as Hrouting.
  pose proof (ids_eliminationResult (Match.id m) w1 w2 t) as Hids.
  unfold Elimination_result in Hr. rewrite Hr in Hrouting, Hids. cbn in Hrouting, Hids.
  destruct (same_routing_at _ _ _ _ Hrouting Hm) as (m' & Hm' & [= _ _ Hlp']).
  destruct (same_ids_at _ _ _ _ Hids Hpj) as (p' & Hp' & Hid').
  assert (eliminationRemovePlayer (Some j) t = (Eff.Return tt, r)) as Hremove.
  { unfold eliminationRemovePlayer.
    rewrite (bind_return (playerAt (Some j)) _ _ _ _ (playerAt_at _ _ _ Hpj)).
    rewrite (bind_return Eff.get _ _ _ _ (get_at t)).
    rewrite Hid, Hi.
    rewrite (bind_return (matchAt (Some i)) _ _ _ _ (matchAt_at _ _ _ Hm)).
    rewrite Hact. cbn [Eff.when].
    assert ((let* tournament := Eff.get in
             let half := ceilHalf (Tournament.bestOf tournament) in
             if decide (Match.playerOne m = Some id)
             then eliminationResult (Match.id m) 0 half
             else eliminationResult (Match.id m) half 0) t = (Eff.Return tt, r)) as Hwhen.
    { rewrite (bind_return Eff.get _ _ _ _ (get_at t)). cbv zeta. fold half.
      unfold w1, w2 in Hr. by destruct (decide _). }
    rewrite (bind_return _ _ _ _ _ Hwhen).
    rewrite (bind_return (matchAt (Some i)) _ _ _ _ (matchAt_at _ _ _ Hm')).
    by rewrite Hlp', Hlp. }
  exists p'. split.
  { assert (findIndex (λ p, Some (Player.id p) = Some id) (Tournament.players r) = Some j)
      as Hjr.
    { rewrite <- Hj. exact (findIndex_same_keys Player.id (λ x, Some x = Some id) _ _ Hids). }
    unfold thePlayer. rewrite Hjr. exact Hp'. }
  unfold Elimination_removePlayer, Swiss_removePlayer, RoundRobin_removePlayer.
  split; [intros Hst|intros Hst; split].
  all: rewrite decide_False in Hg
    by (intros [H|H]; rewrite H in Hst; first [discriminate|destruct Hst; discriminate]).
  all: rewrite (bind_return (removalGuards id) _ _ _ _ Hg).
  all: rewrite (bind_return Eff.get _ _ _ _ (get_at t)).
  all: rewrite decide_False
    by (intros H; rewrite H in Hst; first [discriminate|destruct Hst; discriminate]).
  all: rewrite ?decide_True by done.
  all: rewrite (bind_return (eliminationRemovePlayer (Some j)) _ _ _ _ Hremove).
  all: by apply playerAt_at.
Qed.

Lemma bracket_removal_forfeits_witness :
  let r := state_after (Elimination_result "s1" 0 1 swissPlayoffs) in
  ∃ p',
    thePlayer r (Some "P1") = Some p' ∧
    Swiss_removePlayer "P1" swissPlayoffs = (Eff.Return p', r).
Proof.
  intros r.
  pose (m := Match.mk "s1" 2 1 (Some "P1") (Some "P7") true Score.zero (Some "f") None).
  assert (thePlayer swissPlayoffs (Some "P1") = Some (winner "P1" "m1" "P2" true)) as H1
    by (vm_compute; reflexivity).
  assert (findIndex (playsInRound (Tournament.currentRound swissPlayoffs) "P1")
            (Tournament.matches swissPlayoffs) = Some 5%nat) as H2
    by (vm_compute; reflexivity).
  assert (Tournament.matches swissPlayoffs !! 5%nat = Some m) as H3 by reflexivity.
  assert (Elimination_result (Match.id m)
            (if decide (Match.playerOne m = Some "P1")
             then 0 else ceilHalf (Tournament.bestOf swissPlayoffs))
            (if decide (Match.playerOne m = Some "P1")
             then ceilHalf (Tournament.bestOf swissPlayoffs) else 0)
            swissPlayoffs = (Eff.Return tt, r)) as H4
    by (vm_compute; reflexivity).
  destruct (bracket_removal_forfeits "P1" swissPlayoffs _ _ m r H1 eq_refl H2 H3
              eq_refl eq_refl H4) as (p' & Hp' & _ & Hswiss).
  exists p'. split; [exact Hp'|]. exact (proj1 (Hswiss eq_refl)).
Defined.
(** *** The next round of a round robin *)

Lemma timetable_setPlayer r f : preserves timetable (setPlayer r f).
Proof. intros s. unfold setPlayer. by destruct r. Qed.

Lemma timetable_setMatch r f :
  (∀ m, wiring (f m) = wiring m ∧ Match.active (f m) = Match.active m) →
  preserves timetable (setMatch r f).
Proof.
  intros Hf s. unfold setMatch, timetable. destruct r as [i|]; [|done].
  cbn. rewrite fmap_alter_same; [done|]. intros m. destruct (Hf m) as [-> ->]. done.
Qed.

Lemma timetable_roundRobinByes skipEmpty : preserves timetable (roundRobinByes skipEmpty).
Proof.
  unfold roundRobinByes, roundRobinBye, recordResult.
  repeat first
    [ apply preserves_bind; [|intros ?]
    | apply preserves_ret
    | apply preserves_get
    | apply preserves_findPlayer
    | apply preserves_matchAt
    | apply preserves_forEach; intros ?
    | apply timetable_setPlayer
    | apply timetable_setMatch; by intros []
    | match goal with
      | |- preserves _ (match ?x with _ => _ end) => destruct x
      end ].
Qed.

Lemma forEach_setMatch (f : Match.t → Match.t) (ks : list nat) s :
  Eff.forEach ks (λ m, setMatch (Some m) f) s
  = (Eff.Return tt,
     Tournament.set_matches (foldl (λ l k, alter f k l) (Tournament.matches s) ks) s).
Proof.
  revert s. induction ks as [|k ks IH]; intros s; cbn [Eff.forEach foldl].
  - unfold Eff.ret. by destruct s.
  - unfold Eff.bind, setMatch. rewrite IH. by norm_state.
Qed.

(** Property X20.  Away from the last round, [nextRound] of [RoundRobin] on
    an active tournament without active matches counts the round and
    activates the matches of the new round that have both players, and no
    other; the schedule (id, round, slots and paths of every match) and the
    status stay as they are.  This holds whether the processing of the byes
    that follows returns or throws. *)
Theorem roundRobin_nextRound_activates pairSingle pairDouble sort t :
  let after := state_after (RoundRobin_nextRound pairSingle pairDouble sort t) in
  Forall (λ m, Match.active m = false) (Tournament.matches t) →
  Tournament.status t = Status.active →
  Tournament.currentRound t ≠ lastRound (Tournament.matches t) →
  Tournament.currentRound after = Tournament.currentRound t + 1 ∧
  Tournament.status after = Status.active ∧
  wiring <$> Tournament.matches after = wiring <$> Tournament.matches t ∧
  Match.active <$> Tournament.matches after
  = (λ m, bool_decide (playable (Tournament.currentRound t + 1) m)) <$> Tournament.matches t.
Proof.
  intros after Hact Hst Hlast.
  set (s2 := Tournament.set_matches
               ((λ m, if decide (playable (Tournament.currentRound t + 1) m)
                      then Match.set_active true m else m) <$> Tournament.matches t)
               (Tournament.set_currentRound (Tournament.currentRound t + 1) t)).
  assert (timetable after = timetable s2) as Htable.
  { rewrite <- (timetable_roundRobinByes true s2). unfold after, state_after. f_equal.
    unfold RoundRobin_nextRound.
    rewrite (bind_return Eff.get _ _ _ _ (get_at t)).
    rewrite decide_False.
    2:{ intros (m & Hm & Hm')%Exists_exists. rewrite Forall_forall in Hact.
        specialize (Hact m Hm). congruence. }
    rewrite decide_False by (by intros []). rewrite decide_False by done.
    unfold Eff.bind at 1. cbn [Eff.modify].
    unfold Eff.bind at 1. cbn [Eff.get]. norm_state.
    unfold Eff.bind at 1. rewrite forEach_setMatch. norm_state.
    by rewrite (alter_filterRefs (playable (Tournament.currentRound t + 1)))
      by (by intros []). }
  unfold timetable in Htable. injection Htable as Hms Hround Hstatus.
  split; [done|]. split; [by rewrite Hstatus|].
  apply (f_equal (fmap fst)) in Hms as Hwiring.
  apply (f_equal (fmap snd)) in Hms as Hactive.
  rewrite <- !list_fmap_compose in Hwiring, Hactive.
  split.
  - etransitivity; [exact Hwiring|]. unfold s2. norm_state.
    apply list_fmap_ext. intros _ m _. cbn.
    by destruct (decide _), m.
  - etransitivity; [exact Hactive|]. unfold s2. norm_state.
    apply list_fmap_ext. intros i m Hm. cbn.
    rewrite Forall_forall in Hact.
    pose proof (Hact m (list_elem_of_lookup_2 _ _ _ Hm)) as Hm'.
    destruct (decide _).
    + by rewrite bool_decide_true.
    + by rewrite bool_decide_false.
Qed.

Lemma roundRobin_nextRound_activates_witness :
  let played :=
    Tournament.set_matches
      (alter (Match.set_active false) 0%nat
         (alter (Match.set_active false) 1%nat (Tournament.matches doubleRoundRobin4)))
      doubleRoundRobin4 in
  let after := state_after (RoundRobin_nextRound id id (λ _ l, l) played) in
  Tournament.currentRound after = 2 ∧
  Match.active <$> Tournament.matches after
  = [false; false; true; true; false; false; false; false; false; false; false; false].
Proof.
  intros played after.
  destruct (roundRobin_nextRound_activates id id (λ _ l, l) played) as (H1 & _ & _ & H2).
  - apply (bool_decide_unpack _). vm_compute. reflexivity.
  - reflexivity.
  - vm_compute. discriminate.
  - split; [exact H1|]. etransitivity; [exact H2|]. vm_compute. reflexivity.
Defined.
(** *** The end of a bracket *)

(** Property X21.  A first result with a winner on an active elimination
    match without a winner's path, the final, returns and ends the event: the
    status becomes finished, the match holds the score and is no longer
    active, both players have their entry, and no player's [active] flag
    changes. *)
Theorem final_result_ends_event matchId w1 w2 t m p1 p2 :
  w1 ≠ w2 →
  theMatch t matchId = Some m → Match.active m = true →
  Match.winnersPath m = None →
  thePlayer t (Match.playerOne m) = Some p1 →
  thePlayer t (Match.playerTwo m) = Some p2 →
  ∃ t1,
    Elimination_result matchId w1 w2 t = (Eff.Return tt, t1) ∧
    Tournament.status t1 = Status.finished ∧
    theMatch t1 matchId
    = Some (Match.set_active false
              (Match.set_result (Score.mk w1 w2 (Score.draws (Match.result m))) m)) ∧
    Player.active <$> Tournament.players t1 = Player.active <$> Tournament.players t ∧
    (Match.playerOne m ≠ Match.playerTwo m →
     thePlayer t1 (Match.playerOne m) = Some (credit (decisionOne t m w1 w2) p1) ∧
     thePlayer t1 (Match.playerTwo m) = Some (credit (decisionTwo t m w1 w2) p2)).
Proof.
  intros Hne Hm Hact Hw Hp1 Hp2.
  apply theMatch_Some in Hm as (i & Hi & Hm).
  pose proof Hp1 as (one & Hone & Hp1')%thePlayer_Some.
  pose proof Hp2 as (two & Htwo & Hp2')%thePlayer_Some.
  set (t1 := Tournament.set_status Status.finished
               (Tournament.set_players
                  (alter (credit (decisionTwo t m w1 w2)) two
                     (alter (credit (decisionOne t m w1 w2)) one (Tournament.players t)))
                  (Tournament.set_matches
                     (alter (λ m, Match.set_active false
                                    (Match.set_result
                                       (Score.mk w1 w2 (Score.draws (Match.result m))) m))
                        i (Tournament.matches t)) t))).
  assert (wp (eliminationResult matchId w1 w2) (λ _ s', s' = t1) t)
    as (a & s' & Hrun & ->)%wp_returns.
  { unfold eliminationResult. rewrite decide_False by done.
    wp_step. wp_step. rewrite Hi. wp_step. wp_step. read Hm.
    wp_step. wp_step. rewrite Hone. wp_step. wp_step. read Hm.
    wp_step. wp_step. rewrite Htwo. wp_step. wp_step. read Hm.
    rewrite Hact. wp_step. wp_step.
    wp_step. wp_step. wp_step. wp_step. read Hm.
    wp_step. wp_step. wp_step. wp_step. wp_step. wp_step. wp_step. wp_step. read Hm.
    wp_step. wp_step. wp_step. wp_step. wp_step. wp_step.
    cbn [fst snd]. norm_state. rewrite !list_alter_alter_eq.
    fold (decisionOne t m w1 w2). fold (decisionTwo t m w1 w2).
    rewrite (alter_at _ (λ m, Match.set_active false
                                (Match.set_result
                                   (Score.mk w1 w2 (Score.draws (Match.result m))) m))
               i _ m Hm) by (unfold compose; by destruct m as [? ? ? ? ? ? []]).
    destruct (decide (w1 > w2)); unfold movePlayers.
    all: wp_step; wp_step; read Hm; rewrite Hw; wp_step.
    all: unfold t1; by destruct t. }
  exists t1. split; [by destruct a|].
  split; [done|]. split; [|split].
  - unfold t1, theMatch. norm_state. rewrite findIndex_alter by (by intros []).
    rewrite Hi. cbn. by rewrite list_lookup_alter_eq, Hm.
  - unfold t1. norm_state. by rewrite !fmap_alter_same by (by intros []).
  - intros Hdiff.
    assert (one ≠ two) as Hne12.
    { intros ->. apply findIndex_Some in Hone as (q & Hq & Hq1 & _).
      apply findIndex_Some in Htwo as (q' & Hq' & Hq2 & _). congruence. }
    unfold t1, thePlayer. norm_state.
    rewrite !findIndex_alter by (by intros []). rewrite Hone, Htwo. cbn.
    rewrite !lookup_alter_total, Hp1', Hp2'. by repeat case_decide.
Qed.

Lemma final_result_ends_event_witness :
  ∃ t1,
    Elimination_result "f" 2 1 eliminationFinal = (Eff.Return tt, t1) ∧
    Tournament.status t1 = Status.finished ∧
    Player.active <$> Tournament.players t1 = [true; true; false; false].
Proof.
  destruct (final_result_ends_event "f" 2 1 eliminationFinal
              (Match.mk "f" 2 1 (Some "A") (Some "B") true Score.zero None None)
              (winner "A" "s1" "D" true) (winner "B" "s2" "C" true))
    as (t1 & Hrun & Hst & _ & Hactive & _); [lia|reflexivity..|].
  exists t1. split; [exact Hrun|]. split; [exact Hst|exact Hactive].
Defined.
Lemma filterRefs_bounds {A} (P : A → Prop) `{∀ x, Decision (P x)} (l : list A) n :
  Forall (λ k, (n ≤ k)%nat) (filterRefs P l n) ∧ NoDup (filterRefs P l n).
Proof.
  revert n. induction l as [|x l IH]; intros n; cbn; [split; constructor|].
  destruct (IH (S n)) as [Hge Hnd].
  assert (Forall (λ k, (n ≤ k)%nat) (filterRefs P l (S n))) as Hge'
    by (eapply Forall_impl; [exact Hge|]; intros; cbn in *; lia).
  destruct (decide (P x)); [|done].
  split; [by constructor|]. constructor; [|done].
  intros Hin. rewrite Forall_forall in Hge. specialize (Hge _ Hin). lia.
Qed.

(** Property X22.  On the last round with playoffs and a cut by rank with a
    positive limit, [nextRound] of [Swiss] and [RoundRobin] sets the status
    to playoffs, keeps active exactly the first [limit] of the active players
    in the order that [Tiebreakers.sort] gives, deactivates the others,
    counts the round and hands the tournament to the bracket pairing.  The
    sort is assumed to return the players it received, reordered. *)
Theorem playoffs_cut_by_rank pair pairSingle pairDouble sort t :
  let bracket :=
    if decide (Tournament.playoffs t = Playoffs.single_elimination)
    then pairSingle else pairDouble in
  let candidates := filterRefs (λ p, Player.active p = true) (Tournament.players t) 0 in
  let standing := sort (Tournament.set_status Status.playoffs t) candidates in
  let kept := take (Z.to_nat (Tournament.cutLimit t)) standing in
  Forall (λ m, Match.active m = false) (Tournament.matches t) →
  Tournament.status t = Status.active →
  Tournament.playoffs t ≠ Playoffs.none →
  Tournament.cutType t = CutType.rank → 0 < Tournament.cutLimit t →
  standing ≡ₚ candidates →
  (Tournament.currentRound t = Tournament.rounds t →
   Swiss_nextRound pair pairSingle pairDouble sort t
   = (Eff.Return tt, bracket (rankCut kept t))) ∧
  (Tournament.currentRound t = lastRound (Tournament.matches t) →
   RoundRobin_nextRound pairSingle pairDouble sort t
   = (Eff.Return tt, bracket (rankCut kept t))) ∧
  (∀ j p, Tournament.players (rankCut kept t) !! j = Some p →
          Player.active p = true ↔ j ∈ kept).
Proof.
  intros bracket candidates standing kept Hact Hst Hplay Hcut Hlimit Hperm.
  assert (NoDup standing) as Hnd.
  { rewrite Hperm. apply filterRefs_bounds. }
  assert (∀ j, j ∈ candidates
               ↔ ∃ p, Tournament.players t !! j = Some p ∧ Player.active p = true) as Hcand.
  { intros j. unfold candidates. rewrite filterRefs_elem. split.
    - intros (k & p & -> & Hp & Ha). eauto.
    - intros (p & Hp & Ha). by exists j, p. }
  assert (∀ j, j ∈ kept → j ∈ candidates) as Hkept.
  { intros j Hj. rewrite <- Hperm. by eapply subseteq_take. }
  assert (∀ j, j ∈ drop (Z.to_nat (Tournament.cutLimit t)) standing → j ∉ kept) as Hdrop.
  { intros j Hj Hj'. rewrite <- (take_drop (Z.to_nat (Tournament.cutLimit t)) standing) in Hnd.
    apply NoDup_app in Hnd as (_ & Hnd & _). by apply (Hnd j). }
  assert (startPlayoffs pairSingle pairDouble sort t
          = (Eff.Return tt, bracket (rankCut kept t))) as Hstart.
  { unfold startPlayoffs, bracket, rankCut.
    unfold Eff.bind at 1. cbn [Eff.modify].
    unfold Eff.bind at 1. cbn [Eff.get]. norm_state.
    rewrite decide_False by (rewrite Hcut; discriminate).
    rewrite decide_True by done.
    unfold Eff.bind at 1.
    rewrite bool_decide_true by lia. cbn [Eff.when].
    rewrite forEach_setPlayer. norm_state.
    fold candidates. fold standing.
    unfold sliceFrom. rewrite decide_False by lia.
    unfold Eff.bind, Eff.modify, Eff.get. norm_state.
    replace (foldl _ _ _) with
      (imap (λ j p, if decide (j ∈ kept) then p else Player.set_active false p)
         (Tournament.players t)).
    { destruct t; cbn in *. by destruct (decide _). }
    apply list_eq. intros j.
    rewrite foldl_alter_lookup by (by intros []). rewrite list_lookup_imap.
    destruct (Tournament.players t !! j) as [p|] eqn:Hp; [|cbn; by case_decide].
    cbn. destruct (decide (j ∈ drop _ _)) as [Hj|Hj].
    - by rewrite decide_False by (by apply Hdrop).
    - destruct (decide (j ∈ kept)) as [|Hj']; [done|].
      assert (j ∉ standing) as Hout.
      { rewrite <- (take_drop (Z.to_nat (Tournament.cutLimit t)) standing).
        rewrite elem_of_app. by intros [|]. }
      rewrite Hperm, Hcand in Hout.
      f_equal. destruct p as [? ? ? ? ? ? ? ? active ? ?]. destruct active; [|done].
      destruct Hout. eauto. }
  assert (¬ Exists (λ m, Match.active m = true) (Tournament.matches t)) as Hnone.
  { intros (m & Hm & Hm')%Exists_exists. rewrite Forall_forall in Hact.
    specialize (Hact m Hm). congruence. }
  unfold Swiss_nextRound, RoundRobin_nextRound.
  split; [|split].
  1,2: intros Hlast; unfold Eff.bind at 1; cbn [Eff.get];
    rewrite (decide_False (P := Exists _ _)) by done;
    rewrite (decide_False (P := _ ≠ _)) by (by intros []);
    rewrite decide_True by done; by rewrite decide_False.
  intros j p. unfold rankCut. norm_state. rewrite list_lookup_imap.
  destruct (Tournament.players t !! j) as [q|] eqn:Hq; [|done]. cbn.
  intros [= <-]. destruct (decide (j ∈ kept)) as [Hj|Hj].
  - split; [done|]. intros _. apply Hkept, Hcand in Hj as (q' & Hq' & Ha). congruence.
  - by destruct q.
Qed.

Lemma playoffs_cut_by_rank_witness :
  let t := Tournament.mk Format.swiss Sorting.none false 0 1 0 1
             [winner "P1" "m1" "P2" true; loser "P2" "m1" "P1" true;
              winner "P3" "m2" "P4" false; loser "P4" "m2" "P3" true]
             [Match.mk "m1" 1 1 (Some "P1") (Some "P2") false (Score.mk 1 0 0) None None;
              Match.mk "m2" 1 2 (Some "P3") (Some "P4") false (Score.mk 1 0 0) None None]
             Status.active 1 Playoffs.single_elimination 1 CutType.rank 2 false in
  Swiss_nextRound id id id (λ _ l, l) t
  = (Eff.Return tt,
     Tournament.mk Format.swiss Sorting.none false 0 1 0 2
       [winner "P1" "m1" "P2" true; loser "P2" "m1" "P1" true;
        winner "P3" "m2" "P4" false; loser "P4" "m2" "P3" false]
       (Tournament.matches t)
       Status.playoffs 1 Playoffs.single_elimination 1 CutType.rank 2 false).
Proof.
  intros t. etransitivity.
  - apply (playoffs_cut_by_rank id id id (λ _ l, l) t); try reflexivity.
    + repeat constructor.
    + discriminate.
  - vm_compute. reflexivity.
Defined.
(** *** What results in a bracket leave alone *)

Lemma routing_eraseResult match_ :
  preserves (λ t, routing <$> Tournament.matches t) (eraseResult match_).
Proof. unfold eraseResult, eraseOne. repeat routing_step. Qed.

Lemma routing_standardResult matchId w1 w2 draws :
  preserves (λ t, routing <$> Tournament.matches t) (standardResult matchId w1 w2 draws).
Proof.
  unfold standardResult, recordResult. repeat (routing_step || apply routing_eraseResult).
Qed.

Lemma routing_Swiss_eraseResult matchId :
  preserves (λ t, routing <$> Tournament.matches t) (Swiss_eraseResult matchId).
Proof.
  unfold Swiss_eraseResult, pullBack, pullFrom.
  repeat (routing_step || apply routing_eraseResult).
Qed.

Lemma ids_Swiss_eraseResult matchId : preserves playerIds (Swiss_eraseResult matchId).
Proof.
  unfold Swiss_eraseResult. repeat (apply ids_pullBack || apply ids_eraseResult || ids_step).
Qed.

(** Property X23.  Whatever the status, and whether the call returns or
    throws, [result] and [eraseResult] never change the id, the winner's path
    or the loser's path of a match, never add or remove a match, and never
    change the ids of the players: in a bracket they only move ids between
    slots, set scores and flags, and may end the event. *)
Theorem results_keep_routing matchId w1 w2 draws t :
  let reported := state_after (Swiss_result matchId w1 w2 draws t) in
  let decided := state_after (Elimination_result matchId w1 w2 t) in
  let erased := state_after (Swiss_eraseResult matchId t) in
  (routing <$> Tournament.matches reported = routing <$> Tournament.matches t ∧
   playerIds reported = playerIds t) ∧
  (routing <$> Tournament.matches decided = routing <$> Tournament.matches t ∧
   playerIds decided = playerIds t) ∧
  (routing <$> Tournament.matches erased = routing <$> Tournament.matches t ∧
   playerIds erased = playerIds t).
Proof.
  cbv zeta. unfold Swiss_result, Elimination_result, Eff.bind at 1 2, state_after.
  cbn [Eff.get].
  repeat split.
  - destruct (decide _);
      [apply routing_eliminationResult|apply routing_standardResult].
  - destruct (decide _); [apply ids_eliminationResult|apply ids_standardResult].
  - apply routing_eliminationResult.
  - apply ids_eliminationResult.
  - apply routing_Swiss_eraseResult.
  - apply ids_Swiss_eraseResult.
Qed.
(** *** The bye of a round robin *)

Lemma filterRefs_fmap {A} (P : A → Prop) `{∀ x, Decision (P x)} (f : A → A) (l : list A) n :
  (∀ x, P (f x) ↔ P x) → filterRefs P (f <$> l) n = filterRefs P l n.
Proof.
  intros Hf. revert n. induction l as [|x l IH]; intros n; cbn; [done|].
  rewrite IH. destruct (Hf x). destruct (decide (P (f x))), (decide (P x)); tauto.
Qed.

Lemma RoundRobin_nextRound_opened pairSingle pairDouble sort t :
  Forall (λ m, Match.active m = false) (Tournament.matches t) →
  Tournament.status t = Status.active →
  Tournament.currentRound t ≠ lastRound (Tournament.matches t) →
  RoundRobin_nextRound pairSingle pairDouble sort t
  = Eff.forEach
      (filterRefs (isRoundRobinBye (Tournament.currentRound t + 1)) (Tournament.matches t) 0)
      (λ bye,
         let* b := matchAt (Some bye) in
         if true && bool_decide (Match.playerOne b = None ∧ Match.playerTwo b = None)
         then Eff.ret tt
         else roundRobinBye bye)
      (opened t).
Proof.
  intros Hact Hst Hlast. unfold RoundRobin_nextRound.
  rewrite (bind_return Eff.get _ _ _ _ (get_at t)).
  rewrite decide_False.
  2:{ intros (m & Hm & Hm')%Exists_exists. rewrite Forall_forall in Hact.
      specialize (Hact m Hm). congruence. }
  rewrite decide_False by (by intros []). rewrite decide_False by done.
  unfold Eff.bind at 1. cbn [Eff.modify].
  unfold Eff.bind at 1. cbn [Eff.get]. norm_state.
  unfold Eff.bind at 1. rewrite forEach_setMatch. norm_state.
  rewrite (alter_filterRefs (playable (Tournament.currentRound t + 1))) by (by intros []).
  fold (opened t). unfold roundRobinByes.
  rewrite (bind_return Eff.get _ _ _ _ (get_at (opened t))).
  assert (Tournament.matches (opened t)
          = (λ m, if decide (playable (Tournament.currentRound t + 1) m)
                  then Match.set_active true m else m) <$> Tournament.matches t) as Hms
    by done.
  rewrite Hms at 1. rewrite filterRefs_fmap; [done|].
  intros m. unfold isRoundRobinBye. by destruct (decide _), m.
Qed.

(** Property X24.  Away from the last round, [nextRound] of [RoundRobin]
    (active tournament, no active match) opens the round and settles its bye.
    Without a match of the new round that lacks a player, nothing else
    happens; a match that lacks both players is skipped; for the one match
    that lacks exactly one player, the player present gets the bye, an entry
    that scores like a win with [pairingBye] set, and the match records
    [ceil(bestOf / 2)] wins on that player's side. *)
Theorem roundRobin_nextRound_bye pairSingle pairDouble sort t :
  let byes := filterRefs (isRoundRobinBye (Tournament.currentRound t + 1))
                (Tournament.matches t) 0 in
  Forall (λ m, Match.active m = false) (Tournament.matches t) →
  Tournament.status t = Status.active →
  Tournament.currentRound t ≠ lastRound (Tournament.matches t) →
  (byes = [] →
   RoundRobin_nextRound pairSingle pairDouble sort t = (Eff.Return tt, opened t)) ∧
  (∀ k b, byes = [k] → Tournament.matches t !! k = Some b →
     Match.playerOne b = None → Match.playerTwo b = None →
     RoundRobin_nextRound pairSingle pairDouble sort t = (Eff.Return tt, opened t)) ∧
  (∀ k b j,
     byes = [k] → Tournament.matches t !! k = Some b →
     ¬ (Match.playerOne b = None ∧ Match.playerTwo b = None) →
     findIndex (λ p, Some (Player.id p)
                     = if decide (Match.playerTwo b = None)
                       then Match.playerOne b else Match.playerTwo b)
       (Tournament.players t) = Some j →
     RoundRobin_nextRound pairSingle pairDouble sort t
     = (Eff.Return tt,
        Tournament.set_players (alter (award t b) j (Tournament.players t))
          (Tournament.set_matches
             (alter (byeScore t) k (Tournament.matches (opened t))) (opened t)))).
Proof.
  intros byes Hact Hst Hlast.
  rewrite (RoundRobin_nextRound_opened _ _ _ _ Hact Hst Hlast). fold byes.
  assert (∀ k b, byes = [k] → Tournament.matches t !! k = Some b →
                 Tournament.matches (opened t) !! k = Some b) as Hsame.
  { intros k b Hk Hb. unfold opened. norm_state. rewrite list_lookup_fmap, Hb. cbn.
    assert (k ∈ byes) as Hin by (rewrite Hk; left).
    apply filterRefs_elem in Hin as (k' & b' & Hk' & Hb' & _ & Hbye). cbn in Hk'. subst k'.
    rewrite Hb in Hb'. injection Hb' as <-.
    rewrite decide_False; [done|]. intros (_ & H1 & H2). by destruct Hbye. }
  split; [|split].
  - by intros ->.
  - intros k b Hk Hb H1 H2. rewrite Hk. cbn [Eff.forEach].
    rewrite (bind_return _ _ tt (opened t) (opened t)); [done|].
    rewrite (bind_return (matchAt (Some k)) _ _ _ _ (matchAt_at _ _ _ (Hsame _ _ Hk Hb))).
    by rewrite bool_decide_true.
  - intros k b j Hk Hb Hnot Hj. rewrite Hk. cbn [Eff.forEach].
    pose proof (Hsame _ _ Hk Hb) as Hb'.
    erewrite bind_return; [reflexivity|].
    rewrite (bind_return (matchAt (Some k)) _ _ _ _ (matchAt_at _ _ _ Hb')).
    rewrite bool_decide_false by done. cbn [andb].
    cut (wp (roundRobinBye k)
           (λ _ s', s' = Tournament.set_players (alter (award t b) j (Tournament.players t))
                           (Tournament.set_matches
                              (alter (byeScore t) k (Tournament.matches (opened t)))
                              (opened t))) (opened t)).
    { intros ([] & s' & Hrun & ->)%wp_returns. exact Hrun. }
    unfold roundRobinBye. wp_step. wp_step. at_same Hb'.
    assert (Tournament.players (opened t) = Tournament.players t) as Hps by done.
    wp_step. wp_step. rewrite Hps, Hj.
    wp_step. wp_step. wp_step. wp_step. wp_step. wp_step. wp_step. wp_step.
    wp_step. eapply wp_exact; [apply matchAt_at; norm_state; exact Hb'|].
    rewrite list_alter_alter_eq, Hps.
    assert (byeEntry (opened t) (Match.id b) (Match.round b)
            = byeEntry t (Match.id b) (Match.round b)) as -> by done.
    fold (award t b). unfold byeScore.
    assert (Tournament.bestOf (opened t) = Tournament.bestOf t) as -> by done.
    destruct (decide (Match.playerTwo b = None)) as [Htwo|Htwo]; wp_step; norm_state.
    all: change (Player.set_pairingBye true ∘ credit (byeEntry t (Match.id b) (Match.round b)))
           with (award t b).
    all: do 2 f_equal; apply list_eq; intros i.
    all: destruct (decide (i = k)) as [->|?];
      [|by rewrite !list_lookup_alter_ne].
    all: rewrite !list_lookup_alter_eq, Hb'; cbn.
    + by rewrite decide_True.
    + by rewrite decide_False.
Qed.

Lemma roundRobin_nextRound_bye_witness :
  let odd :=
    Tournament.set_matches
      [scheduled "r1m1" 1 (Some "A") (Some "D") false;
       scheduled "r1m2" 1 (Some "B") (Some "C") false;
       scheduled "r2m1" 2 None (Some "C") false;
       scheduled "r2m2" 2 (Some "D") (Some "B") false;
       scheduled "r3m1" 3 (Some "A") (Some "B") false;
       scheduled "r3m2" 3 (Some "C") (Some "D") false]
      doubleRoundRobin4 in
  let after := state_after (RoundRobin_nextRound id id (λ _ l, l) odd) in
  (Player.pairingBye <$> thePlayer after (Some "C")) = Some true ∧
  (Player.matchPoints <$> thePlayer after (Some "C")) = Some 2 ∧
  (Match.result <$> theMatch after "r2m1") = Some (Score.mk 0 1 0) ∧
  (Match.active <$> Tournament.matches after) = [false; false; false; true; false; false].
Proof.
  intros odd after.
  destruct (roundRobin_nextRound_bye id id (λ _ l, l) odd) as (_ & _ & Hbye).
  - apply (bool_decide_unpack _). vm_compute. reflexivity.
  - reflexivity.
  - vm_compute. discriminate.
  - specialize (Hbye 2%nat (scheduled "r2m1" 2 None (Some "C") false) 2%nat).
    unfold after. rewrite Hbye.
    + vm_compute. repeat split.
    + vm_compute. reflexivity.
    + reflexivity.
    + intros [_ ?]. discriminate.
    + vm_compute. reflexivity.
Defined.
